(** * Meta Post node: publish orchestration and the temporary video endpoint

    A shallow embedding of the TypeScript sources of the Meta Post node

      - the node's main file: [prepareCaption], [formatIgApiError],
        [publishIgContainerWithRetry], [pollIgContainer], [handleImage],
        [handleVideo];
      - the temporary video endpoint that shares the host's listener:
        [parseRange], [serveBuffer], [installInterceptor],
        [startTempVideoServer];
      - [utils/tempServer.ts], the endpoint with a listener of its own: the
        request callback given to [http.createServer];

    followed by the properties proved about them.

    JavaScript strings are sequences of code units; every string operation
    used by the sources ([endsWith], [startsWith], [includes], [slice],
    concatenation, a global regular-expression replace of newline runs) acts
    code unit by code unit, so strings are modelled as [list ascii].
    [async] functions are modelled in a state-and-exception monad over a
    [World] that carries the event trace of the run and the module-level
    state of the temporary video endpoint. *)

From Stdlib Require Import ZArith Ascii String DecimalString Bool.
From Stdlib.Strings Require Import Byte.
From stdpp Require Import gmap strings list fin_maps.

Local Open Scope Z_scope.
Local Open Scope list_scope.

(** ** JavaScript strings *)

(** A string literal as a list of code units. *)
Definition js (s : string) : list ascii := list_ascii_of_string s.

Definition LF : ascii := Ascii.ascii_of_nat 10.

Definition isLF (c : ascii) : bool := Ascii.eqb c LF.

Fixpoint eqbStr (a b : list ascii) : bool :=
  match a, b with
  | [], [] => true
  | x :: a', y :: b' => Ascii.eqb x y && eqbStr a' b'
  | _, _ => false
  end.

(** [String.prototype.startsWith]. *)
Fixpoint startsWith (s pre : list ascii) {struct pre} : bool :=
  match pre with
  | [] => true
  | p :: pre' =>
      match s with
      | [] => false
      | c :: s' => Ascii.eqb c p && startsWith s' pre'
      end
  end.

(** [String.prototype.endsWith]: the search string is compared with the last
    [length suf] code units of [s]; false when [s] is shorter. *)
Definition endsWith (s suf : list ascii) : bool :=
  (length suf <=? length s)%nat &&
  eqbStr (drop (length s - length suf) s) suf.

(** [String.prototype.includes]: some position of [s] starts with [pat]. *)
Fixpoint includes (s pat : list ascii) : bool :=
  startsWith s pat ||
  match s with
  | [] => false
  | _ :: s' => includes s' pat
  end.

(** ASCII lower-casing of one code unit, and [String.prototype.toLowerCase]
    on strings of such code units. *)
Definition lowerChar (c : ascii) : ascii :=
  let n := Ascii.nat_of_ascii c in
  if ((65 <=? n) && (n <=? 90))%nat then Ascii.ascii_of_nat (n + 32) else c.

Definition toLowerCase (s : list ascii) : list ascii := map lowerChar s.

(** Truthiness of a string: non-empty. *)
Definition truthy (s : list ascii) : bool :=
  match s with [] => false | _ => true end.

(** [a || b] on strings. *)
Definition orElse (a b : list ascii) : list ascii :=
  if truthy a then a else b.

(** Decimal rendering of an integer ([Number.prototype.toString] on the
    integers that occur here: lengths, offsets, status and error codes). *)
Definition toString (z : Z) : list ascii :=
  js (NilZero.string_of_int (Z.to_int z)).

(** ** Caption formatting: [prepareCaption] *)

(** [emitRun k]: what the replace leaves of a maximal run of [k] newlines. *)
Definition emitRun (k : nat) : list ascii :=
  if (3 <=? k)%nat then [LF; LF] else replicate k LF.

(** [s.replace(/\n{3,}/g, '\n\n')].  The scan goes left to right and the
    quantifier is greedy, so each match is a maximal run of at least three
    newlines; [run] counts the newlines of the run being read. *)
Fixpoint replaceNewlineRuns (run : nat) (s : list ascii) : list ascii :=
  match s with
  | [] => emitRun run
  | c :: t =>
      if isLF c then replaceNewlineRuns (S run) t
      else emitRun run ++ c :: replaceNewlineRuns 0 t
  end.

Definition collapseNewlines (s : list ascii) : list ascii :=
  replaceNewlineRuns 0 s.

Definition prepareCaption (caption hashSuffix : list ascii) : list ascii :=
  let result :=
    if truthy hashSuffix && negb (endsWith caption hashSuffix)
    then caption ++ [LF] ++ hashSuffix
    else caption in
  collapseNewlines result.

(** [hasTripleNewline s]: three consecutive newlines occur somewhere in [s]. *)
Definition hasTripleNewline (s : list ascii) : Prop :=
  exists a b, s = a ++ [LF; LF; LF] ++ b.

(** The same, decided by a scan. *)
Fixpoint noTriple (s : list ascii) : bool :=
  match s with
  | [] => true
  | c :: t =>
      negb (isLF c &&
            match t with
            | c1 :: c2 :: _ => isLF c1 && isLF c2
            | _ => false
            end) && noTriple t
  end.


(** ** The temporary video endpoint ([utils/tempServer.ts]) *)

(** What the handlers read of an [http.IncomingMessage]: the method, the
    request URL and the [range] header ([None] when the header is not sent). *)
Record Request := {
  method : list ascii;
  url : list ascii;
  range : option (list ascii)
}.

(** What the handlers write: the status line and headers of [writeHead], in
    the order written, and the bytes given to [end]. *)
Record Response := {
  res_status : Z;
  res_headers : list (list ascii * list ascii);
  res_body : list byte
}.

Definition isDigit (c : ascii) : bool :=
  let n := Ascii.nat_of_ascii c in ((48 <=? n) && (n <=? 57))%nat.

(** The longest prefix of digits, and the rest: how a greedy run of digits
    matches when the next thing to match is not a digit. *)
Fixpoint spanDigits (s : list ascii) : list ascii * list ascii :=
  match s with
  | [] => ([], [])
  | c :: t =>
      if isDigit c then let '(ds, rest) := spanDigits t in (c :: ds, rest)
      else ([], s)
  end.

(** [header.match] against the pattern of [parseRange]: the literal
    [bytes=], one or more digits (first group), a dash, zero or more digits
    (second group), then the end of the header.  The two groups. *)
Definition matchRange (header : list ascii) : option (list ascii * list ascii) :=
  if startsWith header (js "bytes=") then
    let '(g1, r1) := spanDigits (drop 6 header) in
    match g1, r1 with
    | _ :: _, dash :: r2 =>
        if Ascii.eqb dash "-"%char then
          let '(g2, r3) := spanDigits r2 in
          match r3 with
          | [] => Some (g1, g2)
          | _ :: _ => None
          end
        else None
    | _, _ => None
    end
  else None.

Definition digitValue (c : ascii) : Z :=
  Z.of_nat (Ascii.nat_of_ascii c) - 48.

(** [parseInt(ds, 10)] on a string of decimal digits.  The value is taken
    exactly; JavaScript rounds values above 2^53 to the nearest double, which
    changes no comparison made by [parseRange] against a buffer length (a
    length is below 2^53 and rounding is monotone). *)
Definition parseInt (ds : list ascii) : Z :=
  fold_left (fun acc c => 10 * acc + digitValue c) ds 0.

Definition parseRange (header : list ascii) (total : Z) : option (Z * Z) :=
  match matchRange header with
  | None => None
  | Some (g1, g2) =>
      let start := parseInt g1 in
      let end_ := if truthy g2 then parseInt g2 else total - 1 in
      if (start >? end_) || (start >=? total) then None
      else Some (start, Z.min end_ (total - 1))
  end.

(** An index argument of [Buffer.prototype.subarray]: negative indexes count
    from the end, and the result is clamped to the buffer. *)
Definition clampIndex (len i : Z) : Z :=
  if i <? 0 then Z.max (len + i) 0 else Z.min i len.

(** [buffer.subarray(from, to)]: the bytes at [from], ..., [to - 1]. *)
Definition subarray (buffer : list byte) (from to : Z) : list byte :=
  let len := Z.of_nat (length buffer) in
  let from' := clampIndex len from in
  let to' := clampIndex len to in
  take (Z.to_nat (to' - from')) (drop (Z.to_nat from') buffer).

Definition fullHeaders (total : Z) : list (list ascii * list ascii) :=
  [ (js "Content-Type", js "video/mp4");
    (js "Content-Length", toString total);
    (js "Accept-Ranges", js "bytes") ].

Definition rangeNotSatisfiable (total : Z) : Response :=
  {| res_status := 416;
     res_headers := [ (js "Content-Range", js "bytes */" ++ toString total) ];
     res_body := [] |}.

(** [serveBuffer] of the shared-listener endpoint. *)
Definition serveBuffer (req : Request) (buffer : list byte) : Response :=
  let total := Z.of_nat (length buffer) in
  if eqbStr (method req) (js "HEAD") then
    {| res_status := 200; res_headers := fullHeaders total; res_body := [] |}
  else
    match range req with
    | Some ((_ :: _) as rangeHeader) =>
        match parseRange rangeHeader total with
        | None => rangeNotSatisfiable total
        | Some (start, end_) =>
            {| res_status := 206;
               res_headers :=
                 [ (js "Content-Type", js "video/mp4");
                   (js "Content-Range",
                    js "bytes " ++ toString start ++ js "-" ++ toString end_
                      ++ js "/" ++ toString total);
                   (js "Content-Length", toString (end_ - start + 1));
                   (js "Accept-Ranges", js "bytes") ];
               res_body := subarray buffer start (end_ + 1) |}
        end
    | _ =>
        {| res_status := 200; res_headers := fullHeaders total;
           res_body := buffer |}
    end.

Definition TMP_VIDEO_PREFIX : list ascii := js "/tmp-video/".

(** A ['request'] listener of the host's HTTP server: a handler of the host
    application, named by a number, or the wrapper that [installInterceptor]
    registers, which closes over the handler it replaced. *)
Inductive Listener :=
| HostHandler (id : nat)
| Interceptor (originalHandler : Listener).

(** What a listener does with a request: the endpoint answers it, or it
    reaches a handler of the host application, as the same request. *)
Inductive Handled :=
| Served (res : Response)
| PassedTo (host : nat) (req : Request).

Definition isGetOrHead (m : list ascii) : bool :=
  eqbStr m (js "GET") || eqbStr m (js "HEAD").

(** Calling a listener with a request.  The [Interceptor] case is the wrapper
    of [installInterceptor]; it reads the module's [activeVideos] map at the
    time of the request. *)
Fixpoint callListener (activeVideos : gmap (list ascii) (list byte))
    (l : Listener) (req : Request) : Handled :=
  match l with
  | HostHandler id => PassedTo id req
  | Interceptor originalHandler =>
      if startsWith (url req) TMP_VIDEO_PREFIX && isGetOrHead (method req) then
        let filename := drop (length TMP_VIDEO_PREFIX) (url req) in
        match activeVideos !! filename with
        | Some buffer => Served (serveBuffer req buffer)
        | None => callListener activeVideos originalHandler req
        end
      else callListener activeVideos originalHandler req
  end.

(** [server.emit('request', req, res)]: every listener is called, in order. *)
Definition emitRequest (activeVideos : gmap (list ascii) (list byte))
    (listeners : list Listener) (req : Request) : list Handled :=
  map (fun l => callListener activeVideos l req) listeners.

(** Nesting depth of interceptors in a listener, and the number of
    interceptors installed on a server. *)
Fixpoint interceptorDepth (l : Listener) : nat :=
  match l with
  | HostHandler _ => 0%nat
  | Interceptor o => S (interceptorDepth o)
  end.

Definition installedInterceptors (listeners : list Listener) : nat :=
  list_sum (map interceptorDepth listeners).

(** The request callback of the dedicated-listener endpoint: one file at
    [servePath]; [keep-alive] is added to the headers of [serveBuffer]. *)
Definition keepAlive : list ascii * list ascii :=
  (js "Connection", js "keep-alive").

Definition notFound : Response :=
  {| res_status := 404; res_headers := []; res_body := [] |}.

Definition dedicatedHandler (servePath : list ascii) (buffer : list byte)
    (req : Request) : Response :=
  let total := Z.of_nat (length buffer) in
  if negb (eqbStr (url req) servePath)
     || (negb (eqbStr (method req) (js "GET"))
         && negb (eqbStr (method req) (js "HEAD")))
  then notFound
  else if eqbStr (method req) (js "HEAD") then
    {| res_status := 200; res_headers := fullHeaders total ++ [keepAlive];
       res_body := [] |}
  else
    match range req with
    | Some ((_ :: _) as rangeHeader) =>
        match parseRange rangeHeader total with
        | None => rangeNotSatisfiable total
        | Some (start, end_) =>
            let chunkSize := end_ - start + 1 in
            {| res_status := 206;
               res_headers :=
                 [ (js "Content-Type", js "video/mp4");
                   (js "Content-Range",
                    js "bytes " ++ toString start ++ js "-" ++ toString end_
                      ++ js "/" ++ toString total);
                   (js "Content-Length", toString chunkSize);
                   (js "Accept-Ranges", js "bytes");
                   keepAlive ];
               res_body := subarray buffer start (end_ + 1) |}
        end
    | _ =>
        {| res_status := 200; res_headers := fullHeaders total ++ [keepAlive];
           res_body := buffer |}
    end.

(** ** Responses of the Graph API adapter ([utils/graphApi.ts], [types.ts]) *)

(** The [error] object of a Graph API response body. *)
Record ApiError := {
  message : option (list ascii);
  code : option Z;
  error_subcode : option Z;
  error_user_msg : option (list ascii)
}.

Record Body := {
  body_id : option (list ascii);
  body_error : option ApiError
}.

(** [graphApi.FullResponse], as its users read it: the status code, the
    [www-authenticate] header and the parsed body. *)
Record FullResponse := {
  statusCode : Z;
  www_authenticate : option (list ascii);
  body : option Body
}.

Record IgStatusResponse := {
  status_code : list ascii;
  status : option (list ascii)
}.

(** The [images] array of [FbPhotoImagesResponse]: the [source] of each. *)
Record FbPhotoImagesResponse := {
  images : list (list ascii)
}.

Record MetaPostResult := {
  instagram_post_id : list ascii;
  instagram_permalink : list ascii;
  facebook_post_id : list ascii;
  facebook_photo_id : option (list ascii);
  facebook_video_id : option (list ascii)
}.

Inductive ImageFormat := jpeg | png.

Record ImageConvertOptions := {
  img_maxWidth : Z;
  img_maxHeight : Z;
  img_outputFormat : ImageFormat
}.

Record VideoConvertOptions := {
  vid_videoCodec : list ascii;
  vid_crf : Z;
  vid_preset : list ascii;
  vid_fps : Z;
  vid_audioCodec : list ascii;
  vid_audioBitrate : list ascii;
  vid_audioChannels : Z;
  vid_audioSampleRate : Z;
  vid_maxWidth : Z;
  vid_maxHeight : Z;
  vid_maxBitrate : list ascii
}.

(** [MetaPostParams], the fields the two flows read. *)
Record MetaPostParams := {
  mediaUrl : list ascii;
  instagramAccountId : list ascii;
  facebookPageId : list ascii;
  imageMaxWidth : Z;
  imageMaxHeight : Z;
  imageOutputFormat : ImageFormat;
  videoCodec : list ascii;
  videoCrf : Z;
  videoPreset : list ascii;
  videoFps : Z;
  audioCodec : list ascii;
  audioBitrate : list ascii;
  audioChannels : Z;
  audioSampleRate : Z;
  videoMaxWidth : Z;
  videoMaxHeight : Z;
  videoMaxBitrate : list ascii
}.

(** How a promise settles: with a value, or rejected with an error, of which
    the flows read the [message]. *)
Inductive Outcome (A : Type) :=
| Resolved (value : A)
| Rejected (error : list ascii).
Arguments Resolved {A} value.
Arguments Rejected {A} error.

(** The collaborators of a run: the host, the transcoder, the remote API.
    Each field gives how the call settles.  Access tokens, account ids and
    the API version are fixed for a run and are left out of the arguments;
    the status and publish calls, which are repeated on one container, take
    the number of earlier calls of their kind. *)
Record Env := {
  getInstanceBaseUrl : list ascii;
  randomUUID : nat -> list ascii;
  JSON_stringify : option Body -> list ascii;
  downloadMedia : list ascii -> Outcome (list byte);
  convertImage : list byte -> ImageConvertOptions -> Outcome (list byte);
  convertVideo : list byte -> VideoConvertOptions -> Outcome (list byte);
  tryCreateIgImageContainer : list ascii -> list ascii -> Outcome FullResponse;
  createIgImageContainer : list ascii -> list ascii -> Outcome (list ascii);
  createIgReelContainer : list ascii -> list ascii -> Outcome (list ascii);
  getIgContainerStatus : nat -> list ascii -> Outcome IgStatusResponse;
  publishIgContainer : nat -> list ascii -> Outcome FullResponse;
  getIgPermalink : list ascii -> Outcome (list ascii);
  uploadFbPhotoFromUrl : list ascii -> bool -> Outcome (list ascii);
  uploadFbPhotoFromBuffer :
    list byte -> list ascii -> list ascii -> bool -> Outcome (list ascii);
  getFbPhotoImages : list ascii -> Outcome FbPhotoImagesResponse;
  uploadFbVideoFromBuffer :
    list byte -> list ascii -> list ascii -> bool -> Outcome (list ascii);
  deleteFbVideo : list ascii -> Outcome unit;
  createFbFeedPost : list ascii -> list ascii -> Outcome (list ascii)
}.

(** ** The world of a run *)

Inductive Event :=
| EvSleep (ms : Z)
| EvDownloadMedia (mediaUrl : list ascii)
| EvConvertImage (options : ImageConvertOptions)
| EvConvertVideo (options : VideoConvertOptions)
| EvTryCreateIgImageContainer (imageUrl caption : list ascii)
| EvCreateIgImageContainer (imageUrl caption : list ascii)
| EvCreateIgReelContainer (videoUrl caption : list ascii)
| EvGetIgContainerStatus (containerId : list ascii)
| EvPublishIgContainer (containerId : list ascii)
| EvGetIgPermalink (igPostId : list ascii)
| EvUploadFbPhotoFromUrl (imageUrl : list ascii) (published : bool)
| EvUploadFbPhotoFromBuffer (buffer : list byte) (filename mime : list ascii)
    (published : bool)
| EvGetFbPhotoImages (photoId : list ascii)
| EvUploadFbVideoFromBuffer (buffer : list byte)
    (filename description : list ascii) (published : bool)
| EvDeleteFbVideo (videoId : list ascii)
| EvCreateFbFeedPost (message mediaFbId : list ascii)
| EvInstallInterceptor
| EvRegisterVideo (filename : list ascii)
| EvCloseVideo (filename : list ascii).

(** The state a run reads and writes: the calls made so far, in order; the
    module-level [activeVideos] map and [interceptorInstalled] flag of the
    endpoint; the ['request'] listeners of the server [findN8nServer] returns
    ([None] when it finds no listening server); and how many UUIDs, status
    calls and publish calls there have been. *)
Record World := {
  trace : list Event;
  activeVideos : gmap (list ascii) (list byte);
  interceptorInstalled : bool;
  n8nServer : option (list Listener);
  uuidCalls : nat;
  statusCalls : nat;
  publishCalls : nat
}.

Definition addEvent (e : Event) (w : World) : World :=
  {| trace := trace w ++ [e];
     activeVideos := activeVideos w;
     interceptorInstalled := interceptorInstalled w;
     n8nServer := n8nServer w;
     uuidCalls := uuidCalls w;
     statusCalls := statusCalls w;
     publishCalls := publishCalls w |}.

Definition setActiveVideos (m : gmap (list ascii) (list byte)) (w : World)
    : World :=
  {| trace := trace w;
     activeVideos := m;
     interceptorInstalled := interceptorInstalled w;
     n8nServer := n8nServer w;
     uuidCalls := uuidCalls w;
     statusCalls := statusCalls w;
     publishCalls := publishCalls w |}.

Definition setInterceptor (listeners : list Listener) (w : World) : World :=
  {| trace := trace w;
     activeVideos := activeVideos w;
     interceptorInstalled := true;
     n8nServer := Some listeners;
     uuidCalls := uuidCalls w;
     statusCalls := statusCalls w;
     publishCalls := publishCalls w |}.

Definition bumpUuid (w : World) : World :=
  {| trace := trace w;
     activeVideos := activeVideos w;
     interceptorInstalled := interceptorInstalled w;
     n8nServer := n8nServer w;
     uuidCalls := S (uuidCalls w);
     statusCalls := statusCalls w;
     publishCalls := publishCalls w |}.

Definition bumpStatus (w : World) : World :=
  {| trace := trace w;
     activeVideos := activeVideos w;
     interceptorInstalled := interceptorInstalled w;
     n8nServer := n8nServer w;
     uuidCalls := uuidCalls w;
     statusCalls := S (statusCalls w);
     publishCalls := publishCalls w |}.

Definition bumpPublish (w : World) : World :=
  {| trace := trace w;
     activeVideos := activeVideos w;
     interceptorInstalled := interceptorInstalled w;
     n8nServer := n8nServer w;
     uuidCalls := uuidCalls w;
     statusCalls := statusCalls w;
     publishCalls := S (publishCalls w) |}.

(** ** The monad of [async] code *)

(** How a computation ends: it returns, it throws, or the model ran out of
    the fuel given to an unbounded loop. *)
Inductive Result (A : Type) :=
| Returned (value : A)
| Thrown (error : list ascii)
| OutOfFuel.
Arguments Returned {A} value.
Arguments Thrown {A} error.
Arguments OutOfFuel {A}.

Definition M (A : Type) : Type := World -> Result A * World.

#[global] Instance M_ret : MRet M := fun A a w => (Returned a, w).

#[global] Instance M_bind : MBind M := fun A B k m w =>
  match m w with
  | (Returned a, w') => k a w'
  | (Thrown e, w') => (Thrown e, w')
  | (OutOfFuel, w') => (OutOfFuel, w')
  end.

Definition throw {A} (error : list ascii) : M A := fun w => (Thrown error, w).

Definition outOfFuel {A} : M A := fun w => (OutOfFuel, w).

Definition log (e : Event) : M unit := fun w => (Returned tt, addEvent e w).

(** [await p] on a promise that settles as [o]. *)
Definition await {A} (o : Outcome A) : M A := fun w =>
  match o with
  | Resolved a => (Returned a, w)
  | Rejected e => (Thrown e, w)
  end.

(** [try { body } catch (error) { handler }]. *)
Definition tryCatch {A} (body : M A) (handler : list ascii -> M A) : M A :=
  fun w =>
    match body w with
    | (Thrown e, w') => handler e w'
    | other => other
    end.

(** [try { body } finally { finalizer }]: the finalizer runs however the body
    ends, and the body's completion stands unless the finalizer throws. *)
Definition tryFinally {A} (body : M A) (finalizer : M unit) : M A :=
  fun w =>
    let '(r, w') := body w in
    match finalizer w' with
    | (Returned _, w'') => (r, w'')
    | (Thrown e, w'') => (Thrown e, w'')
    | (OutOfFuel, w'') => (OutOfFuel, w'')
    end.

(** [sleep(ms)]. *)
Definition sleep (ms : Z) : M unit := log (EvSleep ms).

(** ** Publishing a container: [formatIgApiError], [publishIgContainerWithRetry] *)

Definition truthyNum (n : option Z) : bool :=
  match n with
  | Some z => negb (z =? 0)
  | None => false
  end.

Definition optStr (s : option (list ascii)) : list ascii := default [] s.

(** [parts.join(', ')]. *)
Fixpoint join (sep : list ascii) (parts : list (list ascii)) : list ascii :=
  match parts with
  | [] => []
  | [p] => p
  | p :: rest => p ++ sep ++ join sep rest
  end.

(** [resp.body?.error] and [resp.body?.id]. *)
Definition respError (resp : FullResponse) : option ApiError :=
  body resp ≫= body_error.

Definition respId (resp : FullResponse) : list ascii :=
  optStr (body resp ≫= body_id).

Definition formatIgApiError (env : Env) (resp : FullResponse) : list ascii :=
  match respError resp with
  | None =>
      js "HTTP " ++ toString (statusCode resp) ++ js ": "
        ++ JSON_stringify env (body resp)
  | Some err =>
      let parts :=
        [js "HTTP " ++ toString (statusCode resp)]
        ++ (if truthyNum (code err)
            then [js "code " ++ toString (default 0 (code err))] else [])
        ++ (if truthyNum (error_subcode err)
            then [js "subcode " ++ toString (default 0 (error_subcode err))]
            else []) in
      let msg := orElse (optStr (error_user_msg err)) (optStr (message err)) in
      js "Instagram publish failed (" ++ join (js ", ") parts ++ js "): " ++ msg
  end.

(** The test [resp.statusCode >= 200 && resp.statusCode < 300 &&
    resp.body?.id], and the test of a permanent client error. *)
Definition hasId (resp : FullResponse) : bool :=
  truthy (respId resp).

Definition isSuccess (resp : FullResponse) : bool :=
  (200 <=? statusCode resp) && (statusCode resp <? 300) && hasId resp.

Definition isClientError (resp : FullResponse) : bool :=
  (400 <=? statusCode resp) && (statusCode resp <? 500).

Definition delays : list Z := [1000; 2000; 3000; 4000; 5000].

(** [await graphApi.publishIgContainer(...)]. *)
Definition publishIgContainerCall (env : Env) (containerId : list ascii)
    : M FullResponse :=
  fun w =>
    (log (EvPublishIgContainer containerId);;
     await (publishIgContainer env (publishCalls w) containerId))
      (bumpPublish w).

(** The loop [for (let attempt = 0; ; attempt++)] of
    [publishIgContainerWithRetry], from a given [attempt]. *)
Fixpoint publishAttempts (env : Env) (containerId : list ascii)
    (fuel attempt : nat) : M (list ascii) :=
  match fuel with
  | O => outOfFuel
  | S fuel' =>
      resp ← publishIgContainerCall env containerId;
      if isSuccess resp then mret (respId resp)
      else if isClientError resp then throw (formatIgApiError env resp)
      else if (length delays <=? attempt)%nat
      then throw (formatIgApiError env resp)
      else
        sleep (nth attempt delays 0);;
        publishAttempts env containerId fuel' (S attempt)
  end.

(** The loop leaves at the latest in the pass with
    [attempt = delays.length]; that many passes and one more are allowed. *)
Definition publishIgContainerWithRetry (env : Env) (containerId : list ascii)
    : M (list ascii) :=
  publishAttempts env containerId (S (length delays)) 0.

(** ** Polling a container: [pollIgContainer] *)

Definition maxPolls : nat := 30.
Definition pollInterval : Z := 10000.

Definition reelRequirements : list ascii :=
  js ". Ensure the video URL is publicly accessible and the video meets Instagram Reels requirements (MP4 H.264, max 5 Mbps bitrate, max 90s, 9:16 aspect ratio recommended).".

Definition processingFailed (st : IgStatusResponse) : list ascii :=
  js "Instagram Reel processing failed: "
    ++ orElse (optStr (status st)) (status_code st) ++ reelRequirements.

Definition pollingTimedOut : list ascii :=
  js "Instagram Reel processing timed out after 5 minutes of polling".

(** [await graphApi.getIgContainerStatus(...)]. *)
Definition getIgContainerStatusCall (env : Env) (containerId : list ascii)
    : M IgStatusResponse :=
  fun w =>
    (log (EvGetIgContainerStatus containerId);;
     await (getIgContainerStatus env (statusCalls w) containerId))
      (bumpStatus w).

(** The loop [for (let attempt = 0; attempt < maxPolls; attempt++)] with
    [remaining = maxPolls - attempt] passes to go, and the [throw] after it. *)
Fixpoint pollPasses (env : Env) (containerId : list ascii) (remaining : nat)
    : M unit :=
  match remaining with
  | O => throw pollingTimedOut
  | S remaining' =>
      sleep pollInterval;;
      st ← getIgContainerStatusCall env containerId;
      if eqbStr (status_code st) (js "FINISHED") then mret tt
      else if eqbStr (status_code st) (js "ERROR")
              || eqbStr (status_code st) (js "EXPIRED")
      then throw (processingFailed st)
      else pollPasses env containerId remaining'
  end.

Definition pollIgContainer (env : Env) (containerId : list ascii) : M unit :=
  pollPasses env containerId maxPolls.

(** ** Registering a video: [installInterceptor], [startTempVideoServer] *)

(** [installInterceptor(server)], on the listeners of [server]. *)
Definition installInterceptor (listeners : list Listener) : M unit :=
  fun w =>
    if interceptorInstalled w then (Returned tt, w)
    else
      match listeners with
      | [] => (Thrown (js "No request handlers found on n8n HTTP server"), w)
      | originalHandler :: _ =>
          (Returned tt,
           addEvent EvInstallInterceptor
             (setInterceptor [Interceptor originalHandler] w))
      end.

(** [baseUrl.replace(/\/+$/, '')]: the trailing slashes are removed. *)
Fixpoint stripTrailingSlashes (s : list ascii) : list ascii :=
  match s with
  | [] => []
  | c :: t =>
      match stripTrailingSlashes t with
      | [] => if Ascii.eqb c "/"%char then [] else [c]
      | t' => c :: t'
      end
  end.

(** The object [startTempVideoServer] resolves with. *)
Record TempVideoServer := {
  server_url : list ascii;
  close : M unit
}.

Definition closeVideo (filename : list ascii) : M unit :=
  fun w =>
    (Returned tt,
     addEvent (EvCloseVideo filename)
       (setActiveVideos (delete filename (activeVideos w)) w)).

Definition nextUuid (env : Env) : M (list ascii) :=
  fun w => (Returned (randomUUID env (uuidCalls w)), bumpUuid w).

Definition registerVideo (filename : list ascii) (buffer : list byte) : M unit :=
  fun w =>
    (Returned tt,
     addEvent (EvRegisterVideo filename)
       (setActiveVideos (<[filename := buffer]> (activeVideos w)) w)).

Definition startTempVideoServer (env : Env) (buffer : list byte)
    (baseUrl : list ascii) : M TempVideoServer :=
  fun w =>
    match n8nServer w with
    | None =>
        (Thrown (js "Could not find n8n's HTTP server. Ensure the node is running inside n8n."), w)
    | Some listeners =>
        (installInterceptor listeners;;
         uuid ← nextUuid env;
         let filename := uuid ++ js ".mp4" in
         registerVideo filename buffer;;
         let url := stripTrailingSlashes baseUrl ++ TMP_VIDEO_PREFIX ++ filename in
         mret {| server_url := url; close := closeVideo filename |}) w
    end.

(** ** The image flow: [handleImage] *)

Definition formatSignature : list ascii := js "Only photo or video can be accepted".

(** [errorText.includes('Only photo or video can be accepted')], where
    [errorText] is the header, a space and the body's error message. *)
Definition bodyMessage (resp : FullResponse) : list ascii :=
  optStr (respError resp ≫= message).

Definition isFormatError (resp : FullResponse) : bool :=
  let wwwAuth := optStr (www_authenticate resp) in
  let bodyMsg := bodyMessage resp in
  let errorText := wwwAuth ++ js " " ++ bodyMsg in
  includes errorText formatSignature.

Definition containerCreationFailed (env : Env) (resp : FullResponse)
    : list ascii :=
  js "Instagram container creation failed (HTTP "
    ++ toString (statusCode resp) ++ js "): "
    ++ orElse (bodyMessage resp) (JSON_stringify env (body resp)).

Definition formatName (f : ImageFormat) : list ascii :=
  match f with jpeg => js "jpeg" | png => js "png" end.

(** The options given to [convertImage], and the [mime] of its output. *)
Definition imageOptions (params : MetaPostParams) : ImageConvertOptions :=
  {| img_maxWidth := imageMaxWidth params;
     img_maxHeight := imageMaxHeight params;
     img_outputFormat := imageOutputFormat params |}.

Definition imageMime (params : MetaPostParams) : list ascii :=
  match imageOutputFormat params with
  | jpeg => js "image/jpeg"
  | png => js "image/png"
  end.

(** Steps 1 and 2 of [handleImage]: the container made from the original
    URL, or else from the converted copy hosted on the second destination.
    The first component is [fbPhotoId], the id of the photo uploaded on the
    way, empty when there was none. *)
Definition imageContainer (env : Env) (params : MetaPostParams)
    (caption : list ascii) : M (list ascii * list ascii) :=
  containerResp ←
    (log (EvTryCreateIgImageContainer (mediaUrl params) caption);;
     await (tryCreateIgImageContainer env (mediaUrl params) caption));
  if isSuccess containerResp
  then mret ([], respId containerResp)
  else
    if negb (isFormatError containerResp)
    then throw (containerCreationFailed env containerResp)
    else
      imageBuffer ←
        (log (EvDownloadMedia (mediaUrl params));;
         await (downloadMedia env (mediaUrl params)));
      let options := imageOptions params in
      convertedBuffer ←
        (log (EvConvertImage options);;
         await (convertImage env imageBuffer options));
      let ext := formatName (imageOutputFormat params) in
      let mime := imageMime params in
      let filename := js "converted." ++ ext in
      fbPhoto ←
        (log (EvUploadFbPhotoFromBuffer convertedBuffer filename mime false);;
         await (uploadFbPhotoFromBuffer env convertedBuffer filename mime
                  false));
      photoImages ←
        (log (EvGetFbPhotoImages fbPhoto);;
         await (getFbPhotoImages env fbPhoto));
      let cdnUrl := default [] (head (images photoImages)) in
      if negb (truthy cdnUrl)
      then throw (js "Could not retrieve CDN URL for converted image from Facebook")
      else
        retryContainer ←
          (log (EvCreateIgImageContainer cdnUrl caption);;
           await (createIgImageContainer env cdnUrl caption));
        mret (fbPhoto, retryContainer).

(** Steps 3 to 6 of [handleImage]: the publish, the photo on the second
    destination when none was uploaded yet, the feed post, the permalink. *)
Definition publishImage (env : Env) (params : MetaPostParams)
    (caption fbPhotoId igContainerId : list ascii) : M MetaPostResult :=
  igPost ← publishIgContainerWithRetry env igContainerId;
  fbPhotoId ←
    (if negb (truthy fbPhotoId)
     then
       log (EvUploadFbPhotoFromUrl (mediaUrl params) false);;
       await (uploadFbPhotoFromUrl env (mediaUrl params) false)
     else mret fbPhotoId);
  fbFeedPost ←
    (log (EvCreateFbFeedPost caption fbPhotoId);;
     await (createFbFeedPost env caption fbPhotoId));
  igPermalink ←
    (log (EvGetIgPermalink igPost);; await (getIgPermalink env igPost));
  mret {| instagram_post_id := igPost;
          instagram_permalink := igPermalink;
          facebook_post_id := fbFeedPost;
          facebook_photo_id := Some fbPhotoId;
          facebook_video_id := None |}.

Definition handleImage (env : Env) (params : MetaPostParams)
    (caption : list ascii) : M MetaPostResult :=
  '(fbPhotoId, igContainerId) ← imageContainer env params caption;
  publishImage env params caption fbPhotoId igContainerId.

(** ** The video flow: [handleVideo] *)

Definition carouselCode : list ascii := js "2207089".

(** The test of the [catch] block on the message of the caught error. *)
Definition isCarouselRejection (msg : list ascii) : bool :=
  includes msg carouselCode || includes (toLowerCase msg) (js "carousel").

Definition reelGuidance (msg : list ascii) : list ascii :=
  js "Instagram rejected the video as a Reel. The video likely exceeds Instagram Reels requirements (max 5 Mbps bitrate, H.264 High profile, max 90s duration). Please re-encode the source video to a lower bitrate before posting. (Original error: "
    ++ msg ++ js ")".

(** What the [catch] block throws for a caught [error]. *)
Definition rethrown (error : list ascii) : list ascii :=
  if isCarouselRejection error then reelGuidance error else error.

(** The body of the [try] block: steps 4 to 6, on the first destination. *)
Definition igReelLeg (env : Env) (igVideoUrl caption : list ascii)
    : M (list ascii) :=
  igContainer ←
    (log (EvCreateIgReelContainer igVideoUrl caption);;
     await (createIgReelContainer env igVideoUrl caption));
  pollIgContainer env igContainer;;
  publishIgContainerWithRetry env igContainer.

(** The [catch] block: the clean-up of the parallel upload in its own
    [try]/[catch], then the [throw]. *)
Definition cleanUpAndRethrow (env : Env) (fbVideoPromise : Outcome (list ascii))
    (error : list ascii) : M (list ascii) :=
  tryCatch
    (fbVideo ← await fbVideoPromise;
     log (EvDeleteFbVideo fbVideo);;
     await (deleteFbVideo env fbVideo))
    (fun _ => mret tt);;
  throw (rethrown error).

Definition videoOptions (params : MetaPostParams) : VideoConvertOptions :=
  {| vid_videoCodec := videoCodec params;
     vid_crf := videoCrf params;
     vid_preset := videoPreset params;
     vid_fps := videoFps params;
     vid_audioCodec := audioCodec params;
     vid_audioBitrate := audioBitrate params;
     vid_audioChannels := audioChannels params;
     vid_audioSampleRate := audioSampleRate params;
     vid_maxWidth := videoMaxWidth params;
     vid_maxHeight := videoMaxHeight params;
     vid_maxBitrate := videoMaxBitrate params |}.

(** The upload of step 3 is started without [await]: the call is made here,
    and the promise it returns settles as the collaborator decides. *)
Definition startUpload (env : Env) (buffer : list byte)
    (filename description : list ascii) (published : bool)
    : M (Outcome (list ascii)) :=
  log (EvUploadFbVideoFromBuffer buffer filename description published);;
  mret (uploadFbVideoFromBuffer env buffer filename description published).

Definition handleVideo (env : Env) (params : MetaPostParams)
    (caption : list ascii) : M MetaPostResult :=
  videoBuffer ←
    (log (EvDownloadMedia (mediaUrl params));;
     await (downloadMedia env (mediaUrl params)));
  convertedBuffer ←
    (log (EvConvertVideo (videoOptions params));;
     await (convertVideo env videoBuffer (videoOptions params)));
  let instanceBaseUrl := getInstanceBaseUrl env in
  tempServer ← startTempVideoServer env convertedBuffer instanceBaseUrl;
  let igVideoUrl := server_url tempServer in
  fbVideoPromise ←
    startUpload env convertedBuffer (js "video.mp4") caption true;
  igPost ←
    tryFinally
      (tryCatch
         (igReelLeg env igVideoUrl caption)
         (cleanUpAndRethrow env fbVideoPromise))
      (close tempServer);
  fbVideo ← await fbVideoPromise;
  igPermalink ←
    (log (EvGetIgPermalink igPost);; await (getIgPermalink env igPost));
  mret {| instagram_post_id := igPost;
          instagram_permalink := igPermalink;
          facebook_post_id := facebookPageId params ++ js "_" ++ fbVideo;
          facebook_photo_id := None;
          facebook_video_id := Some fbVideo |}.


(** ** Vocabulary of the statements *)

(** The value written for a header. *)
Fixpoint headerValue (name : list ascii)
    (headers : list (list ascii * list ascii)) : option (list ascii) :=
  match headers with
  | [] => None
  | (n, v) :: rest => if eqbStr n name then Some v else headerValue name rest
  end.

(** [bytes] is the inclusive slice [first .. last] of [buffer]. *)
Definition isSliceOf (buffer : list byte) (first last : Z) (bytes : list byte)
    : Prop :=
  Z.of_nat (length bytes) = last - first + 1
  /\ forall i : nat, (i < length bytes)%nat ->
       bytes !! i = buffer !! (Z.to_nat first + i)%nat.

(** The answer to a range request for [start .. end_] on [buffer], in the
    words of the specification: 416 with [bytes */total] when the range
    starts after its end or beyond the buffer, else 206 with the range
    clipped to the last byte, its length, and exactly those bytes. *)
Definition rangeAnswer (buffer : list byte) (start end_ : Z) (res : Response)
    : Prop :=
  let total := Z.of_nat (length buffer) in
  if (start >? end_) || (start >=? total) then
    res_status res = 416
    /\ headerValue (js "Content-Range") (res_headers res)
       = Some (js "bytes */" ++ toString total)
    /\ res_body res = []
  else
    let last := Z.min end_ (total - 1) in
    res_status res = 206
    /\ headerValue (js "Content-Range") (res_headers res)
       = Some (js "bytes " ++ toString start ++ js "-" ++ toString last
                 ++ js "/" ++ toString total)
    /\ headerValue (js "Content-Length") (res_headers res)
       = Some (toString (last - start + 1))
    /\ isSliceOf buffer start last (res_body res).

Definition allDigits (s : list ascii) : Prop :=
  Forall (fun c => isDigit c = true) s.

(** What happens to the endpoint over the life of a process: videos are
    registered by [startTempVideoServer] and unregistered by the [close] of
    the objects it returned. *)
Inductive EndpointOp :=
| OpStart (buffer : list byte) (baseUrl : list ascii)
| OpClose (filename : list ascii).

Definition runEndpointOp (env : Env) (w : World) (op : EndpointOp) : World :=
  match op with
  | OpStart buffer baseUrl => (startTempVideoServer env buffer baseUrl w).2
  | OpClose filename => (closeVideo filename w).2
  end.

Definition runEndpointOps (env : Env) (ops : list EndpointOp) (w : World)
    : World :=
  fold_left (runEndpointOp env) ops w.

(** The world when the process starts: nothing registered, no interceptor,
    and the host's handlers as the only listeners of its server. *)
Definition processStart (server : option (list nat)) : World :=
  {| trace := [];
     activeVideos := ∅;
     interceptorInstalled := false;
     n8nServer := map HostHandler <$> server;
     uuidCalls := 0;
     statusCalls := 0;
     publishCalls := 0 |}.

Definition serverListeners (w : World) : list Listener :=
  default [] (n8nServer w).

Definition isInstall (e : Event) : bool :=
  match e with EvInstallInterceptor => true | _ => false end.

(** How many events of a kind a trace has. *)
Definition countEvents (kind : Event -> bool) (tr : list Event) : nat :=
  length (List.filter kind tr).

(** [u] is the path of a video that is registered in [registered]. *)
Definition registeredPath (registered : gmap (list ascii) (list byte))
    (u : list ascii) : Prop :=
  exists filename,
    u = TMP_VIDEO_PREFIX ++ filename /\ is_Some (registered !! filename).

(** The invariant of the module state: the flag says whether the server
    carries the interceptor, which then is its only listener and wraps a
    handler of the host. *)
Definition interceptorInvariant (w : World) : Prop :=
  if interceptorInstalled w
  then (exists h, n8nServer w = Some [Interceptor (HostHandler h)])
       /\ countEvents isInstall (trace w) = 1%nat
  else (exists hosts, n8nServer w = map HostHandler <$> hosts)
       /\ countEvents isInstall (trace w) = 0%nat.

(** A world further on: [evs] more events, [st] more status calls and [pb]
    more publish calls. *)
Definition advance (evs : list Event) (st pb : nat) (w : World) : World :=
  {| trace := trace w ++ evs;
     activeVideos := activeVideos w;
     interceptorInstalled := interceptorInstalled w;
     n8nServer := n8nServer w;
     uuidCalls := uuidCalls w;
     statusCalls := st + statusCalls w;
     publishCalls := pb + publishCalls w |}.

(** The calls of a publish that waited [waited] between its attempts: an
    attempt and a sleep for each delay, and the last attempt. *)
Definition retryTrace (containerId : list ascii) (waited : list Z)
    : list Event :=
  flat_map (fun d => [EvPublishIgContainer containerId; EvSleep d]) waited
    ++ [EvPublishIgContainer containerId].

(** The calls of [n] polls: a sleep of the interval, then the status call. *)
Definition pollTrace (containerId : list ascii) (n : nat) : list Event :=
  concat
    (replicate n [EvSleep pollInterval; EvGetIgContainerStatus containerId]).

(** A publish response that is neither the success nor a client error. *)
Definition isTransient (resp : FullResponse) : bool :=
  negb (isSuccess resp) && negb (isClientError resp).

(** A status that ends the polling, and one that ends it with an error. *)
Definition isFinished (st : IgStatusResponse) : bool :=
  eqbStr (status_code st) (js "FINISHED").

Definition isFailed (st : IgStatusResponse) : bool :=
  eqbStr (status_code st) (js "ERROR") || eqbStr (status_code st) (js "EXPIRED").

Definition isTerminal (st : IgStatusResponse) : bool :=
  isFinished st || isFailed st.

(** A publish response with a status in [[200,300)] and no id in its body. *)
Definition lacksId (resp : FullResponse) : bool :=
  (200 <=? statusCode resp) && (statusCode resp <? 300) && negb (hasId resp).

(** Kinds of events: the calls of the first-destination leg of the video
    flow, the deletions on the second destination, and the registrations and
    closes of the endpoint. *)
Definition isLegEvent (e : Event) : bool :=
  match e with
  | EvSleep _ | EvGetIgContainerStatus _ | EvPublishIgContainer _
  | EvCreateIgReelContainer _ _ => true
  | _ => false
  end.

Definition isDelete (e : Event) : bool :=
  match e with EvDeleteFbVideo _ => true | _ => false end.

Definition isServeEvent (e : Event) : bool :=
  match e with EvRegisterVideo _ | EvCloseVideo _ => true | _ => false end.

Definition isTranscode (e : Event) : bool :=
  match e with EvConvertImage _ | EvConvertVideo _ => true | _ => false end.

(** The deletions the clean-up makes for an upload that settled as [upload]. *)
Definition deletionsFor (upload : Outcome (list ascii)) : list Event :=
  match upload with
  | Resolved fbVideo => [EvDeleteFbVideo fbVideo]
  | Rejected _ => []
  end.

(** The world once [filename] is closed. *)
Definition released (filename : list ascii) (w : World) : World :=
  advance [EvCloseVideo filename] 0 0
    (setActiveVideos (delete filename (activeVideos w)) w).

(** The endpoint after a video run that registered [buffer] as [filename],
    seen from the world [w] before the run and the world [w'] after it: one
    registration and then one close in the run, and [filename] not
    registered any more. *)
Definition servedAndReleased (w w' : World) (filename : list ascii)
    (buffer : list byte) : Prop :=
  List.filter isServeEvent (trace w')
  = List.filter isServeEvent (trace w)
      ++ [EvRegisterVideo filename; EvCloseVideo filename]
  /\ activeVideos w' = delete filename (<[filename := buffer]> (activeVideos w))
  /\ activeVideos w' !! filename = None.

(** The calls of the fall-back of the image flow. *)
Definition isFallbackEvent (e : Event) : bool :=
  match e with
  | EvTryCreateIgImageContainer _ _ | EvDownloadMedia _ | EvConvertImage _
  | EvUploadFbPhotoFromBuffer _ _ _ _ | EvGetFbPhotoImages _
  | EvCreateIgImageContainer _ _ => true
  | _ => false
  end.

(** The calls of one fall-back cycle: download, conversion, upload as an
    unpublished photo, read of the hosted URL, second container creation. *)
Definition fallbackCycle (params : MetaPostParams) (caption : list ascii)
    (convertedBuffer : list byte) (fbPhoto cdnUrl : list ascii) : list Event :=
  [ EvDownloadMedia (mediaUrl params);
    EvConvertImage (imageOptions params);
    EvUploadFbPhotoFromBuffer convertedBuffer
      (js "converted." ++ formatName (imageOutputFormat params))
      (imageMime params) false;
    EvGetFbPhotoImages fbPhoto;
    EvCreateIgImageContainer cdnUrl caption ].

(** ** Scenarios *)

(** Collaborators that succeed everywhere, except as the arguments say: how
    the first image container and its retry, the reel container, the status
    and publish calls, the video upload and its deletion settle. *)
Definition scenario
    (firstContainer : Outcome FullResponse)
    (retryContainer reelContainer : Outcome (list ascii))
    (statuses : nat -> Outcome IgStatusResponse)
    (publishes : nat -> Outcome FullResponse)
    (upload : Outcome (list ascii)) (deletion : Outcome unit) : Env :=
  {| getInstanceBaseUrl := js "https://n8n.example/";
     randomUUID := fun n => js "uuid" ++ toString (Z.of_nat n);
     JSON_stringify := fun _ => js "{}";
     downloadMedia := fun _ => Resolved ["001"%byte; "002"%byte; "003"%byte];
     convertImage := fun b _ => Resolved b;
     convertVideo := fun b _ => Resolved b;
     tryCreateIgImageContainer := fun _ _ => firstContainer;
     createIgImageContainer := fun _ _ => retryContainer;
     createIgReelContainer := fun _ _ => reelContainer;
     getIgContainerStatus := fun n _ => statuses n;
     publishIgContainer := fun n _ => publishes n;
     getIgPermalink := fun _ => Resolved (js "https://instagram.example/p/1");
     uploadFbPhotoFromUrl := fun _ _ => Resolved (js "photo-url");
     uploadFbPhotoFromBuffer := fun _ _ _ _ => Resolved (js "photo-buffer");
     getFbPhotoImages :=
       fun _ => Resolved {| images := [js "https://cdn.example/p.jpg"] |};
     uploadFbVideoFromBuffer := fun _ _ _ _ => upload;
     deleteFbVideo := fun _ => deletion;
     createFbFeedPost := fun _ _ => Resolved (js "feed-post") |}.

Definition response (code : Z) (id : option (list ascii))
    (err : option ApiError) : FullResponse :=
  {| statusCode := code;
     www_authenticate := None;
     body := Some {| body_id := id; body_error := err |} |}.

Definition apiError (msg : list ascii) (c : Z) : ApiError :=
  {| message := Some msg; code := Some c; error_subcode := None;
     error_user_msg := None |}.

Definition published : FullResponse := response 200 (Some (js "ig-post")) None.

Definition unavailable : FullResponse :=
  response 503 None (Some (apiError (js "Service temporarily unavailable") 2)).

Definition badRequest : FullResponse :=
  response 400 None (Some (apiError (js "Invalid parameter") 100)).

Definition acceptedWithoutId : FullResponse := response 200 None None.

Definition statusOf (c : list ascii) : IgStatusResponse :=
  {| status_code := c; status := None |}.

(** A server with the host's handler, nothing registered. *)
Definition hostWorld : World := processStart (Some [0%nat]).

Definition someParams : MetaPostParams :=
  {| mediaUrl := js "https://x/a.mp4";
     instagramAccountId := js "ig-1";
     facebookPageId := js "page-1";
     imageMaxWidth := 1080;
     imageMaxHeight := 1920;
     imageOutputFormat := jpeg;
     videoCodec := js "libx264";
     videoCrf := 23;
     videoPreset := js "medium";
     videoFps := 30;
     audioCodec := js "aac";
     audioBitrate := js "128k";
     audioChannels := 2;
     audioSampleRate := 48000;
     videoMaxWidth := 1080;
     videoMaxHeight := 1920;
     videoMaxBitrate := js "4500k" |}.

(** Collaborators whose publish call answers [rs 0], [rs 1], ... *)
Definition publishEnv (rs : nat -> FullResponse) : Env :=
  scenario (Resolved published) (Resolved (js "container-2"))
    (Resolved (js "reel-1")) (fun _ => Resolved (statusOf (js "FINISHED")))
    (fun n => Resolved (rs n)) (Resolved (js "video-1")) (Resolved tt).

Definition busyFiveTimes (i : nat) : FullResponse :=
  if (i <? 5)%nat then unavailable else published.

(** Collaborators whose status call answers [sts 0], [sts 1], ... *)
Definition statusEnv (sts : nat -> IgStatusResponse) : Env :=
  scenario (Resolved published) (Resolved (js "container-2"))
    (Resolved (js "reel-1")) (fun n => Resolved (sts n))
    (fun _ => Resolved published) (Resolved (js "video-1")) (Resolved tt).

Definition inProgressThen (n : nat) (last : list ascii) (i : nat)
    : IgStatusResponse :=
  if (i <? n)%nat then statusOf (js "IN_PROGRESS") else statusOf last.

(** Collaborators of a video run: how the reel container, the status calls,
    the publish calls, the parallel upload and its deletion settle. *)
Definition videoEnv (reel : Outcome (list ascii))
    (sts : nat -> IgStatusResponse) (rs : nat -> FullResponse)
    (upload : Outcome (list ascii)) (deletion : Outcome unit) : Env :=
  scenario (Resolved published) (Resolved (js "container-2")) reel
    (fun n => Resolved (sts n)) (fun n => Resolved (rs n)) upload deletion.

Definition carouselStatus : IgStatusResponse :=
  {| status_code := js "ERROR";
     status := Some (js "Error 2207089: media treated as Carousel") |}.

(** Collaborators of an image run: how the first container creation and
    the one of the retry settle. *)
Definition imageEnv (firstContainer : Outcome FullResponse)
    (retryContainer : Outcome (list ascii)) : Env :=
  scenario firstContainer retryContainer (Resolved (js "reel-1"))
    (fun _ => Resolved (statusOf (js "FINISHED")))
    (fun _ => Resolved published) (Resolved (js "video-1")) (Resolved tt).

Definition rejectedFormat : FullResponse :=
  response 400 None
    (Some (apiError (js "Only photo or video can be accepted as media type.")
             9004)).

Definition rejectedInHeader : FullResponse :=
  {| statusCode := 400;
     www_authenticate :=
       Some (js "OAuth error: Only photo or video can be accepted as media type.");
     body := None |}.


(** ** Further vocabulary: range headers *)

(** [h] has the form the pattern of [parseRange] accepts: [bytes=], one or
    more digits, a dash, zero or more digits, and nothing else. *)
Definition isRangeForm (h : list ascii) : Prop :=
  exists ds de,
    ds <> [] /\ allDigits ds /\ allDigits de
    /\ h = js "bytes=" ++ ds ++ js "-" ++ de.

(** ** Further vocabulary: traces *)

(** The milliseconds slept in a trace. *)
Fixpoint sleptMs (tr : list Event) : Z :=
  match tr with
  | [] => 0
  | EvSleep ms :: rest => ms + sleptMs rest
  | _ :: rest => sleptMs rest
  end.

Definition isPublishCall (e : Event) : bool :=
  match e with EvPublishIgContainer _ => true | _ => false end.

(** The calls of steps 3 to 6 of the image flow. *)
Definition isPublishImageEvent (e : Event) : bool :=
  match e with
  | EvSleep _ | EvPublishIgContainer _ | EvUploadFbPhotoFromUrl _ _
  | EvCreateFbFeedPost _ _ | EvGetIgPermalink _ => true
  | _ => false
  end.


(** The calls of the image flow: those of steps 1 and 2, and those of steps
    3 to 6. *)
Definition isImageFlowEvent (e : Event) : bool :=
  isFallbackEvent e || isPublishImageEvent e.

(** ** Further vocabulary: strings *)

(** [pat] occurs in [s]. *)
Definition occursIn (pat s : list ascii) : Prop :=
  exists a b, s = a ++ pat ++ b.

(** The code units of [s] that are not newlines, in order. *)
Definition withoutNewlines (s : list ascii) : list ascii :=
  List.filter (fun c => negb (isLF c)) s.

(** ** The transcoder adapter ([utils/ffmpeg.ts]) *)

(** [s.replace(/(\d+)/, (_, n) => f(n))]: the pattern has no [g] flag, so
    the first maximal run of digits of [s] is replaced, and the rest of [s]
    is copied. *)
Fixpoint replaceFirstDigits (f : list ascii -> list ascii) (s : list ascii)
    : list ascii :=
  match s with
  | [] => []
  | c :: t =>
      if isDigit c then
        let '(n, rest) := spanDigits (c :: t) in f n ++ rest
      else c :: replaceFirstDigits f t
  end.

(** The value given to [-bufsize] by [convertVideo]:
    [options.maxBitrate.replace(/(\d+)/, (_, n) => String(parseInt(n) * 2))].
    Exact on digit runs whose value is at most 2^53, where JavaScript's
    numbers and their decimal rendering are exact. *)
Definition bufsize (maxBitrate : list ascii) : list ascii :=
  replaceFirstDigits (fun n => toString (parseInt n * 2)) maxBitrate.

(** What [ensureFfmpeg] reads of the installation during one call:
    [require('ffmpeg-static')], the first [fs.existsSync(expectedPath)], how
    [execSync('node install.js', ...)] ends (the message of what it throws),
    and the second [fs.existsSync(expectedPath)]. *)
Record Installation := {
  ffmpegStatic : option (list ascii);
  existsAtFirst : bool;
  installRun : Outcome unit;
  existsAfterInstall : bool
}.

(** [ensureFfmpeg()], on the module variable [resolvedFfmpegPath]
    ([None] for [null]): its completion and the variable after the call. *)
Definition ensureFfmpeg (host : Installation)
    (resolvedFfmpegPath : option (list ascii))
    : Result (list ascii) * option (list ascii) :=
  if truthy (optStr resolvedFfmpegPath)
  then (Returned (optStr resolvedFfmpegPath), resolvedFfmpegPath)
  else
    let expectedPath := optStr (ffmpegStatic host) in
    if negb (truthy expectedPath)
    then (Thrown (js "ffmpeg-static: unsupported platform/architecture"),
          resolvedFfmpegPath)
    else
      if negb (existsAtFirst host) then
        match installRun host with
        | Rejected err =>
            (Thrown
               (js "ffmpeg binary not found and automatic download failed. "
                  ++ js "Expected path: " ++ expectedPath ++ js ". "
                  ++ js "Error: " ++ err),
             resolvedFfmpegPath)
        | Resolved _ =>
            if negb (existsAfterInstall host)
            then (Thrown
                    (js "ffmpeg binary download completed but file still missing at "
                       ++ expectedPath),
                  resolvedFfmpegPath)
            else (Returned expectedPath, Some expectedPath)
        end
      else (Returned expectedPath, Some expectedPath).

(** A string without digits. *)
Definition noDigits (s : list ascii) : Prop :=
  Forall (fun c => isDigit c = false) s.

(** ** The node ([MetaPost.node.ts]): [readParams], [execute] *)

(** The collections [imageSettings] and [videoSettings] as the host gives
    them: a setting is [None] when it is not set. *)
Record ImageSettings := {
  set_imageMaxWidth : option Z;
  set_imageMaxHeight : option Z;
  set_imageOutputFormat : option ImageFormat
}.

Record VideoSettings := {
  set_videoCodec : option (list ascii);
  set_videoCrf : option Z;
  set_videoPreset : option (list ascii);
  set_videoFps : option Z;
  set_audioCodec : option (list ascii);
  set_audioBitrate : option (list ascii);
  set_audioChannels : option Z;
  set_audioSampleRate : option Z;
  set_videoMaxWidth : option Z;
  set_videoMaxHeight : option Z;
  set_videoMaxBitrate : option (list ascii)
}.

(** What the calls of [getNodeParameter] in [readParams] give for one item. *)
Record NodeParameters := {
  par_mediaType : list ascii;
  par_mediaUrl : list ascii;
  par_caption : list ascii;
  par_hashSuffix : list ascii;
  par_instagramAccountId : list ascii;
  par_facebookPageId : list ascii;
  par_graphApiVersion : list ascii;
  par_imageSettings : ImageSettings;
  par_videoSettings : VideoSettings
}.

(** The value of [readParams]: the fields [execute] reads itself, and those
    the two flows read. *)
Record ItemParams := {
  item_mediaType : list ascii;
  item_caption : list ascii;
  item_hashSuffix : list ascii;
  item_graphApiVersion : list ascii;
  item_flow : MetaPostParams
}.

(** [readParams(ctx, i)], on the parameters of item [i]: a setting that is
    not set takes its default ([??]). *)
Definition readParams (p : NodeParameters) : ItemParams :=
  let imageSettings := par_imageSettings p in
  let videoSettings := par_videoSettings p in
  {| item_mediaType := par_mediaType p;
     item_caption := par_caption p;
     item_hashSuffix := par_hashSuffix p;
     item_graphApiVersion := par_graphApiVersion p;
     item_flow :=
       {| mediaUrl := par_mediaUrl p;
          instagramAccountId := par_instagramAccountId p;
          facebookPageId := par_facebookPageId p;
          imageMaxWidth := default 1080 (set_imageMaxWidth imageSettings);
          imageMaxHeight := default 1920 (set_imageMaxHeight imageSettings);
          imageOutputFormat :=
            default jpeg (set_imageOutputFormat imageSettings);
          videoCodec := default (js "libx264") (set_videoCodec videoSettings);
          videoCrf := default 23 (set_videoCrf videoSettings);
          videoPreset := default (js "medium") (set_videoPreset videoSettings);
          videoFps := default 30 (set_videoFps videoSettings);
          audioCodec := default (js "aac") (set_audioCodec videoSettings);
          audioBitrate := default (js "128k") (set_audioBitrate videoSettings);
          audioChannels := default 2 (set_audioChannels videoSettings);
          audioSampleRate := default 48000 (set_audioSampleRate videoSettings);
          videoMaxWidth := default 1080 (set_videoMaxWidth videoSettings);
          videoMaxHeight := default 1920 (set_videoMaxHeight videoSettings);
          videoMaxBitrate :=
            default (js "4500k") (set_videoMaxBitrate videoSettings) |} |}.

(** What [execute] asks of the host: for item [i], how [getCredentials],
    the parameter reads of [readParams] and [getPageAccessToken] settle, and
    the collaborators of the flows with the tokens of that item;
    [continueOnFail()]; and of an error, which is represented by its
    message, the properties [description] and [cause.body.error.message]
    (empty when absent). *)
Record NodeHost := {
  getCredentials : nat -> Outcome unit;
  getNodeParameters : nat -> Outcome NodeParameters;
  getPageAccessToken : nat -> Outcome unit;
  collaborators : nat -> Env;
  continueOnFail : bool;
  err_description : list ascii -> list ascii;
  err_causeMessage : list ascii -> list ascii
}.

(** The body of the [try] block of [execute] for item [i]. *)
Definition processItem (host : NodeHost) (i : nat) : M MetaPostResult :=
  await (getCredentials host i);;
  parameters ← await (getNodeParameters host i);
  let params := readParams parameters in
  let caption := prepareCaption (item_caption params) (item_hashSuffix params) in
  await (getPageAccessToken host i);;
  if eqbStr (item_mediaType params) (js "image")
  then handleImage (collaborators host i) (item_flow params) caption
  else handleVideo (collaborators host i) (item_flow params) caption.

(** [err.description || err.cause?.body?.error?.message || err.message ||
    'Unknown error']. *)
Definition detail (host : NodeHost) (error : list ascii) : list ascii :=
  orElse (err_description host error)
    (orElse (err_causeMessage host error)
       (orElse error (js "Unknown error"))).

(** An entry of [returnData]: [{ json: result, pairedItem }] or
    [{ json: { error }, pairedItem }]. *)
Inductive OutputItem :=
| ResultItem (json : MetaPostResult) (pairedItem : nat)
| ErrorItem (error : list ascii) (pairedItem : nat).

(** How [execute] ends: it returns [[returnData]], or throws a
    [NodeOperationError] with a message and an item index. *)
Inductive Execution :=
| Output (returnData : list OutputItem)
| NodeOperationError (message : list ascii) (itemIndex : nat)
| Unfinished.

(** The loop [for (let i = 0; i < items.length; i++)] of [execute], with
    [remaining = items.length - i] items to go. *)
Fixpoint executeFrom (host : NodeHost) (i remaining : nat)
    (returnData : list OutputItem) (w : World) : Execution * World :=
  match remaining with
  | O => (Output returnData, w)
  | S remaining' =>
      match processItem host i w with
      | (Returned result, w') =>
          executeFrom host (S i) remaining' (returnData ++ [ResultItem result i])
            w'
      | (Thrown error, w') =>
          if continueOnFail host
          then executeFrom host (S i) remaining'
                 (returnData ++ [ErrorItem (detail host error) i]) w'
          else (NodeOperationError (detail host error) i, w')
      | (OutOfFuel, w') => (Unfinished, w')
      end
  end.

(** [execute()], on [items] input items. *)
Definition execute (host : NodeHost) (items : nat) : World -> Execution * World :=
  executeFrom host 0 items [].

(** The world in which item [i] is processed when the items before it are:
    each item starts in the world the one before it left. *)
Fixpoint worldBefore (host : NodeHost) (w : World) (i : nat) : World :=
  match i with
  | O => w
  | S j => (processItem host j (worldBefore host w j)).2
  end.

(** The entry of [returnData] for item [i] when failures are continued on
    (the flows always end, so the third case does not occur). *)
Definition outputOf (host : NodeHost) (w : World) (i : nat) : OutputItem :=
  match (processItem host i (worldBefore host w i)).1 with
  | Returned result => ResultItem result i
  | Thrown error => ErrorItem (detail host error) i
  | OutOfFuel => ErrorItem [] i
  end.

(** A host for two items: an image, and an item whose parameters cannot be
    read. *)
Definition imageParameters : NodeParameters :=
  {| par_mediaType := js "image";
     par_mediaUrl := js "https://x/a.webp";
     par_caption := js "hi";
     par_hashSuffix := js "#meta";
     par_instagramAccountId := js "ig-1";
     par_facebookPageId := js "page-1";
     par_graphApiVersion := js "v23.0";
     par_imageSettings :=
       {| set_imageMaxWidth := None; set_imageMaxHeight := None;
          set_imageOutputFormat := None |};
     par_videoSettings :=
       {| set_videoCodec := None; set_videoCrf := None;
          set_videoPreset := None; set_videoFps := None;
          set_audioCodec := None; set_audioBitrate := None;
          set_audioChannels := None; set_audioSampleRate := None;
          set_videoMaxWidth := None; set_videoMaxHeight := None;
          set_videoMaxBitrate := None |} |}.

Definition twoItemHost (continue : bool) : NodeHost :=
  {| getCredentials := fun _ => Resolved tt;
     getNodeParameters :=
       fun i => match i with
                | O => Resolved imageParameters
                | S _ => Rejected (js "Could not get parameter")
                end;
     getPageAccessToken := fun _ => Resolved tt;
     collaborators :=
       fun _ => imageEnv (Resolved published) (Resolved (js "container-2"));
     continueOnFail := continue;
     err_description := fun _ => [];
     err_causeMessage := fun _ => [] |}.

(** ** Further vocabulary: the carousel rejection, as the claims word it *)

(** The letters of the word carousel, each in lower and in upper case. *)
Definition carouselLetters : list (ascii * ascii) :=
  [ ("c", "C"); ("a", "A"); ("r", "R"); ("o", "O");
    ("u", "U"); ("s", "S"); ("e", "E"); ("l", "L") ]%char.

(** [word] spells carousel, each letter in either case. *)
Definition spellsCarousel (word : list ascii) : Prop :=
  Forall2 (fun c letter => c = letter.1 \/ c = letter.2) word carouselLetters.

(** [msg] contains the rejection code, or the word carousel in some mix of
    upper and lower case. *)
Definition namesCarouselRejection (msg : list ascii) : Prop :=
  occursIn (js "2207089") msg
  \/ exists word, occursIn word msg /\ spellsCarousel word.

(** Statuses of a container that is rejected as a carousel: one names the
    word only, with a capital, the other the code only. *)
Definition carouselWordStatus : IgStatusResponse :=
  {| status_code := js "ERROR";
     status := Some (js "Media was treated as a Carousel") |}.

Definition carouselCodeStatus : IgStatusResponse :=
  {| status_code := js "ERROR"; status := Some (js "Error 2207089") |}.
(** * Properties *)

(** ** Strings *)

Lemma eqbStr_eq (a b : list ascii) : eqbStr a b = true <-> a = b.
Proof.
  revert b. induction a as [|x a IH]; intros [|y b]; simpl; try easy.
  rewrite andb_true_iff, Ascii.eqb_eq, IH. split.
  - intros [-> ->]. reflexivity.
  - intros H. injection H as -> ->. split; reflexivity.
Qed.

Lemma eqbStr_refl (a : list ascii) : eqbStr a a = true.
Proof. apply eqbStr_eq. reflexivity. Qed.

Lemma startsWith_app (pre s : list ascii) : startsWith (pre ++ s) pre = true.
Proof.
  induction pre as [|p pre IH]; simpl; [reflexivity|].
  rewrite Ascii.eqb_refl. exact IH.
Qed.

Lemma startsWith_app_l (s t pat : list ascii) :
  startsWith s pat = true -> startsWith (s ++ t) pat = true.
Proof.
  revert s. induction pat as [|p pat IH]; intros [|c s]; simpl; try easy.
  rewrite !andb_true_iff. intros [Hc Hs]. split; [exact Hc | apply IH, Hs].
Qed.

Lemma includes_app_l (s t pat : list ascii) :
  includes s pat = true -> includes (s ++ t) pat = true.
Proof.
  induction s as [|c s IH]; simpl.
  - rewrite orb_false_r. destruct pat; [|discriminate].
    intros _. destruct t; reflexivity.
  - rewrite !orb_true_iff. intros [H|H].
    + left. apply (startsWith_app_l (c :: s) t pat H).
    + right. apply IH, H.
Qed.

Lemma includes_app_r (s t pat : list ascii) :
  includes t pat = true -> includes (s ++ t) pat = true.
Proof.
  intros H. induction s as [|c s IH]; simpl; [exact H|].
  rewrite IH. apply orb_true_r.
Qed.

Lemma endsWith_app (q suf : list ascii) : endsWith (q ++ suf) suf = true.
Proof.
  unfold endsWith. rewrite length_app.
  replace (length q + length suf - length suf)%nat with (length q) by lia.
  rewrite drop_app_length, eqbStr_refl, andb_true_r.
  apply Nat.leb_le. lia.
Qed.

Lemma endsWith_inv (s suf : list ascii) :
  endsWith s suf = true -> exists q, s = q ++ suf.
Proof.
  unfold endsWith. rewrite andb_true_iff, eqbStr_eq. intros [_ H].
  exists (take (length s - length suf) s).
  rewrite <- H at 2. symmetry. apply take_drop.
Qed.

Lemma endsWith_nil (s : list ascii) : endsWith s [] = true.
Proof. rewrite <- (app_nil_r s) at 1. apply endsWith_app. Qed.

(** ** Caption formatting *)

Lemma isLF_true (c : ascii) : isLF c = true -> c = LF.
Proof. apply Ascii.eqb_eq. Qed.

Lemma noTriple_tail (c : ascii) (t : list ascii) :
  noTriple (c :: t) = true -> noTriple t = true.
Proof. simpl. rewrite andb_true_iff. tauto. Qed.

Lemma noTriple_app_r (a b : list ascii) :
  noTriple (a ++ b) = true -> noTriple b = true.
Proof.
  induction a as [|c a IH]; [trivial|].
  intros H. apply IH, (noTriple_tail c), H.
Qed.

Lemma noTriple_sound (s : list ascii) :
  noTriple s = true -> ~ hasTripleNewline s.
Proof.
  intros H (a & b & ->). apply noTriple_app_r in H. discriminate H.
Qed.

Lemma noTriple_complete (s : list ascii) :
  ~ hasTripleNewline s -> noTriple s = true.
Proof.
  induction s as [|c t IH]; intros H; [reflexivity|].
  simpl. apply andb_true_iff. split.
  - apply negb_true_iff, not_true_iff_false. intros Hc.
    apply andb_true_iff in Hc as [Hc Ht].
    destruct t as [|c1 [|c2 t']]; try discriminate.
    apply andb_true_iff in Ht as [H1 H2].
    apply isLF_true in Hc, H1, H2. subst.
    apply H. exists [], t'. reflexivity.
  - apply IH. intros (a & b & ->). apply H. exists (c :: a), b. reflexivity.
Qed.

Lemma noTriple_replicate (k : nat) (r : list ascii) :
  noTriple (replicate k LF ++ r) = true -> (k <= 2)%nat.
Proof.
  intros H. destruct k as [|[|[|k]]]; try lia. discriminate H.
Qed.

Lemma emitRun_small (k : nat) : (k <= 2)%nat -> emitRun k = replicate k LF.
Proof. intros H. destruct k as [|[|[|k]]]; try reflexivity. lia. Qed.

Lemma noTriple_after1 (c : ascii) (x : list ascii) :
  isLF c = false -> noTriple (c :: x) = noTriple x.
Proof. intros H. simpl. rewrite H. reflexivity. Qed.

Lemma noTriple_after2 (a c : ascii) (x : list ascii) :
  isLF c = false -> noTriple (a :: c :: x) = noTriple x.
Proof.
  intros H. rewrite <- (noTriple_after1 c x H).
  change (noTriple (a :: c :: x))
    with (negb (isLF a && match x with
                          | [] => false
                          | c2 :: _ => isLF c && isLF c2
                          end) && noTriple (c :: x)).
  destruct x; rewrite ?H, ?andb_false_r; reflexivity.
Qed.

Lemma noTriple_after3 (a b c : ascii) (x : list ascii) :
  isLF c = false -> noTriple (a :: b :: c :: x) = noTriple x.
Proof.
  intros H. rewrite <- (noTriple_after2 b c x H).
  change (noTriple (a :: b :: c :: x))
    with (negb (isLF a && (isLF b && isLF c)) && noTriple (b :: c :: x)).
  rewrite H, !andb_false_r. reflexivity.
Qed.

Lemma emitRun_noTriple (k : nat) (c : ascii) (x : list ascii) :
  isLF c = false -> noTriple x = true ->
  noTriple (emitRun k ++ c :: x) = true.
Proof.
  intros Hc Hx. destruct k as [|[|[|k]]]; cbn [emitRun Nat.leb replicate app].
  - rewrite noTriple_after1; assumption.
  - rewrite noTriple_after2; assumption.
  - rewrite noTriple_after3; assumption.
  - rewrite noTriple_after3; assumption.
Qed.

Lemma replaceNewlineRuns_noTriple (s : list ascii) (run : nat) :
  noTriple (replaceNewlineRuns run s) = true.
Proof.
  revert run. induction s as [|c t IH]; intros run; simpl.
  - destruct run as [|[|[|k]]]; reflexivity.
  - destruct (isLF c) eqn:Hc; [apply IH|].
    apply emitRun_noTriple; [exact Hc | apply IH].
Qed.

(** A string without three newlines in a row is left as it is, also when the
    scan arrives with the newlines of a short run in hand. *)
Lemma replaceNewlineRuns_fixed (s : list ascii) (run : nat) :
  noTriple (replicate run LF ++ s) = true ->
  replaceNewlineRuns run s = replicate run LF ++ s.
Proof.
  revert run. induction s as [|c t IH]; intros run H; simpl.
  - rewrite app_nil_r. apply emitRun_small, (noTriple_replicate run []), H.
  - destruct (isLF c) eqn:Hc.
    + apply isLF_true in Hc. subst c.
      rewrite IH.
      * rewrite (replicate_S_end run), <- app_assoc. reflexivity.
      * rewrite (replicate_S_end run), <- app_assoc. exact H.
    + rewrite (emitRun_small run) by exact (noTriple_replicate run _ H).
      rewrite (IH 0%nat); [reflexivity|].
      apply noTriple_app_r in H. apply (noTriple_tail c), H.
Qed.

Lemma collapseNewlines_fixed (s : list ascii) :
  noTriple s = true -> collapseNewlines s = s.
Proof. intros H. apply (replaceNewlineRuns_fixed s 0), H. Qed.

Lemma collapseNewlines_idempotent (s : list ascii) :
  collapseNewlines (collapseNewlines s) = collapseNewlines s.
Proof. apply collapseNewlines_fixed, replaceNewlineRuns_noTriple. Qed.

Lemma emitRun_ends (run k : nat) :
  (k <= 2)%nat -> exists q, emitRun (run + k) = q ++ replicate k LF.
Proof.
  intros Hk. unfold emitRun. destruct (3 <=? run + k)%nat eqn:E.
  - exists (replicate (2 - k) LF). rewrite <- replicate_add.
    replace (2 - k + k)%nat with 2%nat by lia. reflexivity.
  - exists (replicate run LF). rewrite <- replicate_add. reflexivity.
Qed.

(** Reading [k] newlines adds them to the run in hand. *)
Lemma replaceNewlineRuns_LFs (k run : nat) (s : list ascii) :
  replaceNewlineRuns run (replicate k LF ++ s) = replaceNewlineRuns (run + k) s.
Proof.
  revert run. induction k as [|k IH]; intros run; simpl.
  - rewrite Nat.add_0_r. reflexivity.
  - change (isLF LF) with true. cbv iota. rewrite IH. f_equal. lia.
Qed.

(** A string without three newlines in a row starts with at most two
    newlines, followed by nothing or by another character. *)
Lemma noTriple_split (s : list ascii) :
  noTriple s = true ->
  exists k rest, s = replicate k LF ++ rest /\ (k <= 2)%nat /\
    noTriple rest = true /\
    match rest with [] => True | c :: _ => isLF c = false end.
Proof.
  intros H.
  assert (Hgen : forall n, exists k rest, s = replicate k LF ++ rest /\
            ((k = n /\ (k <= length s)%nat) \/
             match rest with [] => True | c :: _ => isLF c = false end)).
  { induction n as [|n (k & rest & Hs & [[Hk Hl]|Hr])].
    - exists 0%nat, s. split; [reflexivity|]. left. split; lia.
    - destruct rest as [|c rest].
      + exists k, []. split; [exact Hs|]. right. exact I.
      + destruct (isLF c) eqn:Hc.
        * apply isLF_true in Hc. subst c. exists (S k), rest. split.
          -- rewrite Hs, (replicate_S_end k), <- app_assoc. reflexivity.
          -- left. split; [lia|]. rewrite Hs, length_app, length_replicate.
             simpl. lia.
        * exists k, (c :: rest). split; [exact Hs|]. right. exact Hc.
    - exists k, rest. split; [exact Hs|]. right. exact Hr. }
  destruct (Hgen (S (length s))) as (k & rest & Hs & [[Hk Hl]|Hr]); [lia|].
  exists k, rest. split; [exact Hs|]. rewrite Hs in H.
  split; [exact (noTriple_replicate k rest H)|].
  split; [exact (noTriple_app_r _ _ H) | exact Hr].
Qed.

(** After the replace, a string still ends with any ending of it that has no
    three newlines in a row. *)
Lemma replaceNewlineRuns_keeps_ending (p suf : list ascii) (run : nat) :
  noTriple suf = true ->
  exists q, replaceNewlineRuns run (p ++ suf) = q ++ suf.
Proof.
  intros Hsuf. revert run. induction p as [|c p IH]; intros run; simpl.
  - destruct (noTriple_split suf Hsuf) as (k & rest & -> & Hk & Hrest & Hhd).
    rewrite replaceNewlineRuns_LFs.
    destruct (emitRun_ends run k Hk) as [q Hq].
    exists q. rewrite app_assoc, <- Hq.
    destruct rest as [|c rest]; simpl; [rewrite app_nil_r; reflexivity|].
    rewrite Hhd. fold (collapseNewlines rest).
    rewrite (collapseNewlines_fixed rest); [reflexivity|].
    apply (noTriple_tail c), Hrest.
  - destruct (isLF c).
    + apply IH.
    + destruct (IH 0%nat) as [q Hq]. exists (emitRun run ++ c :: q).
      rewrite Hq, <- app_assoc. reflexivity.
Qed.

Lemma replaceNewlineRuns_app (a s : list ascii) (c : ascii) (run : nat) :
  isLF c = false ->
  replaceNewlineRuns run ((a ++ [c]) ++ s)
  = replaceNewlineRuns run (a ++ [c]) ++ replaceNewlineRuns 0 s.
Proof.
  intros Hc. revert run. induction a as [|x a IH]; intros run; simpl.
  - rewrite Hc, <- app_assoc. reflexivity.
  - destruct (isLF x); [apply IH|].
    rewrite IH, <- app_assoc. reflexivity.
Qed.

Lemma replaceNewlineRuns_run (k : nat) (b : list ascii) :
  match b with [] => True | c :: _ => isLF c = false end ->
  replaceNewlineRuns 0 (replicate k LF ++ b)
  = emitRun k ++ replaceNewlineRuns 0 b.
Proof.
  intros Hb. rewrite replaceNewlineRuns_LFs. simpl.
  destruct b as [|c b]; simpl; [rewrite app_nil_r; reflexivity|].
  rewrite Hb. reflexivity.
Qed.

(** The replace, run by run: a maximal run of [k] newlines between two
    stretches of text becomes two newlines when [k] is at least three and
    stays as it is otherwise, and the text on both sides is treated on its
    own. *)
Lemma collapseNewlines_run (a b : list ascii) (k : nat) :
  (a = [] \/ exists a' c, a = a' ++ [c] /\ isLF c = false) ->
  match b with [] => True | c :: _ => isLF c = false end ->
  collapseNewlines (a ++ replicate k LF ++ b)
  = collapseNewlines a
      ++ (if (3 <=? k)%nat then [LF; LF] else replicate k LF)
      ++ collapseNewlines b.
Proof.
  intros [-> | (a' & c & -> & Hc)] Hb; unfold collapseNewlines.
  - simpl. apply replaceNewlineRuns_run, Hb.
  - rewrite (replaceNewlineRuns_app a' _ c 0 Hc).
    rewrite (replaceNewlineRuns_run k b Hb). reflexivity.
Qed.

Lemma prepareCaption_unfold (caption suffix : list ascii) :
  prepareCaption caption suffix
  = collapseNewlines
      (if endsWith caption suffix then caption
       else caption ++ [LF] ++ suffix).
Proof.
  unfold prepareCaption. destruct suffix as [|c suffix].
  - rewrite endsWith_nil. reflexivity.
  - simpl truthy. destruct (endsWith caption (c :: suffix)); reflexivity.
Qed.

Lemma prepareCaption_noTriple (caption suffix : list ascii) :
  noTriple (prepareCaption caption suffix) = true.
Proof. apply replaceNewlineRuns_noTriple. Qed.

Lemma prepareCaption_ends (caption suffix : list ascii) :
  noTriple suffix = true ->
  endsWith (prepareCaption caption suffix) suffix = true.
Proof.
  intros Hs. rewrite prepareCaption_unfold. unfold collapseNewlines.
  destruct (endsWith caption suffix) eqn:E.
  - apply endsWith_inv in E as [p ->].
    destruct (replaceNewlineRuns_keeps_ending p suffix 0 Hs) as [q ->].
    apply endsWith_app.
  - rewrite (app_assoc caption [LF] suffix).
    destruct (replaceNewlineRuns_keeps_ending (caption ++ [LF]) suffix 0 Hs)
      as [q ->].
    apply endsWith_app.
Qed.

(** C7, as amended.  [prepareCaption] appends the suffix after a newline
    unless the caption already ends with it (an empty suffix is never
    appended), then replaces every maximal run of three or more newlines by
    two.  The result never contains three newlines in a row.  It ends with
    the suffix when the suffix itself contains no three newlines in a row. *)
Theorem prepareCaption_formats (caption suffix : list ascii) :
  prepareCaption caption suffix
  = collapseNewlines
      (if endsWith caption suffix then caption
       else caption ++ [LF] ++ suffix)
  /\ (forall (a b : list ascii) (k : nat),
        (a = [] \/ exists a' c, a = a' ++ [c] /\ isLF c = false) ->
        match b with [] => True | c :: _ => isLF c = false end ->
        collapseNewlines (a ++ replicate k LF ++ b)
        = collapseNewlines a
            ++ (if (3 <=? k)%nat then [LF; LF] else replicate k LF)
            ++ collapseNewlines b)
  /\ ~ hasTripleNewline (prepareCaption caption suffix)
  /\ (~ hasTripleNewline suffix ->
      endsWith (prepareCaption caption suffix) suffix = true).
Proof.
  split; [apply prepareCaption_unfold|].
  split; [intros a b k; apply collapseNewlines_run|].
  split; [apply noTriple_sound, prepareCaption_noTriple|].
  intros Hs. apply prepareCaption_ends, noTriple_complete, Hs.
Qed.

Lemma prepareCaption_formats_witness :
  endsWith (prepareCaption (js "hello") (js "#meta")) (js "#meta") = true
  /\ collapseNewlines (js "a" ++ replicate 4 LF ++ js "b")
     = js "a" ++ [LF; LF] ++ js "b".
Proof.
  destruct (prepareCaption_formats (js "hello") (js "#meta"))
    as (_ & Hrun & _ & Hends).
  split.
  - apply Hends, noTriple_sound. reflexivity.
  - apply (Hrun (js "a") (js "b") 4%nat).
    + right. exists [], "a"%char. split; reflexivity.
    + reflexivity.
Defined.

(** C7 as stated fails: a suffix of three newlines and a tag is not empty,
    and the formatted caption does not end with it. *)
Lemma prepareCaption_suffix_not_kept :
  let suffix := [LF; LF; LF] ++ js "#tag" in
  suffix <> []
  /\ prepareCaption (js "hi") suffix = js "hi" ++ [LF; LF] ++ js "#tag"
  /\ endsWith (prepareCaption (js "hi") suffix) suffix = false.
Proof. repeat split. discriminate. Qed.

(** C8, as amended.  Formatting again with the same suffix changes nothing,
    when the suffix contains no three newlines in a row. *)
Theorem prepareCaption_idempotent (caption suffix : list ascii) :
  ~ hasTripleNewline suffix ->
  prepareCaption (prepareCaption caption suffix) suffix
  = prepareCaption caption suffix.
Proof.
  intros Hs. apply noTriple_complete in Hs.
  rewrite (prepareCaption_unfold (prepareCaption caption suffix)).
  rewrite (prepareCaption_ends caption suffix Hs).
  apply collapseNewlines_fixed, prepareCaption_noTriple.
Qed.

Lemma prepareCaption_idempotent_witness :
  prepareCaption (prepareCaption (js "hello") (js "#meta")) (js "#meta")
  = prepareCaption (js "hello") (js "#meta").
Proof.
  apply prepareCaption_idempotent, noTriple_sound. reflexivity.
Defined.

(** C8 as stated fails: with a suffix of three newlines and a tag, the
    second formatting appends the suffix once more. *)
Lemma prepareCaption_not_idempotent :
  let suffix := [LF; LF; LF] ++ js "#tag" in
  prepareCaption (js "hi") suffix = js "hi" ++ [LF; LF] ++ js "#tag"
  /\ prepareCaption (prepareCaption (js "hi") suffix) suffix
     = js "hi" ++ [LF; LF] ++ js "#tag" ++ [LF; LF] ++ js "#tag"
  /\ prepareCaption (prepareCaption (js "hi") suffix) suffix
     <> prepareCaption (js "hi") suffix.
Proof. repeat split. discriminate. Qed.

(** ** Range requests *)

Lemma spanDigits_app (ds rest : list ascii) :
  allDigits ds ->
  match rest with [] => True | c :: _ => isDigit c = false end ->
  spanDigits (ds ++ rest) = (ds, rest).
Proof.
  intros Hds Hrest. induction Hds as [|c ds Hc _ IH]; simpl.
  - destruct rest as [|c rest]; [reflexivity|]. simpl. rewrite Hrest.
    reflexivity.
  - rewrite Hc, IH. reflexivity.
Qed.

Lemma matchRange_form (ds de : list ascii) :
  ds <> [] -> allDigits ds -> allDigits de ->
  matchRange (js "bytes=" ++ ds ++ js "-" ++ de) = Some (ds, de).
Proof.
  intros Hne Hds Hde. unfold matchRange.
  rewrite startsWith_app.
  change (drop 6 (js "bytes=" ++ ds ++ js "-" ++ de))
    with (ds ++ "-"%char :: de).
  rewrite (spanDigits_app ds ("-"%char :: de) Hds) by reflexivity.
  destruct ds as [|d ds]; [contradiction|].
  change (Ascii.eqb "-" "-") with true. cbv iota.
  rewrite <- (app_nil_r de) at 1.
  rewrite (spanDigits_app de [] Hde I). reflexivity.
Qed.

Lemma digitValue_nonneg (c : ascii) : isDigit c = true -> 0 <= digitValue c.
Proof.
  unfold isDigit, digitValue. rewrite andb_true_iff, !Nat.leb_le. lia.
Qed.

Lemma parseInt_nonneg (ds : list ascii) : allDigits ds -> 0 <= parseInt ds.
Proof.
  unfold parseInt. intros H.
  assert (G : forall acc, 0 <= acc ->
            0 <= fold_left (fun acc c => 10 * acc + digitValue c) ds acc).
  { induction H as [|c ds Hc _ IH]; intros acc Hacc; simpl; [exact Hacc|].
    apply IH. pose proof (digitValue_nonneg c Hc). lia. }
  apply G. lia.
Qed.

Lemma subarray_slice (buffer : list byte) (first last : Z) :
  0 <= first -> first <= last -> last < Z.of_nat (length buffer) ->
  isSliceOf buffer first last (subarray buffer first (last + 1)).
Proof.
  intros H0 H1 H2. unfold subarray, clampIndex.
  destruct (first <? 0) eqn:E1; [lia|].
  destruct (last + 1 <? 0) eqn:E2; [lia|].
  rewrite !Z.min_l by lia.
  assert (Hlen : length (take (Z.to_nat (last + 1 - first))
                          (drop (Z.to_nat first) buffer))
                 = Z.to_nat (last + 1 - first)).
  { rewrite length_take, length_drop. lia. }
  split.
  - rewrite Hlen. lia.
  - intros i Hi. rewrite Hlen in Hi.
    rewrite lookup_take_lt by exact Hi. apply lookup_drop.
Qed.

Lemma parseRange_form (ds de : list ascii) (total : Z) :
  ds <> [] -> allDigits ds -> allDigits de ->
  parseRange (js "bytes=" ++ ds ++ js "-" ++ de) total
  = let start := parseInt ds in
    let end_ := if truthy de then parseInt de else total - 1 in
    if (start >? end_) || (start >=? total) then None
    else Some (start, Z.min end_ (total - 1)).
Proof.
  intros Hne Hds Hde. unfold parseRange.
  rewrite (matchRange_form ds de Hne Hds Hde). reflexivity.
Qed.

Lemma serveBuffer_range (buffer : list byte) (ds de : list ascii)
    (req : Request) :
  ds <> [] -> allDigits ds -> allDigits de ->
  method req = js "GET" ->
  range req = Some (js "bytes=" ++ ds ++ js "-" ++ de) ->
  rangeAnswer buffer (parseInt ds)
    (if truthy de then parseInt de else Z.of_nat (length buffer) - 1)
    (serveBuffer req buffer).
Proof.
  intros Hne Hds Hde Hm Hr. unfold serveBuffer, rangeAnswer.
  rewrite Hm, Hr. change (eqbStr (js "GET") (js "HEAD")) with false.
  cbv iota. change (js "bytes=" ++ ds ++ js "-" ++ de)
    with ("b"%char :: (js "ytes=" ++ ds ++ js "-" ++ de)).
  cbv iota beta.
  change ("b"%char :: (js "ytes=" ++ ds ++ js "-" ++ de))
    with (js "bytes=" ++ ds ++ js "-" ++ de).
  rewrite (parseRange_form ds de _ Hne Hds Hde). cbv zeta.
  set (total := Z.of_nat (length buffer)).
  set (start := parseInt ds).
  set (end_ := if truthy de then parseInt de else total - 1).
  destruct ((start >? end_) || (start >=? total)) eqn:E.
  - repeat split.
  - apply orb_false_iff in E as [E1 E2].
    assert (0 <= start) by apply parseInt_nonneg, Hds.
    repeat split.
    + apply (subarray_slice buffer start (Z.min end_ (total - 1))); lia.
    + apply (subarray_slice buffer start (Z.min end_ (total - 1))); lia.
Qed.

Lemma dedicatedHandler_range (buffer : list byte) (ds de : list ascii)
    (req : Request) :
  ds <> [] -> allDigits ds -> allDigits de ->
  method req = js "GET" ->
  range req = Some (js "bytes=" ++ ds ++ js "-" ++ de) ->
  rangeAnswer buffer (parseInt ds)
    (if truthy de then parseInt de else Z.of_nat (length buffer) - 1)
    (dedicatedHandler (url req) buffer req).
Proof.
  intros Hne Hds Hde Hm Hr. unfold dedicatedHandler, rangeAnswer.
  rewrite Hm, Hr, eqbStr_refl.
  change (eqbStr (js "GET") (js "HEAD")) with false.
  change (eqbStr (js "GET") (js "GET")) with true.
  cbn [negb orb andb].
  change (js "bytes=" ++ ds ++ js "-" ++ de)
    with ("b"%char :: (js "ytes=" ++ ds ++ js "-" ++ de)).
  cbv iota beta.
  change ("b"%char :: (js "ytes=" ++ ds ++ js "-" ++ de))
    with (js "bytes=" ++ ds ++ js "-" ++ de).
  rewrite (parseRange_form ds de _ Hne Hds Hde). cbv zeta.
  set (total := Z.of_nat (length buffer)).
  set (start := parseInt ds).
  set (end_ := if truthy de then parseInt de else total - 1).
  destruct ((start >? end_) || (start >=? total)) eqn:E.
  - repeat split.
  - apply orb_false_iff in E as [E1 E2].
    assert (0 <= start) by apply parseInt_nonneg, Hds.
    repeat split.
    + apply (subarray_slice buffer start (Z.min end_ (total - 1))); lia.
    + apply (subarray_slice buffer start (Z.min end_ (total - 1))); lia.
Qed.

Lemma interceptor_serves (activeVideos : gmap (list ascii) (list byte))
    (original : Listener) (filename : list ascii) (buffer : list byte)
    (req : Request) :
  url req = TMP_VIDEO_PREFIX ++ filename ->
  isGetOrHead (method req) = true ->
  activeVideos !! filename = Some buffer ->
  callListener activeVideos (Interceptor original) req
  = Served (serveBuffer req buffer).
Proof.
  intros Hu Hm Hav. cbn [callListener].
  rewrite Hu, startsWith_app, Hm, drop_app_length, Hav. reflexivity.
Qed.

(** C6.  A GET request whose [range] header is [bytes=], the digits of
    [start], a dash and the digits of [end] (none for the last byte), on a
    buffer of [total] bytes, is answered 416 with [Content-Range: bytes
    */total] when [start > end] or [start >= total], and otherwise 206 with
    [Content-Range: bytes start-last/total] for [last = min end (total - 1)],
    [Content-Length: last - start + 1] and exactly the bytes [start .. last]
    of the buffer.  This holds for [serveBuffer], for a request that reaches
    it through the interceptor at the path of a registered buffer, and for
    the handler of the dedicated listener. *)
Theorem range_request_answer (buffer : list byte) (ds de : list ascii)
    (req : Request) :
  ds <> [] -> allDigits ds -> allDigits de ->
  method req = js "GET" ->
  range req = Some (js "bytes=" ++ ds ++ js "-" ++ de) ->
  let start := parseInt ds in
  let end_ :=
    if truthy de then parseInt de else Z.of_nat (length buffer) - 1 in
  rangeAnswer buffer start end_ (serveBuffer req buffer)
  /\ (forall (registered : gmap (list ascii) (list byte))
        (original : Listener) (filename : list ascii),
        url req = TMP_VIDEO_PREFIX ++ filename ->
        registered !! filename = Some buffer ->
        callListener registered (Interceptor original) req
        = Served (serveBuffer req buffer))
  /\ rangeAnswer buffer start end_ (dedicatedHandler (url req) buffer req).
Proof.
  intros Hne Hds Hde Hm Hr. cbv zeta. split; [|split].
  - apply serveBuffer_range; assumption.
  - intros registered original filename Hu Hreg.
    apply (interceptor_serves registered original filename); try assumption.
    rewrite Hm. reflexivity.
  - apply dedicatedHandler_range; assumption.
Qed.

Lemma range_request_answer_witness :
  let buffer := replicate 2000 "000"%byte in
  let req := {| method := js "GET"; url := js "/tmp-video/v.mp4";
                range := Some (js "bytes=1990-") |} in
  rangeAnswer buffer 1990 1999 (serveBuffer req buffer)
  /\ callListener {[ js "v.mp4" := buffer ]} (Interceptor (HostHandler 0)) req
     = Served (serveBuffer req buffer)
  /\ rangeAnswer buffer 1990 1999 (dedicatedHandler (url req) buffer req).
Proof.
  intros buffer req.
  destruct (range_request_answer buffer (js "1990") [] req)
    as (H1 & H2 & H3).
  - discriminate.
  - repeat constructor.
  - constructor.
  - reflexivity.
  - reflexivity.
  - split; [exact H1|]. split; [|exact H3].
    apply (H2 _ (HostHandler 0) (js "v.mp4")); [reflexivity|].
    apply lookup_singleton_eq.
Defined.

Example parseRange_within : parseRange (js "bytes=0-999") 2000 = Some (0, 999).
Proof. reflexivity. Qed.

Example parseRange_open_end :
  parseRange (js "bytes=1990-") 2000 = Some (1990, 1999).
Proof. reflexivity. Qed.

Example parseRange_beyond : parseRange (js "bytes=5000-") 2000 = None.
Proof. reflexivity. Qed.

Example serveBuffer_beyond :
  serveBuffer {| method := js "GET"; url := []; range := Some (js "bytes=5000-") |}
    (replicate 2000 "000"%byte)
  = {| res_status := 416;
       res_headers := [(js "Content-Range", js "bytes */2000")];
       res_body := [] |}.
Proof. reflexivity. Qed.

(** ** The interceptor *)

Lemma startsWith_inv (s pre : list ascii) :
  startsWith s pre = true -> s = pre ++ drop (length pre) s.
Proof.
  revert s. induction pre as [|p pre IH]; intros s H; [reflexivity|].
  destruct s as [|c s]; [discriminate|]. simpl in H.
  apply andb_true_iff in H as [Hc Hs]. apply Ascii.eqb_eq in Hc. subst c.
  simpl. f_equal. apply IH, Hs.
Qed.

(** The wrapper hands every request that is not a GET or HEAD for a
    registered video to the handler it replaced, as it received it. *)
Lemma interceptor_passes (registered : gmap (list ascii) (list byte))
    (original : Listener) (req : Request) :
  isGetOrHead (method req) = false \/ ~ registeredPath registered (url req) ->
  callListener registered (Interceptor original) req
  = callListener registered original req.
Proof.
  intros H. cbn [callListener].
  destruct (startsWith (url req) TMP_VIDEO_PREFIX) eqn:Hp; [|reflexivity].
  destruct (isGetOrHead (method req)) eqn:Hm; [|reflexivity].
  cbn [andb].
  destruct (registered !! drop (length TMP_VIDEO_PREFIX) (url req)) eqn:Hl;
    [|reflexivity].
  destruct H as [H|H]; [discriminate|].
  exfalso. apply H. exists (drop (length TMP_VIDEO_PREFIX) (url req)).
  split; [apply startsWith_inv, Hp | rewrite Hl; eauto].
Qed.

Lemma dedicatedHandler_other (servePath : list ascii) (buffer : list byte)
    (req : Request) :
  isGetOrHead (method req) = false \/ url req <> servePath ->
  dedicatedHandler servePath buffer req = notFound.
Proof.
  intros H. unfold dedicatedHandler.
  destruct (eqbStr (url req) servePath) eqn:Hu; [|reflexivity].
  destruct H as [H|H].
  - unfold isGetOrHead in H. apply orb_false_iff in H as [-> ->]. reflexivity.
  - apply eqbStr_eq in Hu. contradiction.
Qed.

Lemma countEvents_app (kind : Event -> bool) (a b : list Event) :
  countEvents kind (a ++ b) = (countEvents kind a + countEvents kind b)%nat.
Proof. unfold countEvents. rewrite List.filter_app, length_app. reflexivity. Qed.

Lemma processStart_invariant (server : option (list nat)) :
  interceptorInvariant (processStart server).
Proof. split; [exists server|]; reflexivity. Qed.

Lemma startTempVideoServer_invariant (env : Env) (buffer : list byte)
    (baseUrl : list ascii) (w : World) :
  interceptorInvariant w ->
  interceptorInvariant (startTempVideoServer env buffer baseUrl w).2.
Proof.
  unfold interceptorInvariant, startTempVideoServer. intros H.
  destruct (n8nServer w) as [listeners|] eqn:Hs; [|cbn; rewrite Hs; exact H].
  unfold mbind, M_bind, installInterceptor.
  destruct (interceptorInstalled w) eqn:Hf.
  - cbn -[countEvents]. rewrite Hf, Hs. destruct H as [H1 H2]. split; [exact H1|].
    rewrite countEvents_app, H2. reflexivity.
  - destruct listeners as [|originalHandler rest]; cbn -[countEvents].
    + rewrite Hf, Hs. exact H.
    + destruct H as [[hosts Hh] H2]. split.
      * destruct hosts as [[|h hosts]|]; try discriminate.
        injection Hh as -> _. exists h. reflexivity.
      * rewrite !countEvents_app, H2. reflexivity.
Qed.

Lemma runEndpointOp_invariant (env : Env) (op : EndpointOp) (w : World) :
  interceptorInvariant w -> interceptorInvariant (runEndpointOp env w op).
Proof.
  destruct op as [buffer baseUrl|filename]; cbn [runEndpointOp].
  - apply startTempVideoServer_invariant.
  - unfold interceptorInvariant, closeVideo. cbn -[countEvents].
    destruct (interceptorInstalled w); intros [H1 H2]; (split; [exact H1|]);
      rewrite countEvents_app, H2; reflexivity.
Qed.

Lemma runEndpointOps_invariant (env : Env) (ops : list EndpointOp) (w : World) :
  interceptorInvariant w -> interceptorInvariant (runEndpointOps env ops w).
Proof.
  revert w. induction ops as [|op ops IH]; intros w H; [exact H|].
  apply IH, runEndpointOp_invariant, H.
Qed.

(** Once installed, the interceptor and the handler it wraps stay. *)
Lemma runEndpointOp_installed (env : Env) (op : EndpointOp) (w : World)
    (h : nat) :
  interceptorInstalled w = true /\
  n8nServer w = Some [Interceptor (HostHandler h)] ->
  interceptorInstalled (runEndpointOp env w op) = true /\
  n8nServer (runEndpointOp env w op) = Some [Interceptor (HostHandler h)].
Proof.
  intros [Hf Hs]. destruct op as [buffer baseUrl|filename];
    cbn [runEndpointOp].
  - unfold startTempVideoServer. rewrite Hs.
    unfold mbind, M_bind, installInterceptor. rewrite Hf. cbn.
    split; assumption.
  - cbn. split; assumption.
Qed.

Lemma runEndpointOps_installed (env : Env) (ops : list EndpointOp) (w : World)
    (h : nat) :
  interceptorInstalled w = true /\
  n8nServer w = Some [Interceptor (HostHandler h)] ->
  interceptorInstalled (runEndpointOps env ops w) = true /\
  n8nServer (runEndpointOps env ops w) = Some [Interceptor (HostHandler h)].
Proof.
  revert w. induction ops as [|op ops IH]; intros w H; [exact H|].
  apply IH, runEndpointOp_installed, H.
Qed.

Lemma first_start_installs (env : Env) (buffer : list byte)
    (baseUrl : list ascii) (h : nat) (rest : list nat) :
  let w := runEndpointOp env (processStart (Some (h :: rest)))
             (OpStart buffer baseUrl) in
  interceptorInstalled w = true /\
  n8nServer w = Some [Interceptor (HostHandler h)].
Proof. split; reflexivity. Qed.

(** C9, as amended.  Over any sequence of registrations and closes from the
    start of the process, the server carries at most one interceptor, never
    one wrapped in another, and it is installed at most once.  The
    interceptor hands every request that is not a GET or HEAD, or whose path
    is not that of a registered video, to the handler it replaced,
    unchanged; on the server that handler is the first of the request
    listeners the host had before the installation, and it alone receives
    the request, which is all of the earlier request handling when the host
    had one request listener.  The handler of the dedicated listener answers
    such requests 404. *)
Theorem interceptor_non_intrusive (env : Env) :
  (forall (server : option (list nat)) (ops : list EndpointOp),
     let w := runEndpointOps env ops (processStart server) in
     (installedInterceptors (serverListeners w) <= 1)%nat
     /\ (countEvents isInstall (trace w) <= 1)%nat)
  /\ (forall (registered : gmap (list ascii) (list byte))
        (original : Listener) (req : Request),
        isGetOrHead (method req) = false
        \/ ~ registeredPath registered (url req) ->
        callListener registered (Interceptor original) req
        = callListener registered original req)
  /\ (forall (h : nat) (rest : list nat) (buffer : list byte)
        (baseUrl : list ascii) (ops : list EndpointOp) (req : Request),
        let w := runEndpointOps env (OpStart buffer baseUrl :: ops)
                   (processStart (Some (h :: rest))) in
        isGetOrHead (method req) = false
        \/ ~ registeredPath (activeVideos w) (url req) ->
        emitRequest (activeVideos w) (serverListeners w) req
        = [PassedTo h req]
        /\ (rest = [] ->
            emitRequest (activeVideos w) (serverListeners w) req
            = emitRequest ∅ [HostHandler h] req))
  /\ (forall (servePath : list ascii) (buffer : list byte) (req : Request),
        isGetOrHead (method req) = false \/ url req <> servePath ->
        dedicatedHandler servePath buffer req = notFound).
Proof.
  split; [|split; [|split]].
  - intros server ops w.
    pose proof (runEndpointOps_invariant env ops _
                  (processStart_invariant server)) as H.
    fold w in H. unfold interceptorInvariant, serverListeners in *.
    destruct (interceptorInstalled w).
    + destruct H as [[h ->] ->]. cbn. lia.
    + destruct H as [[hosts ->] ->]. split; [|lia].
      destruct hosts as [hosts|]; cbn; [|lia].
      induction hosts as [|x hosts IH]; cbn in *; lia.
  - apply interceptor_passes.
  - intros h rest buffer baseUrl ops req w H.
    destruct (runEndpointOps_installed env ops _ h
                (first_start_installs env buffer baseUrl h rest)) as [_ Hs].
    change (n8nServer w = Some [Interceptor (HostHandler h)]) in Hs.
    unfold serverListeners, emitRequest. rewrite Hs.
    assert (Hpass : map (fun l => callListener (activeVideos w) l req)
                      (default [] (Some [Interceptor (HostHandler h)]))
                    = [PassedTo h req]).
    { change ([callListener (activeVideos w) (Interceptor (HostHandler h)) req]
              = [PassedTo h req]).
      f_equal. exact (interceptor_passes _ (HostHandler h) req H). }
    split; [exact Hpass|]. intros _. rewrite Hpass. reflexivity.
  - apply dedicatedHandler_other.
Qed.

Lemma interceptor_non_intrusive_witness :
  let env := publishEnv (fun _ => published) in
  let post := {| method := js "POST"; url := js "/rest/workflows";
                 range := None |} in
  let get := {| method := js "GET"; url := js "/tmp-video/unknown.mp4";
                range := None |} in
  let w := runEndpointOps env [OpStart ["001"%byte] (js "https://n8n.example")]
             (processStart (Some [0%nat])) in
  callListener ∅ (Interceptor (HostHandler 0)) get = PassedTo 0 get
  /\ emitRequest (activeVideos w) (serverListeners w) post = [PassedTo 0 post]
  /\ dedicatedHandler (js "/abc.mp4") [] post = notFound.
Proof.
  intros env post get w.
  destruct (interceptor_non_intrusive env) as (_ & H2 & H3 & H4).
  split; [|split].
  - apply (H2 ∅ (HostHandler 0) get). right.
    intros (filename & _ & Hs). rewrite lookup_empty in Hs.
    destruct Hs as [x Hx]. discriminate Hx.
  - destruct (H3 0%nat [] ["001"%byte] (js "https://n8n.example") [] post)
      as [Hpass _]; [left; reflexivity | exact Hpass].
  - apply H4. left. reflexivity.
Defined.

(** C9 as stated fails: when the server has two request listeners, both
    handle a request of the host before the installation, and only the first
    does after it; the request no longer reaches the second. *)
Lemma interceptor_removes_other_listeners :
  let env := publishEnv (fun _ => published) in
  let post := {| method := js "POST"; url := js "/rest/workflows";
                 range := None |} in
  let w0 := processStart (Some [0%nat; 1%nat]) in
  let w := runEndpointOps env [OpStart ["001"%byte] (js "https://n8n.example")]
             w0 in
  isGetOrHead (method post) = false
  /\ emitRequest (activeVideos w0) (serverListeners w0) post
     = [PassedTo 0 post; PassedTo 1 post]
  /\ emitRequest (activeVideos w) (serverListeners w) post = [PassedTo 0 post]
  /\ emitRequest (activeVideos w) (serverListeners w) post
     <> emitRequest (activeVideos w0) (serverListeners w0) post.
Proof. repeat split. discriminate. Qed.

(** ** The monad *)

Lemma bind_returned {A B} (m : M A) (k : A -> M B) (w w' : World) (a : A) :
  m w = (Returned a, w') -> (m ≫= k) w = k a w'.
Proof. intros H. unfold mbind, M_bind. rewrite H. reflexivity. Qed.

Lemma bind_thrown {A B} (m : M A) (k : A -> M B) (w w' : World)
    (e : list ascii) :
  m w = (Thrown e, w') -> (m ≫= k) w = (Thrown e, w').
Proof. intros H. unfold mbind, M_bind. rewrite H. reflexivity. Qed.

Lemma advance_advance (e1 e2 : list Event) (s1 s2 p1 p2 : nat) (w : World) :
  advance e2 s2 p2 (advance e1 s1 p1 w)
  = advance (e1 ++ e2) (s2 + s1) (p2 + p1) w.
Proof.
  unfold advance. cbn. f_equal; [apply eq_sym, app_assoc | lia | lia].
Qed.

Lemma advance_nil (w : World) : advance [] 0 0 w = w.
Proof. destruct w. unfold advance. cbn. rewrite app_nil_r. reflexivity. Qed.

Lemma sleep_run (ms : Z) (w : World) :
  sleep ms w = (Returned tt, advance [EvSleep ms] 0 0 w).
Proof. reflexivity. Qed.

Lemma publishIgContainerCall_run (env : Env) (cid : list ascii) (w : World) :
  publishIgContainerCall env cid w
  = (match publishIgContainer env (publishCalls w) cid with
     | Resolved r => Returned r
     | Rejected e => Thrown e
     end, advance [EvPublishIgContainer cid] 0 1 w).
Proof.
  unfold publishIgContainerCall, mbind, M_bind, log, await. cbn.
  destruct (publishIgContainer env (publishCalls w) cid); reflexivity.
Qed.

(** ** Publishing with retries *)

(** One pass of the loop on a transient response: the call, the sleep of
    this attempt's delay, and the next pass. *)
Lemma publishAttempts_transient (env : Env) (cid : list ascii)
    (fuel attempt : nat) (w : World) (r : FullResponse) (d : Z) :
  publishIgContainer env (publishCalls w) cid = Resolved r ->
  isTransient r = true ->
  delays !! attempt = Some d ->
  publishAttempts env cid (S fuel) attempt w
  = publishAttempts env cid fuel (S attempt)
      (advance [EvPublishIgContainer cid; EvSleep d] 0 1 w).
Proof.
  intros Hr Ht Hd. apply andb_true_iff in Ht as [Hs Hc].
  apply negb_true_iff in Hs, Hc.
  cbn [publishAttempts].
  erewrite bind_returned
    by (rewrite publishIgContainerCall_run, Hr; reflexivity).
  rewrite Hs, Hc.
  assert (Hlt : (attempt < length delays)%nat)
    by (apply lookup_lt_is_Some; eauto).
  destruct (length delays <=? attempt)%nat eqn:E;
    [apply Nat.leb_le in E; lia|].
  erewrite bind_returned by apply sleep_run.
  rewrite advance_advance.
  rewrite (nth_lookup_Some _ _ 0 _ Hd). reflexivity.
Qed.

Lemma publishAttempts_transients (env : Env) (cid : list ascii)
    (rs : nat -> FullResponse) (n : nat) :
  forall (fuel attempt : nat) (w : World),
  (forall i, (i < n)%nat ->
     publishIgContainer env (publishCalls w + i) cid = Resolved (rs i)
     /\ isTransient (rs i) = true) ->
  (attempt + n <= length delays)%nat ->
  publishAttempts env cid (n + fuel) attempt w
  = publishAttempts env cid fuel (attempt + n)
      (advance
         (flat_map (fun d => [EvPublishIgContainer cid; EvSleep d])
            (take n (drop attempt delays)))
         0 n w).
Proof.
  revert rs. induction n as [|n IH]; intros rs fuel attempt w Hrs Hn.
  - cbn [take flat_map Nat.add]. rewrite advance_nil, Nat.add_0_r.
    reflexivity.
  - destruct (Hrs 0%nat ltac:(lia)) as [Hr Ht]. rewrite Nat.add_0_r in Hr.
    destruct (lookup_lt_is_Some_2 delays attempt ltac:(lia)) as [d Hd].
    cbn [Nat.add].
    rewrite (publishAttempts_transient env cid _ attempt w (rs 0%nat) d Hr Ht Hd).
    rewrite (IH (fun i => rs (S i))).
    + rewrite advance_advance.
      rewrite (drop_S _ _ _ Hd). cbn [take flat_map].
      replace (S attempt + n)%nat with (attempt + S n)%nat by lia.
      replace (n + 1)%nat with (S n) by lia. reflexivity.
    + intros i Hi. destruct (Hrs (S i) ltac:(lia)) as [Hr' Ht'].
      split; [|exact Ht'].
      cbn [advance publishCalls].
      replace (1 + publishCalls w + i)%nat with (publishCalls w + S i)%nat
        by lia.
      exact Hr'.
    + lia.
Qed.

Lemma publishAttempts_success (env : Env) (cid : list ascii)
    (fuel attempt : nat) (w : World) (r : FullResponse) :
  publishIgContainer env (publishCalls w) cid = Resolved r ->
  isSuccess r = true ->
  publishAttempts env cid (S fuel) attempt w
  = (Returned (respId r), advance [EvPublishIgContainer cid] 0 1 w).
Proof.
  intros Hr Hs. cbn [publishAttempts].
  erewrite bind_returned
    by (rewrite publishIgContainerCall_run, Hr; reflexivity).
  rewrite Hs. reflexivity.
Qed.

Lemma success_not_client_error (r : FullResponse) :
  isSuccess r = true -> isClientError r = false.
Proof.
  unfold isSuccess, isClientError. rewrite !andb_true_iff, andb_false_iff.
  lia.
Qed.

Lemma publishAttempts_client_error (env : Env) (cid : list ascii)
    (fuel attempt : nat) (w : World) (r : FullResponse) :
  publishIgContainer env (publishCalls w) cid = Resolved r ->
  isClientError r = true ->
  publishAttempts env cid (S fuel) attempt w
  = (Thrown (formatIgApiError env r),
     advance [EvPublishIgContainer cid] 0 1 w).
Proof.
  intros Hr Hc. cbn [publishAttempts].
  erewrite bind_returned
    by (rewrite publishIgContainerCall_run, Hr; reflexivity).
  destruct (isSuccess r) eqn:Hs.
  - apply success_not_client_error in Hs. congruence.
  - rewrite Hc. reflexivity.
Qed.

Lemma publishAttempts_exhausted (env : Env) (cid : list ascii)
    (fuel attempt : nat) (w : World) (r : FullResponse) :
  publishIgContainer env (publishCalls w) cid = Resolved r ->
  isTransient r = true ->
  (length delays <= attempt)%nat ->
  publishAttempts env cid (S fuel) attempt w
  = (Thrown (formatIgApiError env r),
     advance [EvPublishIgContainer cid] 0 1 w).
Proof.
  intros Hr Ht Ha. apply andb_true_iff in Ht as [Hs Hc].
  apply negb_true_iff in Hs, Hc. cbn [publishAttempts].
  erewrite bind_returned
    by (rewrite publishIgContainerCall_run, Hr; reflexivity).
  rewrite Hs, Hc. apply Nat.leb_le in Ha. rewrite Ha. reflexivity.
Qed.

(** After [n] transient responses the loop is at attempt [n], having waited
    the first [n] delays. *)
Lemma publish_after_transients (env : Env) (cid : list ascii) (w : World)
    (rs : nat -> FullResponse) (n : nat) :
  (forall i, publishIgContainer env (publishCalls w + i) cid = Resolved (rs i)) ->
  (n <= length delays)%nat ->
  (forall i, (i < n)%nat -> isTransient (rs i) = true) ->
  publishIgContainerWithRetry env cid w
  = publishAttempts env cid (S (length delays - n)) n
      (advance
         (flat_map (fun d => [EvPublishIgContainer cid; EvSleep d])
            (take n delays))
         0 n w).
Proof.
  intros Hrs Hn Ht. unfold publishIgContainerWithRetry.
  replace (S (length delays)) with (n + S (length delays - n))%nat by lia.
  rewrite (publishAttempts_transients env cid rs n _ 0%nat w).
  - reflexivity.
  - intros i Hi. split; [apply Hrs | apply Ht, Hi].
  - lia.
Qed.

Lemma publish_ends (env : Env) (cid : list ascii) (w : World)
    (rs : nat -> FullResponse) (n : nat) :
  (forall i, publishIgContainer env (publishCalls w + i) cid = Resolved (rs i)) ->
  (n <= length delays)%nat ->
  (forall i, (i < n)%nat -> isTransient (rs i) = true) ->
  let w' := advance (retryTrace cid (take n delays)) 0 (S n) w in
  (isSuccess (rs n) = true ->
   publishIgContainerWithRetry env cid w = (Returned (respId (rs n)), w'))
  /\ (isClientError (rs n) = true ->
      publishIgContainerWithRetry env cid w
      = (Thrown (formatIgApiError env (rs n)), w'))
  /\ (n = length delays -> isTransient (rs n) = true ->
      publishIgContainerWithRetry env cid w
      = (Thrown (formatIgApiError env (rs n)), w')).
Proof.
  intros Hrs Hn Ht w'.
  pose proof (publish_after_transients env cid w rs n Hrs Hn Ht) as Hrun.
  assert (Hnext : publishIgContainer env
            (publishCalls
               (advance
                  (flat_map (fun d => [EvPublishIgContainer cid; EvSleep d])
                     (take n delays)) 0 n w)) cid = Resolved (rs n)).
  { cbn [advance publishCalls]. rewrite Nat.add_comm. apply Hrs. }
  assert (Hw : advance [EvPublishIgContainer cid] 0 1
                 (advance
                    (flat_map (fun d => [EvPublishIgContainer cid; EvSleep d])
                       (take n delays)) 0 n w) = w').
  { rewrite advance_advance. reflexivity. }
  split; [|split].
  - intros Hs. rewrite Hrun, <- Hw.
    apply publishAttempts_success; assumption.
  - intros Hc. rewrite Hrun, <- Hw.
    apply publishAttempts_client_error; assumption.
  - intros -> Hl. rewrite Hrun, <- Hw.
    apply publishAttempts_exhausted; [assumption | assumption | lia].
Qed.

(** C2.  Whatever the publish call answers: after [n] responses that are
    neither the success nor a client error, a response with a status in
    [[200,300)] and an id makes the operation return that id, and a response
    with a status in [[400,500)] makes it throw the detail of that response,
    both at once, with no further call or sleep; before each further attempt
    the operation has slept the next of the delays 1000, 2000, 3000, 4000,
    5000; and when the sixth response is of the retried kind too the
    operation throws its detail, after six calls and the five delays. *)
Theorem publish_retry_policy (env : Env) (cid : list ascii) (w : World)
    (rs : nat -> FullResponse) (n : nat) :
  (forall i, publishIgContainer env (publishCalls w + i) cid = Resolved (rs i)) ->
  (n <= 5)%nat ->
  (forall i, (i < n)%nat -> isTransient (rs i) = true) ->
  delays = [1000; 2000; 3000; 4000; 5000]
  /\ let w' := advance (retryTrace cid (take n delays)) 0 (S n) w in
     (isSuccess (rs n) = true ->
      publishIgContainerWithRetry env cid w = (Returned (respId (rs n)), w'))
     /\ (isClientError (rs n) = true ->
         publishIgContainerWithRetry env cid w
         = (Thrown (formatIgApiError env (rs n)), w'))
     /\ (n = 5%nat -> isTransient (rs n) = true ->
         publishIgContainerWithRetry env cid w
         = (Thrown (formatIgApiError env (rs n)), w')).
Proof.
  intros Hrs Hn Ht. split; [reflexivity|].
  exact (publish_ends env cid w rs n Hrs Hn Ht).
Qed.

Lemma publish_retry_policy_witness :
  publishIgContainerWithRetry (publishEnv busyFiveTimes) (js "c1") hostWorld
  = (Returned (js "ig-post"),
     advance
       [EvPublishIgContainer (js "c1"); EvSleep 1000;
        EvPublishIgContainer (js "c1"); EvSleep 2000;
        EvPublishIgContainer (js "c1"); EvSleep 3000;
        EvPublishIgContainer (js "c1"); EvSleep 4000;
        EvPublishIgContainer (js "c1"); EvSleep 5000;
        EvPublishIgContainer (js "c1")] 0 6 hostWorld)
  /\ publishIgContainerWithRetry (publishEnv (fun _ => badRequest)) (js "c1")
       hostWorld
     = (Thrown (js "Instagram publish failed (HTTP 400, code 100): Invalid parameter"),
        advance [EvPublishIgContainer (js "c1")] 0 1 hostWorld).
Proof.
  split.
  - destruct (publish_retry_policy (publishEnv busyFiveTimes) (js "c1")
                hostWorld busyFiveTimes 5) as (_ & H & _ & _).
    + intros i. reflexivity.
    + lia.
    + intros i Hi. destruct i as [|[|[|[|[|i]]]]]; try reflexivity. lia.
    + apply H. reflexivity.
  - destruct (publish_retry_policy (publishEnv (fun _ => badRequest))
                (js "c1") hostWorld (fun _ => badRequest) 0) as (_ & _ & H & _).
    + intros i. reflexivity.
    + lia.
    + intros i Hi. lia.
    + apply H. reflexivity.
Defined.

Lemma lacksId_transient (r : FullResponse) :
  lacksId r = true -> isTransient r = true.
Proof.
  unfold lacksId, isTransient, isSuccess, isClientError.
  rewrite !andb_true_iff, !negb_true_iff, !andb_false_iff.
  intros [[H1 H2] H3]. split; [right; exact H3 | lia].
Qed.

(** C10.  A publish response with a status in [[200,300)] and no id is
    neither the success nor a client error: the operation sleeps the next
    delay and calls again, so that a later success is returned; when all six
    responses are of this kind it throws the detail of the last one. *)
Theorem publish_without_id_retried (env : Env) (cid : list ascii) (w : World)
    (rs : nat -> FullResponse) (n : nat) :
  (forall i, publishIgContainer env (publishCalls w + i) cid = Resolved (rs i)) ->
  (n <= 5)%nat ->
  (forall i, (i < n)%nat -> lacksId (rs i) = true) ->
  (forall i, (i < n)%nat ->
     isSuccess (rs i) = false /\ isClientError (rs i) = false)
  /\ let w' := advance (retryTrace cid (take n delays)) 0 (S n) w in
     (isSuccess (rs n) = true ->
      publishIgContainerWithRetry env cid w = (Returned (respId (rs n)), w'))
     /\ (n = 5%nat -> lacksId (rs n) = true ->
         publishIgContainerWithRetry env cid w
         = (Thrown (formatIgApiError env (rs n)), w')).
Proof.
  intros Hrs Hn Hl.
  assert (Ht : forall i, (i < n)%nat -> isTransient (rs i) = true)
    by (intros i Hi; apply lacksId_transient, Hl, Hi).
  split.
  - intros i Hi. specialize (Ht i Hi). unfold isTransient in Ht.
    apply andb_true_iff in Ht as [H1 H2].
    apply negb_true_iff in H1, H2. split; assumption.
  - destruct (publish_ends env cid w rs n Hrs Hn Ht) as (Hs & _ & He).
    split; [exact Hs|].
    intros -> Hlast. apply He; [reflexivity | apply lacksId_transient, Hlast].
Qed.

Lemma publish_without_id_retried_witness :
  publishIgContainerWithRetry (publishEnv (fun _ => acceptedWithoutId))
    (js "c1") hostWorld
  = (Thrown (js "HTTP 200: {}"),
     advance (retryTrace (js "c1") [1000; 2000; 3000; 4000; 5000]) 0 6
       hostWorld)
  /\ publishIgContainerWithRetry
       (publishEnv (fun i => if (i <? 1)%nat then acceptedWithoutId
                             else published))
       (js "c1") hostWorld
     = (Returned (js "ig-post"),
        advance [EvPublishIgContainer (js "c1"); EvSleep 1000;
                 EvPublishIgContainer (js "c1")] 0 2 hostWorld).
Proof.
  split.
  - destruct (publish_without_id_retried
                (publishEnv (fun _ => acceptedWithoutId)) (js "c1") hostWorld
                (fun _ => acceptedWithoutId) 5) as (_ & _ & H).
    + intros i. reflexivity.
    + lia.
    + intros i Hi. reflexivity.
    + apply H; reflexivity.
  - destruct (publish_without_id_retried
                (publishEnv (fun i => if (i <? 1)%nat then acceptedWithoutId
                                      else published)) (js "c1") hostWorld
                (fun i => if (i <? 1)%nat then acceptedWithoutId
                          else published) 1) as (_ & H & _).
    + intros i. reflexivity.
    + lia.
    + intros i Hi. destruct i; [reflexivity | lia].
    + apply H. reflexivity.
Defined.

(** ** Polling *)

Lemma getIgContainerStatusCall_run (env : Env) (cid : list ascii) (w : World) :
  getIgContainerStatusCall env cid w
  = (match getIgContainerStatus env (statusCalls w) cid with
     | Resolved r => Returned r
     | Rejected e => Thrown e
     end, advance [EvGetIgContainerStatus cid] 1 0 w).
Proof.
  unfold getIgContainerStatusCall, mbind, M_bind, log, await. cbn.
  destruct (getIgContainerStatus env (statusCalls w) cid); reflexivity.
Qed.

Lemma pollTrace_S (cid : list ascii) (n : nat) :
  pollTrace cid (S n)
  = [EvSleep pollInterval; EvGetIgContainerStatus cid] ++ pollTrace cid n.
Proof. reflexivity. Qed.

Lemma pollTrace_end (cid : list ascii) (n : nat) :
  pollTrace cid n ++ [EvSleep pollInterval; EvGetIgContainerStatus cid]
  = pollTrace cid (S n).
Proof.
  induction n as [|n IH]; [reflexivity|].
  rewrite (pollTrace_S cid n), <- app_assoc, IH. reflexivity.
Qed.

(** One pass that reads the status [st]. *)
Lemma pollPasses_pass (env : Env) (cid : list ascii) (remaining : nat)
    (w : World) (st : IgStatusResponse) :
  getIgContainerStatus env (statusCalls w) cid = Resolved st ->
  pollPasses env cid (S remaining) w
  = let w' := advance (pollTrace cid 1) 1 0 w in
    if isFinished st then (Returned tt, w')
    else if isFailed st then (Thrown (processingFailed st), w')
    else pollPasses env cid remaining w'.
Proof.
  intros Hst. cbn [pollPasses].
  erewrite bind_returned by apply sleep_run.
  erewrite bind_returned
    by (rewrite getIgContainerStatusCall_run; cbn [advance statusCalls Nat.add];
        rewrite Hst; reflexivity).
  rewrite advance_advance. unfold isFinished, isFailed. cbv zeta.
  destruct (eqbStr (status_code st) (js "FINISHED")); [reflexivity|].
  destruct (eqbStr (status_code st) (js "ERROR")
            || eqbStr (status_code st) (js "EXPIRED")); reflexivity.
Qed.

Lemma pollPasses_waiting (env : Env) (cid : list ascii)
    (sts : nat -> IgStatusResponse) (n : nat) :
  forall (remaining : nat) (w : World),
  (forall i, (i < n)%nat ->
     getIgContainerStatus env (statusCalls w + i) cid = Resolved (sts i)
     /\ isTerminal (sts i) = false) ->
  pollPasses env cid (n + remaining) w
  = pollPasses env cid remaining (advance (pollTrace cid n) n 0 w).
Proof.
  revert sts. induction n as [|n IH]; intros sts remaining w Hs.
  - cbn [Nat.add]. rewrite advance_nil. reflexivity.
  - destruct (Hs 0%nat ltac:(lia)) as [H0 Ht]. rewrite Nat.add_0_r in H0.
    apply orb_false_iff in Ht as [Hf Hx].
    cbn [Nat.add]. rewrite (pollPasses_pass env cid _ w (sts 0%nat) H0).
    cbv zeta. rewrite Hf, Hx.
    rewrite (IH (fun i => sts (S i))).
    + rewrite advance_advance.
      replace (n + 1)%nat with (S n) by lia. reflexivity.
    + intros i Hi. destruct (Hs (S i) ltac:(lia)) as [Hi' Ht']. split;
        [|exact Ht'].
      cbn [advance statusCalls].
      replace (1 + statusCalls w + i)%nat with (statusCalls w + S i)%nat
        by lia.
      exact Hi'.
Qed.

Lemma processingFailed_not_timeout (st : IgStatusResponse) :
  processingFailed st <> pollingTimedOut.
Proof.
  intros H. apply (f_equal (fun s => s !! 26%nat)) in H. discriminate H.
Qed.

(** However the status calls settle, the polls are a sleep of the interval
    and a status call each, at most [remaining] of them, and the loop ends. *)
Lemma pollPasses_bounded (env : Env) (cid : list ascii) (remaining : nat) :
  forall w : World,
  exists n, (n <= remaining)%nat
    /\ (pollPasses env cid remaining w).2 = advance (pollTrace cid n) n 0 w
    /\ (pollPasses env cid remaining w).1 <> OutOfFuel.
Proof.
  induction remaining as [|remaining IH]; intros w.
  - exists 0%nat. cbn. rewrite advance_nil. repeat split; [lia | discriminate].
  - destruct (getIgContainerStatus env (statusCalls w) cid) as [st|e] eqn:Hst.
    + rewrite (pollPasses_pass env cid remaining w st Hst). cbv zeta.
      destruct (isFinished st);
        [exists 1%nat; repeat split; [lia | discriminate]|].
      destruct (isFailed st);
        [exists 1%nat; repeat split; [lia | discriminate]|].
      destruct (IH (advance (pollTrace cid 1) 1 0 w)) as (n & Hn & Hw & Hr).
      exists (S n). split; [lia|]. split; [|exact Hr].
      rewrite Hw, advance_advance. replace (n + 1)%nat with (S n) by lia.
      reflexivity.
    + exists 1%nat. cbn [pollPasses].
      erewrite bind_returned by apply sleep_run.
      erewrite bind_thrown
        by (rewrite getIgContainerStatusCall_run;
            cbn [advance statusCalls Nat.add]; rewrite Hst; reflexivity).
      rewrite advance_advance. repeat split; [lia | discriminate].
Qed.

(** C4.  The loop sleeps 10000 ms before each status call and makes at most
    30 of them, however they settle.  When the statuses read are not
    terminal up to one that is FINISHED the loop returns at that poll; up to
    one that is ERROR or EXPIRED it throws at that poll the error that
    gives the status text, or the status code when there is no text, and the
    guidance on what Instagram Reels require of the video; when none of 30
    is terminal it throws the time-out error, which is a different error.
    Both messages are written out. *)
Theorem poll_policy (env : Env) (cid : list ascii) (w : World) :
  let guidance := fun st : IgStatusResponse =>
    js "Instagram Reel processing failed: "
      ++ match status st with
         | Some (c :: text) => c :: text
         | _ => status_code st
         end
      ++ js ". Ensure the video URL is publicly accessible and the video "
      ++ js "meets Instagram Reels requirements (MP4 H.264, max 5 Mbps "
      ++ js "bitrate, max 90s, 9:16 aspect ratio recommended)." in
  let timeout :=
    js "Instagram Reel processing timed out after 5 minutes of polling" in
  maxPolls = 30%nat /\ pollInterval = 10000
  /\ (exists n, (n <= 30)%nat
        /\ (pollIgContainer env cid w).2 = advance (pollTrace cid n) n 0 w
        /\ (pollIgContainer env cid w).1 <> OutOfFuel)
  /\ (forall (sts : nat -> IgStatusResponse) (n : nat),
        (forall i, getIgContainerStatus env (statusCalls w + i) cid
                   = Resolved (sts i)) ->
        (forall i, (i < n)%nat -> isTerminal (sts i) = false) ->
        let w' := advance (pollTrace cid (S n)) (S n) 0 w in
        ((n < 30)%nat -> isFinished (sts n) = true ->
         pollIgContainer env cid w = (Returned tt, w'))
        /\ ((n < 30)%nat -> isFailed (sts n) = true ->
            pollIgContainer env cid w = (Thrown (guidance (sts n)), w'))
        /\ (n = 30%nat ->
            pollIgContainer env cid w
            = (Thrown timeout, advance (pollTrace cid 30) 30 0 w)))
  /\ (forall st, guidance st <> timeout)
  /\ (forall st, occursIn (js "Instagram Reels requirements") (guidance st)).
Proof.
  intros guidance timeout.
  assert (Hg : forall st, processingFailed st = guidance st).
  { intros st. unfold processingFailed, guidance, reelRequirements, orElse,
      optStr. destruct (status st) as [[|c text]|]; reflexivity. }
  assert (Ht : pollingTimedOut = timeout) by reflexivity.
  split; [reflexivity|]. split; [reflexivity|].
  split; [apply (pollPasses_bounded env cid maxPolls w)|].
  split; [|split].
  2: { intros st. rewrite <- Hg, <- Ht. apply processingFailed_not_timeout. }
  2: { intros st. unfold guidance.
       exists (js "Instagram Reel processing failed: "
                 ++ match status st with
                    | Some (c :: text) => c :: text
                    | _ => status_code st
                    end
                 ++ js ". Ensure the video URL is publicly accessible and "
                 ++ js "the video meets "),
         (js " (MP4 H.264, max 5 Mbps bitrate, max 90s, 9:16 aspect ratio "
            ++ js "recommended).").
       rewrite <- !app_assoc. reflexivity. }
  intros sts n Hs Hnt w'. rewrite <- Hg, <- Ht.
  assert (Hwait : forall remaining,
            pollPasses env cid (n + remaining) w
            = pollPasses env cid remaining (advance (pollTrace cid n) n 0 w)).
  { intros remaining. apply (pollPasses_waiting env cid sts n).
    intros i Hi. split; [apply Hs | apply Hnt, Hi]. }
  assert (Hnext : getIgContainerStatus env
            (statusCalls (advance (pollTrace cid n) n 0 w)) cid
            = Resolved (sts n)).
  { cbn [advance statusCalls]. rewrite Nat.add_comm. apply Hs. }
  assert (Hw : advance (pollTrace cid 1) 1 0
                 (advance (pollTrace cid n) n 0 w) = w').
  { rewrite advance_advance. unfold w'.
    change (pollTrace cid 1)
      with [EvSleep pollInterval; EvGetIgContainerStatus cid].
    rewrite pollTrace_end. reflexivity. }
  split; [|split].
  - intros Hn Hf. unfold pollIgContainer.
    replace maxPolls with (n + S (29 - n))%nat by (unfold maxPolls; lia).
    rewrite Hwait, (pollPasses_pass _ _ _ _ _ Hnext). cbv zeta.
    rewrite Hf, Hw. reflexivity.
  - intros Hn Hf. unfold pollIgContainer.
    replace maxPolls with (n + S (29 - n))%nat by (unfold maxPolls; lia).
    rewrite Hwait, (pollPasses_pass _ _ _ _ _ Hnext). cbv zeta.
    rewrite Hf, Hw.
    destruct (isFinished (sts n)) eqn:Hfin; [|reflexivity].
    unfold isFinished, isFailed in *. apply eqbStr_eq in Hfin.
    rewrite Hfin in Hf. discriminate Hf.
  - intros ->. unfold pollIgContainer.
    change maxPolls with (30 + 0)%nat. rewrite Hwait. reflexivity.
Qed.

Lemma poll_policy_witness :
  pollIgContainer (statusEnv (inProgressThen 2 (js "FINISHED"))) (js "c1")
    hostWorld
  = (Returned tt, advance (pollTrace (js "c1") 3) 3 0 hostWorld)
  /\ pollIgContainer (statusEnv (inProgressThen 1 (js "ERROR"))) (js "c1")
       hostWorld
     = (Thrown
          (js "Instagram Reel processing failed: ERROR. Ensure the video "
             ++ js "URL is publicly accessible and the video meets "
             ++ js "Instagram Reels requirements (MP4 H.264, max 5 Mbps "
             ++ js "bitrate, max 90s, 9:16 aspect ratio recommended)."),
        advance (pollTrace (js "c1") 2) 2 0 hostWorld)
  /\ pollIgContainer (statusEnv (inProgressThen 30 (js "FINISHED"))) (js "c1")
       hostWorld
     = (Thrown
          (js "Instagram Reel processing timed out after 5 minutes of polling"),
        advance (pollTrace (js "c1") 30) 30 0 hostWorld).
Proof.
  split; [|split].
  - destruct (poll_policy (statusEnv (inProgressThen 2 (js "FINISHED")))
                (js "c1") hostWorld) as (_ & _ & _ & H & _).
    destruct (H (inProgressThen 2 (js "FINISHED")) 2%nat) as (Hf & _ & _).
    + intros i. reflexivity.
    + intros i Hi. destruct i as [|[|i]]; try reflexivity. lia.
    + apply Hf; [lia | reflexivity].
  - destruct (poll_policy (statusEnv (inProgressThen 1 (js "ERROR")))
                (js "c1") hostWorld) as (_ & _ & _ & H & _).
    destruct (H (inProgressThen 1 (js "ERROR")) 1%nat) as (_ & Hf & _).
    + intros i. reflexivity.
    + intros i Hi. destruct i as [|i]; try reflexivity. lia.
    + apply Hf; [lia | reflexivity].
  - destruct (poll_policy (statusEnv (inProgressThen 30 (js "FINISHED")))
                (js "c1") hostWorld) as (_ & _ & _ & H & _).
    destruct (H (inProgressThen 30 (js "FINISHED")) 30%nat) as (_ & _ & Ht).
    + intros i. reflexivity.
    + intros i Hi. unfold inProgressThen.
      destruct (i <? 30)%nat eqn:E; [reflexivity|].
      apply Nat.ltb_ge in E. lia.
    + apply Ht. reflexivity.
Defined.

(** ** The video flow *)

Lemma call_run {A} (e : Event) (o : Outcome A) (w : World) :
  (log e;; await o) w
  = (match o with Resolved a => Returned a | Rejected err => Thrown err end,
     advance [e] 0 0 w).
Proof. unfold mbind, M_bind, log, await. destruct o; reflexivity. Qed.

(** A call that settles as the equation [H] says, at the head of a
    sequence: the sequence goes on with its value, or ends with its error. *)
Ltac call_returns H :=
  erewrite bind_returned by (rewrite call_run, H; reflexivity).

Ltac call_throws H :=
  erewrite bind_thrown by (rewrite call_run, H; reflexivity).

Lemma publishAttempts_shape (env : Env) (cid : list ascii) (fuel : nat) :
  forall (attempt : nat) (w : World),
  exists evs pb,
    (publishAttempts env cid fuel attempt w).2 = advance evs 0 pb w
    /\ Forall (fun e => isLegEvent e = true) evs.
Proof.
  induction fuel as [|fuel IH]; intros attempt w.
  - exists [], 0%nat. cbn. rewrite advance_nil. split; [reflexivity|constructor].
  - cbn [publishAttempts]. unfold mbind at 1, M_bind at 1.
    rewrite publishIgContainerCall_run.
    destruct (publishIgContainer env (publishCalls w) cid) as [r|e].
    + destruct (isSuccess r);
        [exists [EvPublishIgContainer cid], 1%nat; split;
           [reflexivity | repeat constructor]|].
      destruct (isClientError r);
        [exists [EvPublishIgContainer cid], 1%nat; split;
           [reflexivity | repeat constructor]|].
      destruct (length delays <=? attempt)%nat;
        [exists [EvPublishIgContainer cid], 1%nat; split;
           [reflexivity | repeat constructor]|].
      erewrite bind_returned by apply sleep_run.
      match goal with
      | |- context [publishAttempts env cid fuel (S attempt) ?w1] =>
          destruct (IH (S attempt) w1) as (evs & pb & Hw & Hevs)
      end.
      rewrite Hw, !advance_advance. eexists _, _. split; [reflexivity|].
      repeat (apply Forall_app; split); try exact Hevs;
        repeat constructor.
    + exists [EvPublishIgContainer cid], 1%nat. split;
        [reflexivity | repeat constructor].
Qed.

Lemma publishAttempts_terminates (env : Env) (cid : list ascii) (fuel : nat) :
  forall (attempt : nat) (w : World),
  (length delays - attempt < fuel)%nat ->
  (publishAttempts env cid fuel attempt w).1 <> OutOfFuel.
Proof.
  induction fuel as [|fuel IH]; intros attempt w Hf; [lia|].
  cbn [publishAttempts]. unfold mbind at 1, M_bind at 1.
    rewrite publishIgContainerCall_run.
    destruct (publishIgContainer env (publishCalls w) cid) as [r|e];
      [|discriminate].
    destruct (isSuccess r); [discriminate|].
    destruct (isClientError r); [discriminate|].
    destruct (length delays <=? attempt)%nat eqn:E; [discriminate|].
    erewrite bind_returned by apply sleep_run.
    apply IH. apply Nat.leb_gt in E. lia.
Qed.

Lemma publishIgContainerWithRetry_terminates (env : Env) (cid : list ascii)
    (w : World) :
  (publishIgContainerWithRetry env cid w).1 <> OutOfFuel.
Proof. apply publishAttempts_terminates. cbn. lia. Qed.

(** The first-destination leg only makes its own calls, and it ends. *)
Lemma igReelLeg_shape (env : Env) (igVideoUrl caption : list ascii)
    (w w' : World) (r : Result (list ascii)) :
  igReelLeg env igVideoUrl caption w = (r, w') ->
  exists evs st pb,
    w' = advance evs st pb w
    /\ Forall (fun e => isLegEvent e = true) evs
    /\ r <> OutOfFuel.
Proof.
  assert (Hpoll : forall cid n,
            Forall (fun e => isLegEvent e = true) (pollTrace cid n)).
  { intros cid n. unfold pollTrace. apply Forall_concat, Forall_replicate.
    repeat constructor. }
  unfold igReelLeg. unfold mbind at 1, M_bind at 1. rewrite call_run.
  destruct (createIgReelContainer env igVideoUrl caption) as [cid|e].
  - set (w1 := advance [EvCreateIgReelContainer igVideoUrl caption] 0 0 w).
    destruct (pollPasses_bounded env cid maxPolls w1) as (n & _ & Hw & Hr).
    fold (pollIgContainer env cid) in Hw, Hr.
    unfold mbind, M_bind.
    destruct (pollIgContainer env cid w1) as [[[]|e|] w2] eqn:Hp;
      cbn [fst snd] in Hw, Hr; subst w2.
    + destruct (publishAttempts_shape env cid (S (length delays)) 0
                  (advance (pollTrace cid n) n 0 w1)) as (evs & pb & Hw & Hevs).
      pose proof (publishIgContainerWithRetry_terminates env cid
                    (advance (pollTrace cid n) n 0 w1)) as Hf.
      fold (publishIgContainerWithRetry env cid) in Hw.
      intros H. rewrite H in Hw, Hf. cbn [fst snd] in Hw, Hf. subst w'.
      unfold w1. rewrite !advance_advance.
      eexists _, _, _. split; [reflexivity|]. split; [|exact Hf].
      repeat (apply Forall_app; split); try exact Hevs; try apply Hpoll.
      repeat constructor.
    + intros H. injection H as <- <-. unfold w1. rewrite advance_advance.
      eexists _, _, _. split; [reflexivity|]. split; [|discriminate].
      apply Forall_app. split; [repeat constructor | apply Hpoll].
    + contradiction.
  - intros H. injection H as <- <-.
    exists [EvCreateIgReelContainer igVideoUrl caption], 0%nat, 0%nat.
    split; [reflexivity|]. split; [repeat constructor | discriminate].
Qed.

(** What a registration does to the world. *)
Lemma startTempVideoServer_shape (env : Env) (buffer : list byte)
    (baseUrl : list ascii) (w : World) :
  (exists e, startTempVideoServer env buffer baseUrl w = (Thrown e, w))
  \/ (exists filename pre tempServer w1,
        startTempVideoServer env buffer baseUrl w = (Returned tempServer, w1)
        /\ close tempServer = closeVideo filename
        /\ (pre = [] \/ pre = [EvInstallInterceptor])
        /\ trace w1 = trace w ++ pre ++ [EvRegisterVideo filename]
        /\ activeVideos w1 = <[filename := buffer]> (activeVideos w)).
Proof.
  unfold startTempVideoServer.
  destruct (n8nServer w) as [listeners|]; [|left; eauto].
  unfold mbind, M_bind, installInterceptor.
  destruct (interceptorInstalled w).
  - right. eexists _, [], _, _. cbn.
    split; [reflexivity|]. split; [reflexivity|]. split; [left; reflexivity|].
    split; reflexivity.
  - destruct listeners as [|originalHandler rest]; [left; eauto|].
    right. eexists _, [EvInstallInterceptor], _, _. cbn.
    split; [reflexivity|]. split; [reflexivity|]. split; [right; reflexivity|].
    split; [|reflexivity].
    unfold addEvent, setActiveVideos, bumpUuid, setInterceptor. cbn [trace].
    rewrite <- app_assoc. reflexivity.
Qed.

Lemma tryCatch_thrown {A} (body : M A) (handler : list ascii -> M A)
    (w w' : World) (e : list ascii) :
  body w = (Thrown e, w') -> tryCatch body handler w = handler e w'.
Proof. intros H. unfold tryCatch. rewrite H. reflexivity. Qed.

Lemma tryCatch_returned {A} (body : M A) (handler : list ascii -> M A)
    (w w' : World) (a : A) :
  body w = (Returned a, w') -> tryCatch body handler w = (Returned a, w').
Proof. intros H. unfold tryCatch. rewrite H. reflexivity. Qed.

Lemma tryFinally_run {A} (body : M A) (finalizer : M unit)
    (w w' w'' : World) (r : Result A) :
  body w = (r, w') -> finalizer w' = (Returned tt, w'') ->
  tryFinally body finalizer w = (r, w'').
Proof. intros H1 H2. unfold tryFinally. rewrite H1, H2. reflexivity. Qed.

Lemma startUpload_run (env : Env) (buffer : list byte)
    (filename description : list ascii) (published : bool) (w : World) :
  startUpload env buffer filename description published w
  = (Returned (uploadFbVideoFromBuffer env buffer filename description published),
     advance [EvUploadFbVideoFromBuffer buffer filename description published]
       0 0 w).
Proof. reflexivity. Qed.

(** The [catch] block: one deletion when the upload gave an id, none when it
    was rejected; whatever the deletion does, the error thrown is the one
    made from the caught error. *)
Lemma cleanUpAndRethrow_run (env : Env) (upload : Outcome (list ascii))
    (error : list ascii) (w : World) :
  cleanUpAndRethrow env upload error w
  = (Thrown (rethrown error), advance (deletionsFor upload) 0 0 w).
Proof.
  unfold cleanUpAndRethrow, tryCatch, mbind, M_bind, await, log, throw.
  destruct upload as [fbVideo|e]; cbn.
  - destruct (deleteFbVideo env fbVideo); reflexivity.
  - rewrite advance_nil. reflexivity.
Qed.

Lemma closeVideo_run (filename : list ascii) (w : World) :
  closeVideo filename w
  = (Returned tt, released filename w).
Proof. reflexivity. Qed.

(** The video flow when the first-destination leg throws. *)
Lemma handleVideo_leg_thrown (env : Env) (params : MetaPostParams)
    (caption : list ascii) (w w1 w2 : World)
    (videoBuffer convertedBuffer : list byte) (tempServer : TempVideoServer)
    (filename error : list ascii) :
  downloadMedia env (mediaUrl params) = Resolved videoBuffer ->
  convertVideo env videoBuffer (videoOptions params) = Resolved convertedBuffer ->
  startTempVideoServer env convertedBuffer (getInstanceBaseUrl env)
    (advance [EvDownloadMedia (mediaUrl params);
              EvConvertVideo (videoOptions params)] 0 0 w)
  = (Returned tempServer, w1) ->
  close tempServer = closeVideo filename ->
  igReelLeg env (server_url tempServer) caption
    (advance [EvUploadFbVideoFromBuffer convertedBuffer (js "video.mp4")
                caption true] 0 0 w1)
  = (Thrown error, w2) ->
  handleVideo env params caption w
  = (Thrown (rethrown error),
     released filename
       (advance
          (deletionsFor
             (uploadFbVideoFromBuffer env convertedBuffer (js "video.mp4")
                caption true)) 0 0 w2)).
Proof.
  intros Hd Hc Hserve Hclose Hleg. unfold handleVideo.
  call_returns Hd.
  call_returns Hc.
  rewrite advance_advance.
  erewrite bind_returned by exact Hserve.
  erewrite bind_returned by apply startUpload_run.
  erewrite bind_thrown; [reflexivity|].
  eapply tryFinally_run.
  - erewrite tryCatch_thrown by exact Hleg. apply cleanUpAndRethrow_run.
  - rewrite Hclose. apply closeVideo_run.
Qed.

Lemma filter_leg_events (kind : Event -> bool) (evs : list Event) :
  (forall e, isLegEvent e = true -> kind e = false) ->
  Forall (fun e => isLegEvent e = true) evs ->
  List.filter kind evs = [].
Proof.
  intros Hk H. induction H as [|e evs He _ IH]; [reflexivity|].
  cbn. rewrite (Hk e He). exact IH.
Qed.

Lemma legEvent_not_delete (e : Event) : isLegEvent e = true -> isDelete e = false.
Proof. destruct e; cbn; congruence. Qed.

Lemma legEvent_not_serve (e : Event) :
  isLegEvent e = true -> isServeEvent e = false.
Proof. destruct e; cbn; congruence. Qed.

Lemma deletionsFor_filter (upload : Outcome (list ascii)) :
  List.filter isDelete (deletionsFor upload) = deletionsFor upload.
Proof. destruct upload; reflexivity. Qed.

Lemma startsWith_refl (s : list ascii) : startsWith s s = true.
Proof. rewrite <- (app_nil_r s) at 1. apply startsWith_app. Qed.

Lemma includes_refl (s : list ascii) : includes s s = true.
Proof. destruct s; cbn; [reflexivity|]. rewrite Ascii.eqb_refl, startsWith_refl. reflexivity. Qed.

Lemma reelGuidance_includes (msg : list ascii) :
  includes (reelGuidance msg) msg = true.
Proof.
  unfold reelGuidance. apply includes_app_r, includes_app_l, includes_refl.
Qed.

Lemma includes_inv (s pat : list ascii) :
  includes s pat = true -> occursIn pat s.
Proof.
  induction s as [|c s IH]; cbn [includes].
  - rewrite orb_false_r. intros H. apply startsWith_inv in H.
    exists [], (drop (length pat) []). exact H.
  - intros H. apply orb_true_iff in H as [H|H].
    + apply startsWith_inv in H. exists [], (drop (length pat) (c :: s)).
      exact H.
    + destruct (IH H) as (a & b & ->). exists (c :: a), b. reflexivity.
Qed.

Lemma includes_occurs (s pat : list ascii) :
  occursIn pat s -> includes s pat = true.
Proof.
  intros (a & b & ->). apply includes_app_r, includes_app_l, includes_refl.
Qed.

(** Lower-casing gives a letter of the word carousel exactly on that letter
    and on its capital. *)
Lemma lowerChar_letter (c lo up : ascii) :
  In (lo, up) carouselLetters ->
  lowerChar c = lo <-> c = lo \/ c = up.
Proof.
  intros H. cbn [In carouselLetters] in H.
  repeat (destruct H as [H|H];
          [injection H as <- <-;
           destruct c as [[] [] [] [] [] [] [] []]; vm_compute;
           (split; [intros E; first [discriminate E | auto]
                   | intros [E|E]; first [discriminate E | reflexivity]])|]).
  contradiction.
Qed.

Lemma toLowerCase_spells (letters : list (ascii * ascii)) :
  (forall c lo up, In (lo, up) letters ->
     lowerChar c = lo <-> c = lo \/ c = up) ->
  forall word,
    toLowerCase word = List.map fst letters
    <-> Forall2 (fun c letter => c = letter.1 \/ c = letter.2) word letters.
Proof.
  unfold toLowerCase.
  induction letters as [|[lo up] letters IH]; intros Hl word.
  - split.
    + intros H. destruct word; [constructor | discriminate H].
    + intros H. inversion H. reflexivity.
  - assert (Hrest : forall c lo' up', In (lo', up') letters ->
              lowerChar c = lo' <-> c = lo' \/ c = up')
      by (intros c lo' up' Hin; apply Hl; right; exact Hin).
    split.
    + intros H. destruct word as [|c word]; [discriminate H|].
      cbn [List.map fst] in H. injection H as Hc Hw.
      constructor; [apply (Hl c lo up); [left; reflexivity | exact Hc]|].
      apply (IH Hrest), Hw.
    + intros H. inversion H as [|c letter word' letters' Hc Hw]; subst.
      cbn [List.map fst]. f_equal.
      * apply (Hl c lo up); [left; reflexivity | exact Hc].
      * apply (IH Hrest), Hw.
Qed.

(** The test of the [catch] block, in the words of the claims. *)
Lemma isCarouselRejection_names (msg : list ascii) :
  isCarouselRejection msg = true <-> namesCarouselRejection msg.
Proof.
  assert (Hword : forall word,
            toLowerCase word = js "carousel" <-> spellsCarousel word)
    by (apply (toLowerCase_spells carouselLetters); intros c lo up;
        apply lowerChar_letter).
  unfold isCarouselRejection, carouselCode, namesCarouselRejection.
  rewrite orb_true_iff. split.
  - intros [H|H]; [left; apply includes_inv, H|]. right.
    apply includes_inv in H as (a' & b' & H). unfold toLowerCase in H.
    apply List.map_eq_app in H as (a & rest & -> & _ & H).
    apply List.map_eq_app in H as (word & b & -> & Hw & _).
    exists word. split; [exists a, b; reflexivity | apply Hword, Hw].
  - intros [H | (word & (a & b & ->) & Hw)].
    + left. apply includes_occurs, H.
    + right. apply includes_occurs. apply Hword in Hw. unfold toLowerCase in *.
      exists (List.map lowerChar a), (List.map lowerChar b).
      rewrite !List.map_app, Hw. reflexivity.
Qed.

(** C1.  When the download, the transcoding and the registration have
    succeeded and the first-destination leg throws (its container creation,
    its polling or its publish), the flow awaits the parallel upload; it
    makes exactly one delete call, for the id of the upload, when the upload
    gave an id, and none when the upload was rejected; however the deletion
    settles, the flow then throws.  When the message of the error of the leg
    contains 2207089, or the word carousel with each letter in either case,
    what it throws is the guidance to re-encode at a lower bitrate, written
    out below, which quotes that message; otherwise it is the error of the
    leg. *)
Theorem video_compensation (env : Env) (params : MetaPostParams)
    (caption : list ascii) (w w1 w2 : World)
    (videoBuffer convertedBuffer : list byte) (tempServer : TempVideoServer)
    (error : list ascii) :
  downloadMedia env (mediaUrl params) = Resolved videoBuffer ->
  convertVideo env videoBuffer (videoOptions params) = Resolved convertedBuffer ->
  startTempVideoServer env convertedBuffer (getInstanceBaseUrl env)
    (advance [EvDownloadMedia (mediaUrl params);
              EvConvertVideo (videoOptions params)] 0 0 w)
  = (Returned tempServer, w1) ->
  igReelLeg env (server_url tempServer) caption
    (advance [EvUploadFbVideoFromBuffer convertedBuffer (js "video.mp4")
                caption true] 0 0 w1)
  = (Thrown error, w2) ->
  let upload :=
    uploadFbVideoFromBuffer env convertedBuffer (js "video.mp4") caption true in
  exists thrown w3,
    handleVideo env params caption w = (Thrown thrown, w3)
    /\ List.filter isDelete (trace w3)
       = List.filter isDelete (trace w)
           ++ match upload with
              | Resolved fbVideo => [EvDeleteFbVideo fbVideo]
              | Rejected _ => []
              end
    /\ (namesCarouselRejection error ->
        thrown
        = js "Instagram rejected the video as a Reel. "
            ++ js "The video likely exceeds Instagram Reels requirements "
            ++ js "(max 5 Mbps bitrate, H.264 High profile, max 90s duration). "
            ++ js "Please re-encode the source video to a lower bitrate "
            ++ js "before posting. (Original error: " ++ error ++ js ")")
    /\ (~ namesCarouselRejection error -> thrown = error)
    /\ occursIn error thrown.
Proof.
  intros Hd Hc Hserve Hleg upload.
  destruct (startTempVideoServer_shape env convertedBuffer
              (getInstanceBaseUrl env)
              (advance [EvDownloadMedia (mediaUrl params);
                        EvConvertVideo (videoOptions params)] 0 0 w))
    as [[e He] | (filename & pre & ts & w1' & Hs & Hclose & Hpre & Htr & _)];
    [congruence|].
  rewrite Hserve in Hs. injection Hs as <- <-.
  destruct (igReelLeg_shape _ _ _ _ _ _ Hleg) as (evs & st & pb & Hw2 & Hevs & _).
  exists (rethrown error). eexists. split; [|split; [|split; [|split]]].
  - apply (handleVideo_leg_thrown env params caption w w1 w2 videoBuffer
             convertedBuffer tempServer filename error); assumption.
  - fold upload. fold (deletionsFor upload). subst w2.
    unfold released, setActiveVideos, advance. cbn [trace].
    rewrite Htr. cbn [advance trace].
    rewrite !List.filter_app.
    rewrite (filter_leg_events isDelete evs legEvent_not_delete Hevs).
    rewrite deletionsFor_filter.
    destruct Hpre as [-> | ->]; cbn; rewrite ?app_nil_r; reflexivity.
  - intros Hn. apply isCarouselRejection_names in Hn.
    unfold rethrown. rewrite Hn. reflexivity.
  - intros Hn. unfold rethrown.
    destruct (isCarouselRejection error) eqn:E; [|reflexivity].
    apply isCarouselRejection_names in E. contradiction.
  - unfold rethrown. destruct (isCarouselRejection error).
    + apply includes_inv, reelGuidance_includes.
    + exists [], []. rewrite app_nil_r. reflexivity.
Qed.

Lemma video_compensation_witness :
  let byWord := videoEnv (Resolved (js "reel-1")) (fun _ => carouselWordStatus)
                  (fun _ => published) (Resolved (js "video-1"))
                  (Rejected (js "delete failed")) in
  let byCode := videoEnv (Resolved (js "reel-1")) (fun _ => carouselCodeStatus)
                  (fun _ => published) (Resolved (js "video-1"))
                  (Rejected (js "delete failed")) in
  (exists w3,
     handleVideo byWord someParams (js "hi") hostWorld
     = (Thrown
          (js "Instagram rejected the video as a Reel. "
             ++ js "The video likely exceeds Instagram Reels requirements "
             ++ js "(max 5 Mbps bitrate, H.264 High profile, max 90s duration). "
             ++ js "Please re-encode the source video to a lower bitrate "
             ++ js "before posting. (Original error: "
             ++ js "Instagram Reel processing failed: "
             ++ js "Media was treated as a Carousel"
             ++ js ". Ensure the video URL is publicly accessible and the "
             ++ js "video meets Instagram Reels requirements (MP4 H.264, "
             ++ js "max 5 Mbps bitrate, max 90s, 9:16 aspect ratio "
             ++ js "recommended).)"), w3)
     /\ List.filter isDelete (trace w3) = [EvDeleteFbVideo (js "video-1")])
  /\ (exists w3,
        handleVideo byCode someParams (js "hi") hostWorld
        = (Thrown
             (js "Instagram rejected the video as a Reel. "
                ++ js "The video likely exceeds Instagram Reels requirements "
                ++ js "(max 5 Mbps bitrate, H.264 High profile, max 90s duration). "
                ++ js "Please re-encode the source video to a lower bitrate "
                ++ js "before posting. (Original error: "
                ++ js "Instagram Reel processing failed: "
                ++ js "Error 2207089"
                ++ js ". Ensure the video URL is publicly accessible and the "
                ++ js "video meets Instagram Reels requirements (MP4 H.264, "
                ++ js "max 5 Mbps bitrate, max 90s, 9:16 aspect ratio "
                ++ js "recommended).)"), w3)
        /\ List.filter isDelete (trace w3) = [EvDeleteFbVideo (js "video-1")]).
Proof.
  intros byWord byCode. split.
  - edestruct (video_compensation byWord someParams (js "hi") hostWorld)
      as (thrown & w3 & H1 & H2 & H3 & _).
    + reflexivity.
    + reflexivity.
    + lazy -[insert delete]. reflexivity.
    + lazy -[insert delete]. reflexivity.
    + exists w3. split; [|exact H2].
      rewrite H1, H3; [reflexivity|].
      right. exists (js "Carousel"). split.
      * apply includes_inv. reflexivity.
      * repeat (constructor;
                [first [left; reflexivity | right; reflexivity]|]).
        constructor.
  - edestruct (video_compensation byCode someParams (js "hi") hostWorld)
      as (thrown & w3 & H1 & H2 & H3 & _).
    + reflexivity.
    + reflexivity.
    + lazy -[insert delete]. reflexivity.
    + lazy -[insert delete]. reflexivity.
    + exists w3. split; [|exact H2].
      rewrite H1, H3; [reflexivity|].
      left. apply includes_inv. reflexivity.
Defined.

(** The same run, when the upload is rejected: no delete call. *)
Example video_upload_rejected :
  let env := videoEnv (Rejected (js "Invalid video URL"))
               (fun _ => statusOf (js "FINISHED")) (fun _ => published)
               (Rejected (js "upload failed")) (Resolved tt) in
  (handleVideo env someParams (js "hi") hostWorld).1
  = Thrown (js "Invalid video URL")
  /\ List.filter isDelete
       (trace (handleVideo env someParams (js "hi") hostWorld).2) = [].
Proof. split; reflexivity. Qed.

(** A publish that is refused after a finished poll: one delete call. *)
Example video_publish_refused :
  let env := videoEnv (Resolved (js "reel-1"))
               (fun _ => statusOf (js "FINISHED")) (fun _ => badRequest)
               (Resolved (js "video-1")) (Resolved tt) in
  (handleVideo env someParams (js "hi") hostWorld).1
  = Thrown (js "Instagram publish failed (HTTP 400, code 100): Invalid parameter")
  /\ List.filter isDelete
       (trace (handleVideo env someParams (js "hi") hostWorld).2)
     = [EvDeleteFbVideo (js "video-1")].
Proof. split; reflexivity. Qed.

(** A failure before the upload is started, in the download, in the
    transcoding or in the registration: the flow throws it, and has made no
    call on the second destination. *)
Lemma handleVideo_before_upload (env : Env) (params : MetaPostParams)
    (caption : list ascii) (w : World) (e : list ascii) :
  downloadMedia env (mediaUrl params) = Rejected e ->
  handleVideo env params caption w
  = (Thrown e, advance [EvDownloadMedia (mediaUrl params)] 0 0 w).
Proof.
  intros Hd. unfold handleVideo.
  call_throws Hd. reflexivity.
Qed.

Lemma handleVideo_transcoding_failed (env : Env) (params : MetaPostParams)
    (caption : list ascii) (w : World) (videoBuffer : list byte)
    (e : list ascii) :
  downloadMedia env (mediaUrl params) = Resolved videoBuffer ->
  convertVideo env videoBuffer (videoOptions params) = Rejected e ->
  handleVideo env params caption w
  = (Thrown e,
     advance [EvDownloadMedia (mediaUrl params);
              EvConvertVideo (videoOptions params)] 0 0 w).
Proof.
  intros Hd Hc. unfold handleVideo.
  call_returns Hd.
  call_throws Hc.
  rewrite advance_advance. reflexivity.
Qed.

Lemma handleVideo_registration_failed (env : Env) (params : MetaPostParams)
    (caption : list ascii) (w w1 : World)
    (videoBuffer convertedBuffer : list byte) (e : list ascii) :
  downloadMedia env (mediaUrl params) = Resolved videoBuffer ->
  convertVideo env videoBuffer (videoOptions params) = Resolved convertedBuffer ->
  startTempVideoServer env convertedBuffer (getInstanceBaseUrl env)
    (advance [EvDownloadMedia (mediaUrl params);
              EvConvertVideo (videoOptions params)] 0 0 w)
  = (Thrown e, w1) ->
  handleVideo env params caption w = (Thrown e, w1).
Proof.
  intros Hd Hc Hs. unfold handleVideo.
  call_returns Hd.
  call_returns Hc.
  rewrite advance_advance.
  erewrite bind_thrown by exact Hs. reflexivity.
Qed.

(** The video flow from the registration on: the leg, the deletions of the
    clean-up when the leg throws, the close, and what follows the close. *)
Lemma handleVideo_after_registration (env : Env) (params : MetaPostParams)
    (caption : list ascii) (w w1 : World)
    (videoBuffer convertedBuffer : list byte) (tempServer : TempVideoServer)
    (filename : list ascii) :
  downloadMedia env (mediaUrl params) = Resolved videoBuffer ->
  convertVideo env videoBuffer (videoOptions params) = Resolved convertedBuffer ->
  startTempVideoServer env convertedBuffer (getInstanceBaseUrl env)
    (advance [EvDownloadMedia (mediaUrl params);
              EvConvertVideo (videoOptions params)] 0 0 w)
  = (Returned tempServer, w1) ->
  close tempServer = closeVideo filename ->
  exists evs st pb ds post,
    Forall (fun e => isLegEvent e = true) evs
    /\ List.filter isServeEvent ds = []
    /\ List.filter isServeEvent post = []
    /\ (handleVideo env params caption w).2
       = advance post 0 0
           (released filename
              (advance ds 0 0
                 (advance evs st pb
                    (advance
                       [EvUploadFbVideoFromBuffer convertedBuffer
                          (js "video.mp4") caption true] 0 0 w1)))).
Proof.
  intros Hd Hc Hserve Hclose.
  set (wu := advance [EvUploadFbVideoFromBuffer convertedBuffer
                        (js "video.mp4") caption true] 0 0 w1).
  destruct (igReelLeg env (server_url tempServer) caption wu)
    as [r w2] eqn:Hleg.
  destruct (igReelLeg_shape _ _ _ _ _ _ Hleg) as (evs & st & pb & -> & Hevs & Hr).
  destruct r as [igPost|error|]; [| |contradiction].
  - unfold handleVideo.
    call_returns Hd.
    call_returns Hc.
    rewrite advance_advance.
    erewrite bind_returned by exact Hserve.
    erewrite bind_returned by apply startUpload_run.
    erewrite bind_returned; cycle 1.
    { eapply tryFinally_run.
      - eapply tryCatch_returned. exact Hleg.
      - rewrite Hclose. apply closeVideo_run. }
    destruct (uploadFbVideoFromBuffer env convertedBuffer (js "video.mp4")
                caption true) as [fbVideo|e] eqn:Hup.
    + erewrite bind_returned by reflexivity.
      exists evs, st, pb, [], [EvGetIgPermalink igPost].
      split; [exact Hevs|]. split; [reflexivity|]. split; [reflexivity|].
      rewrite advance_nil.
      destruct (getIgPermalink env igPost) as [permalink|e] eqn:Hp.
      * erewrite bind_returned by (rewrite call_run; reflexivity).
        reflexivity.
      * erewrite bind_thrown by (rewrite call_run; reflexivity).
        reflexivity.
    + erewrite bind_thrown by reflexivity.
      exists evs, st, pb, [], []. rewrite !advance_nil.
      split; [exact Hevs|]. repeat split.
  - exists evs, st, pb,
      (deletionsFor
         (uploadFbVideoFromBuffer env convertedBuffer (js "video.mp4") caption
            true)), [].
    split; [exact Hevs|].
    split; [destruct (uploadFbVideoFromBuffer _ _ _ _ _); reflexivity|].
    split; [reflexivity|]. rewrite advance_nil.
    rewrite (handleVideo_leg_thrown env params caption w w1 _ videoBuffer
               convertedBuffer tempServer filename error Hd Hc Hserve Hclose
               Hleg).
    reflexivity.
Qed.

Lemma handleVideo_registered (env : Env) (params : MetaPostParams)
    (caption : list ascii) (w w1 : World)
    (videoBuffer convertedBuffer : list byte) (tempServer : TempVideoServer) :
  downloadMedia env (mediaUrl params) = Resolved videoBuffer ->
  convertVideo env videoBuffer (videoOptions params) = Resolved convertedBuffer ->
  startTempVideoServer env convertedBuffer (getInstanceBaseUrl env)
    (advance [EvDownloadMedia (mediaUrl params);
              EvConvertVideo (videoOptions params)] 0 0 w)
  = (Returned tempServer, w1) ->
  exists filename,
    servedAndReleased w (handleVideo env params caption w).2 filename
      convertedBuffer.
Proof.
  intros Hd Hc Hserve.
  destruct (startTempVideoServer_shape env convertedBuffer
              (getInstanceBaseUrl env)
              (advance [EvDownloadMedia (mediaUrl params);
                        EvConvertVideo (videoOptions params)] 0 0 w))
    as [[e He] | (filename & pre & ts & w1' & Hs & Hclose & Hpre & Htr & Hav)];
    [congruence|].
  rewrite Hserve in Hs. injection Hs as <- <-.
  destruct (handleVideo_after_registration env params caption w w1 videoBuffer
              convertedBuffer tempServer filename Hd Hc Hserve Hclose)
    as (evs & st & pb & ds & post & Hevs & Hds & Hpost & ->).
  exists filename. unfold servedAndReleased, released, setActiveVideos, advance.
  cbn [trace activeVideos]. rewrite Hav, Htr. cbn [advance trace activeVideos].
  split; [|split; [reflexivity | apply lookup_delete_eq]].
  rewrite !List.filter_app, Hds, Hpost.
  rewrite (filter_leg_events isServeEvent evs legEvent_not_serve Hevs).
  destruct Hpre as [-> | ->]; cbn; rewrite ?app_nil_r, <- ?app_assoc;
    reflexivity.
Qed.

(** C5.  In every run of the video flow, whatever its collaborators do,
    either no buffer is registered, or exactly one is: it is registered
    once, closed once after that, and not registered any more when the flow
    ends.  The second is the case whenever the flow gets as far as the
    registration, whether the container creation, the polling and the
    publish that follow succeed or fail. *)
Theorem video_served_file_released (env : Env) (params : MetaPostParams)
    (caption : list ascii) (w : World) :
  let w' := (handleVideo env params caption w).2 in
  ((List.filter isServeEvent (trace w') = List.filter isServeEvent (trace w)
    /\ activeVideos w' = activeVideos w)
   \/ exists filename buffer, servedAndReleased w w' filename buffer)
  /\ (forall (videoBuffer convertedBuffer : list byte)
        (tempServer : TempVideoServer) (w1 : World),
        downloadMedia env (mediaUrl params) = Resolved videoBuffer ->
        convertVideo env videoBuffer (videoOptions params)
        = Resolved convertedBuffer ->
        startTempVideoServer env convertedBuffer (getInstanceBaseUrl env)
          (advance [EvDownloadMedia (mediaUrl params);
                    EvConvertVideo (videoOptions params)] 0 0 w)
        = (Returned tempServer, w1) ->
        exists filename, servedAndReleased w w' filename convertedBuffer).
Proof.
  intros w'. split.
  - destruct (downloadMedia env (mediaUrl params)) as [videoBuffer|e] eqn:Hd.
    + destruct (convertVideo env videoBuffer (videoOptions params))
        as [convertedBuffer|e] eqn:Hc.
      * destruct (startTempVideoServer_shape env convertedBuffer
                    (getInstanceBaseUrl env)
                    (advance [EvDownloadMedia (mediaUrl params);
                              EvConvertVideo (videoOptions params)] 0 0 w))
          as [[e He] | (filename & pre & ts & w1 & Hs & _)].
        -- left. unfold w', handleVideo.
           call_returns Hd.
           call_returns Hc.
           rewrite advance_advance.
           erewrite bind_thrown by exact He.
           cbn [snd advance trace activeVideos].
           rewrite List.filter_app, app_nil_r. split; reflexivity.
        -- right.
           destruct (handleVideo_registered env params caption w w1 videoBuffer
                       convertedBuffer ts Hd Hc Hs) as [fn H].
           exists fn, convertedBuffer. exact H.
      * left. unfold w', handleVideo.
        call_returns Hd.
        call_throws Hc.
        cbn [snd advance trace activeVideos].
        rewrite !List.filter_app, !app_nil_r. split; reflexivity.
    + left. unfold w'.
      rewrite (handleVideo_before_upload env params caption w e Hd).
      cbn [snd advance trace activeVideos].
      rewrite List.filter_app, app_nil_r. split; reflexivity.
  - intros videoBuffer convertedBuffer tempServer w1 Hd Hc Hserve.
    apply (handleVideo_registered env params caption w w1 videoBuffer
             convertedBuffer tempServer Hd Hc Hserve).
Qed.

Lemma video_served_file_released_witness :
  let env := videoEnv (Resolved (js "reel-1"))
               (fun _ => statusOf (js "FINISHED")) (fun _ => badRequest)
               (Resolved (js "video-1")) (Resolved tt) in
  exists filename,
    servedAndReleased hostWorld
      (handleVideo env someParams (js "hi") hostWorld).2 filename
      ["001"%byte; "002"%byte; "003"%byte].
Proof.
  intros env.
  destruct (video_served_file_released env someParams (js "hi") hostWorld)
    as [_ H].
  eapply H.
  - reflexivity.
  - reflexivity.
  - lazy -[insert delete]. reflexivity.
Defined.

(** ** The image flow *)

Lemma isFormatError_found (resp : FullResponse) :
  includes (optStr (www_authenticate resp)) formatSignature = true
  \/ includes (bodyMessage resp) formatSignature = true ->
  isFormatError resp = true.
Proof.
  unfold isFormatError. intros [H|H].
  - apply includes_app_l, H.
  - apply includes_app_r, includes_app_r, H.
Qed.

(** Without the signature the flow throws at once. *)
Lemma imageContainer_no_fallback (env : Env) (params : MetaPostParams)
    (caption : list ascii) (w : World) (resp : FullResponse) :
  tryCreateIgImageContainer env (mediaUrl params) caption = Resolved resp ->
  isSuccess resp = false ->
  isFormatError resp = false ->
  imageContainer env params caption w
  = (Thrown (containerCreationFailed env resp),
     advance [EvTryCreateIgImageContainer (mediaUrl params) caption] 0 0 w).
Proof.
  intros Ht Hs Hf. unfold imageContainer.
  call_returns Ht.
  rewrite Hs, Hf. reflexivity.
Qed.

(** With the signature, and the steps of the cycle succeeding up to the
    second container creation, the block ends as that creation does. *)
Lemma imageContainer_fallback (env : Env) (params : MetaPostParams)
    (caption : list ascii) (w : World) (resp : FullResponse)
    (imageBuffer convertedBuffer : list byte) (fbPhoto cdnUrl : list ascii)
    (photoImages : FbPhotoImagesResponse) :
  tryCreateIgImageContainer env (mediaUrl params) caption = Resolved resp ->
  isSuccess resp = false ->
  isFormatError resp = true ->
  downloadMedia env (mediaUrl params) = Resolved imageBuffer ->
  convertImage env imageBuffer (imageOptions params) = Resolved convertedBuffer ->
  uploadFbPhotoFromBuffer env convertedBuffer
    (js "converted." ++ formatName (imageOutputFormat params))
    (imageMime params) false = Resolved fbPhoto ->
  getFbPhotoImages env fbPhoto = Resolved photoImages ->
  head (images photoImages) = Some cdnUrl ->
  truthy cdnUrl = true ->
  imageContainer env params caption w
  = (match createIgImageContainer env cdnUrl caption with
     | Resolved igContainerId => Returned (fbPhoto, igContainerId)
     | Rejected e => Thrown e
     end,
     advance
       (EvTryCreateIgImageContainer (mediaUrl params) caption
          :: fallbackCycle params caption convertedBuffer fbPhoto cdnUrl)
       0 0 w).
Proof.
  intros Ht Hs Hf Hd Hc Hu Hg Hh Hcdn. unfold imageContainer.
  call_returns Ht.
  rewrite Hs, Hf. cbn [negb].
  call_returns Hd.
  cbv zeta.
  call_returns Hc.
  call_returns Hu.
  call_returns Hg.
  rewrite Hh. change (default [] (Some cdnUrl)) with cdnUrl.
  rewrite Hcdn. cbn [negb].
  rewrite !advance_advance.
  destruct (createIgImageContainer env cdnUrl caption) as [cid|e] eqn:Hr.
  - erewrite bind_returned by (rewrite call_run; reflexivity).
    rewrite advance_advance. reflexivity.
  - erewrite bind_thrown by (rewrite call_run; reflexivity).
    rewrite advance_advance. reflexivity.
Qed.

Lemma legEvent_not_fallback (e : Event) :
  isLegEvent e = true -> isFallbackEvent e = false.
Proof. destruct e; cbn; congruence. Qed.

(** Steps 3 to 6 make no call of the fall-back. *)
Lemma publishImage_shape (env : Env) (params : MetaPostParams)
    (caption fbPhotoId igContainerId : list ascii) (w : World) :
  exists rest pb,
    (publishImage env params caption fbPhotoId igContainerId w).2
    = advance rest 0 pb w
    /\ List.filter isFallbackEvent rest = [].
Proof.
  unfold publishImage.
  destruct (publishAttempts_shape env igContainerId (S (length delays)) 0 w)
    as (evs & pb & Hw & Hevs).
  fold (publishIgContainerWithRetry env igContainerId) in Hw.
  pose proof (filter_leg_events isFallbackEvent evs legEvent_not_fallback Hevs)
    as Hnone.
  unfold mbind at 1, M_bind at 1.
  destruct (publishIgContainerWithRetry env igContainerId w)
    as [[igPost|e|] w1]; cbn [snd] in Hw; subst w1;
    try (exists evs, pb; split; [reflexivity | exact Hnone]).
  assert (Hstep : forall (photo : list ascii) (w2 : World) (evs2 : list Event),
            w2 = advance evs2 0 pb w ->
            List.filter isFallbackEvent evs2 = [] ->
            exists rest pb',
              (((log (EvCreateFbFeedPost caption photo);;
                 await (createFbFeedPost env caption photo))
                ≫= (fun fbFeedPost =>
                      (log (EvGetIgPermalink igPost);;
                       await (getIgPermalink env igPost))
                      ≫= (fun igPermalink =>
                            mret {| instagram_post_id := igPost;
                                    instagram_permalink := igPermalink;
                                    facebook_post_id := fbFeedPost;
                                    facebook_photo_id := Some photo;
                                    facebook_video_id := None |})))
                 w2).2
              = advance rest 0 pb' w
              /\ List.filter isFallbackEvent rest = []).
  { intros photo w2 evs2 -> Hevs2.
    unfold mbind at 1, M_bind at 1. rewrite call_run.
    destruct (createFbFeedPost env caption photo) as [post|e].
    - unfold mbind at 1, M_bind at 1. rewrite call_run.
      destruct (getIgPermalink env igPost); cbn [snd mret M_ret];
        rewrite !advance_advance; eexists _, _; (split; [reflexivity|]);
        rewrite !List.filter_app, Hevs2; reflexivity.
    - cbn [snd]. rewrite !advance_advance. eexists _, _.
      split; [reflexivity|]. rewrite !List.filter_app, Hevs2. reflexivity. }
  destruct (negb (truthy fbPhotoId)).
  - unfold mbind at 1, M_bind at 1. rewrite call_run.
    destruct (uploadFbPhotoFromUrl env (mediaUrl params) false) as [photo|e].
    + rewrite advance_advance. eapply Hstep; [reflexivity|].
      rewrite List.filter_app, Hnone. reflexivity.
    + cbn [snd]. rewrite advance_advance. eexists _, _.
      split; [reflexivity|]. rewrite List.filter_app, Hnone. reflexivity.
  - unfold mbind at 1, M_bind at 1. cbn [mret M_ret].
    eapply Hstep; [reflexivity | exact Hnone].
Qed.

(** C3, as amended.  When the first container creation is answered by a
    response that is not a success, the signature is looked for in the text
    made of the [www-authenticate] header, a space and the error message of
    the body, so that it is found when the header carries it and when the
    message carries it.  When it is not found there, the flow throws the raw
    detail of the response at once: the first creation is its only call, and
    the transcoder is not called.  When it is found, and the steps succeed,
    one cycle runs: download, conversion, upload as an unpublished photo,
    read of the hosted URL, second container creation; a failure of that
    creation is thrown as it is, with no further call, and after its success
    no call of the cycle is made again. *)
Theorem image_fallback (env : Env) (params : MetaPostParams)
    (caption : list ascii) (w : World) (resp : FullResponse) :
  tryCreateIgImageContainer env (mediaUrl params) caption = Resolved resp ->
  isSuccess resp = false ->
  let w0 :=
    advance [EvTryCreateIgImageContainer (mediaUrl params) caption] 0 0 w in
  (includes (optStr (www_authenticate resp)) formatSignature = true
   \/ includes (bodyMessage resp) formatSignature = true ->
   isFormatError resp = true)
  /\ (isFormatError resp = false ->
      handleImage env params caption w
      = (Thrown (containerCreationFailed env resp), w0)
      /\ List.filter isTranscode (trace w0) = List.filter isTranscode (trace w))
  /\ (isFormatError resp = true ->
      forall (imageBuffer convertedBuffer : list byte)
        (fbPhoto cdnUrl : list ascii) (photoImages : FbPhotoImagesResponse),
        downloadMedia env (mediaUrl params) = Resolved imageBuffer ->
        convertImage env imageBuffer (imageOptions params)
        = Resolved convertedBuffer ->
        uploadFbPhotoFromBuffer env convertedBuffer
          (js "converted." ++ formatName (imageOutputFormat params))
          (imageMime params) false = Resolved fbPhoto ->
        getFbPhotoImages env fbPhoto = Resolved photoImages ->
        head (images photoImages) = Some cdnUrl ->
        truthy cdnUrl = true ->
        let cycle :=
          fallbackCycle params caption convertedBuffer fbPhoto cdnUrl in
        match createIgImageContainer env cdnUrl caption with
        | Rejected e =>
            handleImage env params caption w
            = (Thrown e, advance cycle 0 0 w0)
        | Resolved igContainerId =>
            exists rest pb,
              (handleImage env params caption w).2
              = advance rest 0 pb (advance cycle 0 0 w0)
              /\ List.filter isFallbackEvent rest = []
        end).
Proof.
  intros Ht Hs w0. split; [apply isFormatError_found|]. split.
  - intros Hf. split.
    + unfold handleImage.
      erewrite bind_thrown
        by exact (imageContainer_no_fallback env params caption w resp Ht Hs Hf).
      reflexivity.
    + unfold w0. cbn [advance trace]. rewrite List.filter_app, app_nil_r.
      reflexivity.
  - intros Hf imageBuffer convertedBuffer fbPhoto cdnUrl photoImages
      Hd Hc Hu Hg Hh Hcdn cycle.
    pose proof (imageContainer_fallback env params caption w resp imageBuffer
                  convertedBuffer fbPhoto cdnUrl photoImages Ht Hs Hf Hd Hc Hu
                  Hg Hh Hcdn) as Hrun.
    fold cycle in Hrun.
    assert (Hw : advance
                   (EvTryCreateIgImageContainer (mediaUrl params) caption
                      :: cycle) 0 0 w = advance cycle 0 0 w0).
    { unfold w0. rewrite advance_advance. reflexivity. }
    rewrite Hw in Hrun.
    destruct (createIgImageContainer env cdnUrl caption) as [cid|e].
    + unfold handleImage. erewrite bind_returned by exact Hrun.
      apply publishImage_shape.
    + unfold handleImage. erewrite bind_thrown by exact Hrun. reflexivity.
Qed.

Lemma image_fallback_witness :
  handleImage (imageEnv (Resolved badRequest) (Resolved (js "container-2")))
    someParams (js "hi") hostWorld
  = (Thrown (js "Instagram container creation failed (HTTP 400): Invalid parameter"),
     advance [EvTryCreateIgImageContainer (js "https://x/a.mp4") (js "hi")]
       0 0 hostWorld)
  /\ handleImage
       (imageEnv (Resolved rejectedFormat) (Rejected (js "Still not accepted")))
       someParams (js "hi") hostWorld
     = (Thrown (js "Still not accepted"),
        advance
          [EvTryCreateIgImageContainer (js "https://x/a.mp4") (js "hi");
           EvDownloadMedia (js "https://x/a.mp4");
           EvConvertImage (imageOptions someParams);
           EvUploadFbPhotoFromBuffer ["001"%byte; "002"%byte; "003"%byte]
             (js "converted.jpeg") (js "image/jpeg") false;
           EvGetFbPhotoImages (js "photo-buffer");
           EvCreateIgImageContainer (js "https://cdn.example/p.jpg") (js "hi")]
          0 0 hostWorld)
  /\ isFormatError rejectedInHeader = true.
Proof.
  split; [|split].
  - destruct (image_fallback
                (imageEnv (Resolved badRequest) (Resolved (js "container-2")))
                someParams (js "hi") hostWorld badRequest) as (_ & H & _);
      [reflexivity | reflexivity |].
    apply H. reflexivity.
  - destruct (image_fallback
                (imageEnv (Resolved rejectedFormat)
                   (Rejected (js "Still not accepted")))
                someParams (js "hi") hostWorld rejectedFormat) as (_ & _ & H);
      [reflexivity | reflexivity |].
    apply (H eq_refl ["001"%byte; "002"%byte; "003"%byte]
             ["001"%byte; "002"%byte; "003"%byte] (js "photo-buffer")
             (js "https://cdn.example/p.jpg")
             {| images := [js "https://cdn.example/p.jpg"] |});
      reflexivity.
  - destruct (image_fallback
                (imageEnv (Resolved rejectedInHeader) (Resolved (js "c2")))
                someParams (js "hi") hostWorld rejectedInHeader) as (H & _);
      [reflexivity | reflexivity |].
    apply H. left. reflexivity.
Defined.

(** C3 as stated fails: the end of the header and the start of the body's
    message can make up the signature together.  Neither carries it, but the
    fall-back runs and the transcoder is called. *)
Lemma image_signature_across_header_and_body :
  let resp :=
    {| statusCode := 400;
       www_authenticate := Some (js "Only photo or video can be");
       body := Some {| body_id := None;
                       body_error :=
                         Some (apiError (js "accepted as media type.") 9004) |} |} in
  let env := imageEnv (Resolved resp) (Resolved (js "container-2")) in
  isSuccess resp = false
  /\ includes (optStr (www_authenticate resp)) formatSignature = false
  /\ includes (bodyMessage resp) formatSignature = false
  /\ isFormatError resp = true
  /\ List.filter isTranscode
       (trace (handleImage env someParams (js "hi") hostWorld).2)
     = [EvConvertImage (imageOptions someParams)].
Proof. repeat split. Qed.

(** * Further properties *)

(** ** Range headers and the answers of the endpoint *)

Lemma spanDigits_spec (s : list ascii) :
  s = (spanDigits s).1 ++ (spanDigits s).2
  /\ allDigits (spanDigits s).1
  /\ match (spanDigits s).2 with [] => True | c :: _ => isDigit c = false end.
Proof.
  induction s as [|c t IH]; cbn [spanDigits].
  - repeat split. constructor.
  - destruct (isDigit c) eqn:Hc.
    + destruct (spanDigits t) as [ds rest]. cbn [fst snd] in *.
      destruct IH as (-> & Hds & Hrest). repeat split; [|exact Hrest].
      constructor; assumption.
    + cbn [fst snd]. repeat split; [constructor | exact Hc].
Qed.

Lemma matchRange_sound (h g1 g2 : list ascii) :
  matchRange h = Some (g1, g2) ->
  g1 <> [] /\ allDigits g1 /\ allDigits g2
  /\ h = js "bytes=" ++ g1 ++ js "-" ++ g2.
Proof.
  unfold matchRange. destruct (startsWith h (js "bytes=")) eqn:Hp; [|discriminate].
  apply startsWith_inv in Hp. change (length (js "bytes=")) with 6%nat in Hp.
  destruct (spanDigits_spec (drop 6 h)) as (H1 & Hd1 & _).
  destruct (spanDigits (drop 6 h)) as [d1 r1]. cbn [fst snd] in *.
  destruct d1 as [|c d1]; [discriminate|].
  destruct r1 as [|dash r2]; [discriminate|].
  destruct (Ascii.eqb dash "-") eqn:Hdash; [|discriminate].
  apply Ascii.eqb_eq in Hdash. subst dash.
  destruct (spanDigits_spec r2) as (H2 & Hd2 & _).
  destruct (spanDigits r2) as [d2 r3]. cbn [fst snd] in *.
  destruct r3 as [|x r3]; [|discriminate].
  intros H. injection H as <- <-.
  rewrite app_nil_r in H2. subst r2.
  repeat split; [discriminate | exact Hd1 | exact Hd2 |].
  rewrite Hp at 1. rewrite H1. reflexivity.
Qed.

(** A range that [parseRange] returns, and the header it was read from. *)
Lemma parseRange_returned (header : list ascii) (total start end_ : Z) :
  parseRange header total = Some (start, end_) ->
  0 <= start /\ start <= end_ /\ end_ <= total - 1 /\ isRangeForm header.
Proof.
  unfold parseRange. destruct (matchRange header) as [[g1 g2]|] eqn:Hm;
    [|discriminate].
  destruct (matchRange_sound header g1 g2 Hm) as (Hne & Hd1 & Hd2 & Hh).
  destruct ((parseInt g1 >? (if truthy g2 then parseInt g2 else total - 1))
            || (parseInt g1 >=? total)) eqn:E; [discriminate|].
  intros H. injection H as <- <-.
  apply orb_false_iff in E as [E1 E2].
  pose proof (parseInt_nonneg g1 Hd1).
  repeat split; try lia.
  exists g1, g2. repeat split; assumption.
Qed.

(** X1.  Whatever the header and the length: a range that [parseRange]
    returns lies in the buffer, [0 <= start <= end <= total - 1], and the
    header had the form [bytes=<digits>-<digits or nothing>]. *)
Theorem parseRange_in_buffer (header : list ascii) (total start end_ : Z) :
  parseRange header total = Some (start, end_) ->
  0 <= start /\ start <= end_ /\ end_ <= total - 1 /\ isRangeForm header.
Proof. apply parseRange_returned. Qed.

Lemma parseRange_in_buffer_witness :
  0 <= 1990 /\ 1990 <= 1999 /\ 1999 <= 2000 - 1
  /\ isRangeForm (js "bytes=1990-5000").
Proof.
  apply (parseRange_in_buffer (js "bytes=1990-5000") 2000 1990 1999).
  reflexivity.
Defined.

Lemma matchRange_complete (h : list ascii) :
  ~ isRangeForm h -> matchRange h = None.
Proof.
  intros Hn. destruct (matchRange h) as [[g1 g2]|] eqn:Hm; [|reflexivity].
  exfalso. apply Hn.
  destruct (matchRange_sound h g1 g2 Hm) as (Hne & Hd1 & Hd2 & Hh).
  exists g1, g2. repeat split; assumption.
Qed.

(** X2.  A request with a [range] header that is not empty and not of the
    form [bytes=<digits>-<digits or nothing>] (a suffix range, several
    ranges, another unit) is answered 416 with [Content-Range: bytes
    */total] by [serveBuffer] unless it is a HEAD, and by the handler of the
    dedicated listener when it is a GET for the served path. *)
Theorem malformed_range_rejected (buffer : list byte) (req : Request)
    (header : list ascii) :
  range req = Some header -> header <> [] -> ~ isRangeForm header ->
  (eqbStr (method req) (js "HEAD") = false ->
   serveBuffer req buffer = rangeNotSatisfiable (Z.of_nat (length buffer)))
  /\ (method req = js "GET" ->
      dedicatedHandler (url req) buffer req
      = rangeNotSatisfiable (Z.of_nat (length buffer))).
Proof.
  intros Hr Hne Hform.
  assert (Hp : forall total, parseRange header total = None).
  { intros total. unfold parseRange. rewrite (matchRange_complete header Hform).
    reflexivity. }
  destruct header as [|c header]; [contradiction|]. split.
  - intros Hm. unfold serveBuffer. rewrite Hm, Hr, Hp. reflexivity.
  - intros Hm. unfold dedicatedHandler. rewrite Hm, Hr, eqbStr_refl, Hp.
    reflexivity.
Qed.

Lemma malformed_range_rejected_witness :
  let req := {| method := js "GET"; url := js "/v.mp4";
                range := Some (js "bytes=-500") |} in
  serveBuffer req (replicate 2000 "000"%byte) = rangeNotSatisfiable 2000
  /\ dedicatedHandler (js "/v.mp4") (replicate 2000 "000"%byte) req
     = rangeNotSatisfiable 2000.
Proof.
  intros req.
  destruct (malformed_range_rejected (replicate 2000 "000"%byte) req
              (js "bytes=-500")) as [H1 H2].
  - reflexivity.
  - discriminate.
  - intros (ds & de & Hne & Hds & _ & H).
    destruct ds as [|c ds]; [contradiction|].
    apply (f_equal (drop 6)) in H. cbn in H. injection H as <- _.
    inversion Hds as [|? ? Hc _]. discriminate Hc.
  - split; [apply H1 | apply H2]; reflexivity.
Defined.

Lemma contentLength_of_full (total : Z) (extra : list (list ascii * list ascii)) :
  headerValue (js "Content-Length") (fullHeaders total ++ extra)
  = Some (toString total).
Proof. reflexivity. Qed.

Lemma contentLength_of_partial (x y : list ascii)
    (extra : list (list ascii * list ascii)) :
  headerValue (js "Content-Length")
    ((js "Content-Type", js "video/mp4") :: (js "Content-Range", x)
       :: (js "Content-Length", y) :: (js "Accept-Ranges", js "bytes") :: extra)
  = Some y.
Proof. reflexivity. Qed.

(** The part of the two handlers that answers a GET: the same answers, with
    [extra] headers added by the dedicated listener. *)
Lemma get_answer_consistent (buffer : list byte) (r : option (list ascii))
    (extra : list (list ascii * list ascii)) (res : Response) :
  res = match r with
        | Some ((_ :: _) as rangeHeader) =>
            match parseRange rangeHeader (Z.of_nat (length buffer)) with
            | None => rangeNotSatisfiable (Z.of_nat (length buffer))
            | Some (start, end_) =>
                {| res_status := 206;
                   res_headers :=
                     (js "Content-Type", js "video/mp4")
                       :: (js "Content-Range",
                           js "bytes " ++ toString start ++ js "-"
                             ++ toString end_ ++ js "/"
                             ++ toString (Z.of_nat (length buffer)))
                       :: (js "Content-Length", toString (end_ - start + 1))
                       :: (js "Accept-Ranges", js "bytes") :: extra;
                   res_body := subarray buffer start (end_ + 1) |}
            end
        | _ =>
            {| res_status := 200;
               res_headers := fullHeaders (Z.of_nat (length buffer)) ++ extra;
               res_body := buffer |}
        end ->
  (res_status res = 200 /\ res_body res = buffer
   \/ res_status res = 416 /\ res_body res = []
   \/ res_status res = 206
      /\ exists start end_,
           0 <= start /\ start <= end_ /\ end_ < Z.of_nat (length buffer)
           /\ isSliceOf buffer start end_ (res_body res))
  /\ (forall v, headerValue (js "Content-Length") (res_headers res) = Some v ->
        v = toString (Z.of_nat (length (res_body res)))).
Proof.
  intros ->.
  assert (Hfull : forall res,
            res = {| res_status := 200;
                     res_headers := fullHeaders (Z.of_nat (length buffer)) ++ extra;
                     res_body := buffer |} ->
            (res_status res = 200 /\ res_body res = buffer
             \/ res_status res = 416 /\ res_body res = []
             \/ res_status res = 206
                /\ exists start end_,
                     0 <= start /\ start <= end_
                     /\ end_ < Z.of_nat (length buffer)
                     /\ isSliceOf buffer start end_ (res_body res))
            /\ (forall v,
                  headerValue (js "Content-Length") (res_headers res) = Some v ->
                  v = toString (Z.of_nat (length (res_body res))))).
  { intros res ->. split; [left; split; reflexivity|].
    intros v. cbn [res_headers res_body]. rewrite contentLength_of_full.
    intros H. injection H as <-. reflexivity. }
  destruct r as [[|c h]|]; [apply Hfull; reflexivity | | apply Hfull; reflexivity].
  destruct (parseRange (c :: h) (Z.of_nat (length buffer)))
    as [[start end_]|] eqn:Hp.
  - destruct (parseRange_returned _ _ _ _ Hp) as (H0 & H1 & H2 & _).
    pose proof (subarray_slice buffer start end_ H0 H1 ltac:(lia)) as Hs.
    split.
    + right. right. split; [reflexivity|]. exists start, end_.
      repeat split; try lia; apply Hs.
    + intros v. cbn [res_headers res_body].
      rewrite contentLength_of_partial. intros H. injection H as <-.
      destruct Hs as [-> _]. reflexivity.
  - split; [right; left; split; reflexivity|].
    intros v H. discriminate H.
Qed.

(** X3.  Whatever the request and the buffer, [serveBuffer] answers 200
    with the whole buffer, 416 with no body, or 206 with a slice of the
    buffer that lies inside it; to a HEAD it answers 200 with no body and
    the length of the buffer as [Content-Length], whatever the [range]
    header; to any other request, a [Content-Length] it writes is the length
    of the body it sends, and so it is for the GET answers of the handler
    of the dedicated listener. *)
Theorem serveBuffer_consistent (req : Request) (buffer : list byte) :
  let res := serveBuffer req buffer in
  let total := Z.of_nat (length buffer) in
  (eqbStr (method req) (js "HEAD") = true ->
   res_status res = 200 /\ res_body res = []
   /\ headerValue (js "Content-Length") (res_headers res)
      = Some (toString total))
  /\ (eqbStr (method req) (js "HEAD") = false ->
      (res_status res = 200 /\ res_body res = buffer
       \/ res_status res = 416 /\ res_body res = []
       \/ res_status res = 206
          /\ exists start end_,
               0 <= start /\ start <= end_ /\ end_ < total
               /\ isSliceOf buffer start end_ (res_body res))
      /\ (forall v,
            headerValue (js "Content-Length") (res_headers res) = Some v ->
            v = toString (Z.of_nat (length (res_body res)))))
  /\ (method req = js "GET" ->
      forall v,
        headerValue (js "Content-Length")
          (res_headers (dedicatedHandler (url req) buffer req)) = Some v ->
        v = toString
              (Z.of_nat
                 (length (res_body (dedicatedHandler (url req) buffer req))))).
Proof.
  cbv zeta. unfold serveBuffer. split; [|split]; intros Hm; try rewrite Hm.
  - repeat split.
  - apply (get_answer_consistent buffer (range req) []).
    destruct (range req) as [[|c h]|]; reflexivity.
  - apply (get_answer_consistent buffer (range req) [keepAlive]).
    unfold dedicatedHandler. rewrite Hm, eqbStr_refl.
    destruct (range req) as [[|c h]|]; reflexivity.
Qed.

Lemma serveBuffer_consistent_witness :
  let head := {| method := js "HEAD"; url := js "/v.mp4";
                 range := Some (js "bytes=0-9") |} in
  let get := {| method := js "GET"; url := js "/v.mp4";
                range := Some (js "bytes=0-9") |} in
  res_body (serveBuffer head (replicate 2000 "000"%byte)) = []
  /\ (forall v,
        headerValue (js "Content-Length")
          (res_headers (serveBuffer get (replicate 2000 "000"%byte))) = Some v ->
        v = toString
              (Z.of_nat
                 (length (res_body (serveBuffer get (replicate 2000 "000"%byte)))))).
Proof.
  intros head get. split.
  - destruct (serveBuffer_consistent head (replicate 2000 "000"%byte))
      as (H & _ & _).
    apply H. reflexivity.
  - destruct (serveBuffer_consistent get (replicate 2000 "000"%byte))
      as (_ & H & _).
    apply H. reflexivity.
Defined.

(** ** The URL and the life of a registration *)

(** X4.  [stripTrailingSlashes] removes the slashes at the end of the base
    URL and nothing else: the base is the result followed by slashes only,
    and the result does not end with a slash. *)
Theorem stripTrailingSlashes_spec (s : list ascii) :
  (exists k, s = stripTrailingSlashes s ++ replicate k "/"%char)
  /\ (forall r, stripTrailingSlashes s <> r ++ ["/"%char]).
Proof.
  induction s as [|c t [[k Hk] Hend]]; cbn [stripTrailingSlashes].
  - split; [exists 0%nat; reflexivity|]. intros [|x r]; discriminate.
  - destruct (stripTrailingSlashes t) as [|x t'] eqn:Ht.
    + destruct (Ascii.eqb c "/") eqn:Hc.
      * apply Ascii.eqb_eq in Hc. subst c. split.
        -- exists (S k). cbn. rewrite Hk at 1. reflexivity.
        -- intros [|y r]; discriminate.
      * split.
        -- exists k. cbn. rewrite Hk at 1. reflexivity.
        -- intros [|y [|z r]] H; try discriminate.
           injection H as ->. discriminate Hc.
    + split.
      * exists k. cbn. rewrite Hk at 1. reflexivity.
      * intros [|y r] H; [discriminate|]. injection H as _ H.
        apply (Hend r). exact H.
Qed.

(** What a successful registration leaves. *)
Lemma startTempVideoServer_returns (env : Env) (buffer : list byte)
    (baseUrl : list ascii) (w w1 : World) (tempServer : TempVideoServer) :
  startTempVideoServer env buffer baseUrl w = (Returned tempServer, w1) ->
  let filename := randomUUID env (uuidCalls w) ++ js ".mp4" in
  server_url tempServer
  = stripTrailingSlashes baseUrl ++ TMP_VIDEO_PREFIX ++ filename
  /\ close tempServer = closeVideo filename
  /\ activeVideos w1 = <[filename := buffer]> (activeVideos w)
  /\ uuidCalls w1 = S (uuidCalls w)
  /\ interceptorInstalled w1 = true
  /\ exists listeners original,
       n8nServer w = Some listeners
       /\ (if interceptorInstalled w
           then n8nServer w1 = Some listeners
           else head listeners = Some original
                /\ n8nServer w1 = Some [Interceptor original]).
Proof.
  unfold startTempVideoServer.
  destruct (n8nServer w) as [listeners|] eqn:Hs; [|discriminate].
  unfold mbind, M_bind, installInterceptor.
  destruct (interceptorInstalled w) eqn:Hf.
  - cbn. intros H. injection H as <- <-. cbn. rewrite Hf, Hs.
    repeat split. exists listeners, (HostHandler 0). split; reflexivity.
  - destruct listeners as [|originalHandler rest]; [discriminate|].
    cbn. intros H. injection H as <- <-. cbn.
    repeat split. exists (originalHandler :: rest), originalHandler.
    repeat split.
Qed.

Lemma startTempVideoServer_keeps_invariant (env : Env) (buffer : list byte)
    (baseUrl : list ascii) (w w1 : World) (tempServer : TempVideoServer) :
  interceptorInvariant w ->
  startTempVideoServer env buffer baseUrl w = (Returned tempServer, w1) ->
  interceptorInvariant w1
  /\ exists h, n8nServer w1 = Some [Interceptor (HostHandler h)].
Proof.
  intros Hinv Hs.
  pose proof (startTempVideoServer_invariant env buffer baseUrl w Hinv) as H1.
  rewrite Hs in H1. cbn [snd] in H1. split; [exact H1|].
  destruct (startTempVideoServer_returns env buffer baseUrl w w1 tempServer Hs)
    as (_ & _ & _ & _ & Hf & _).
  unfold interceptorInvariant in H1. rewrite Hf in H1. apply H1.
Qed.

(** X5.  From a consistent state of the endpoint, a registration that
    succeeds returns the URL made of the base without its trailing slashes,
    [/tmp-video/] and the file name; a GET or HEAD for that path, emitted on
    the server, is answered by [serveBuffer] with the registered buffer;
    once [close] has run the same request goes to the handler of the host,
    and a second [close] changes nothing in the registry. *)
Theorem registration_round_trip (env : Env) (buffer : list byte)
    (baseUrl : list ascii) (w w1 : World) (tempServer : TempVideoServer) :
  interceptorInvariant w ->
  startTempVideoServer env buffer baseUrl w = (Returned tempServer, w1) ->
  exists filename h,
    server_url tempServer
    = stripTrailingSlashes baseUrl ++ TMP_VIDEO_PREFIX ++ filename
    /\ (forall req,
          url req = TMP_VIDEO_PREFIX ++ filename ->
          isGetOrHead (method req) = true ->
          emitRequest (activeVideos w1) (serverListeners w1) req
          = [Served (serveBuffer req buffer)])
    /\ (forall req,
          url req = TMP_VIDEO_PREFIX ++ filename ->
          emitRequest (activeVideos (close tempServer w1).2)
            (serverListeners (close tempServer w1).2) req
          = [PassedTo h req])
    /\ activeVideos (close tempServer (close tempServer w1).2).2
       = activeVideos (close tempServer w1).2.
Proof.
  intros Hinv Hs.
  destruct (startTempVideoServer_returns env buffer baseUrl w w1 tempServer Hs)
    as (Hurl & Hclose & Hav & _).
  destruct (startTempVideoServer_keeps_invariant env buffer baseUrl w w1
              tempServer Hinv Hs) as [_ [h Hsrv]].
  exists (randomUUID env (uuidCalls w) ++ js ".mp4"), h.
  split; [exact Hurl|]. rewrite Hclose.
  unfold serverListeners, emitRequest, closeVideo. cbn [snd].
  unfold addEvent, setActiveVideos. cbn [activeVideos n8nServer].
  rewrite Hsrv, Hav.
  change (default [] (Some [Interceptor (HostHandler h)]))
    with [Interceptor (HostHandler h)].
  cbn [map]. split; [|split].
  - intros req Hu Hm. f_equal.
    apply (interceptor_serves _ _ (randomUUID env (uuidCalls w) ++ js ".mp4"));
      [exact Hu | exact Hm | apply lookup_insert_eq].
  - intros req Hu. cbn [callListener].
    rewrite Hu, startsWith_app, drop_app_length, lookup_delete_eq.
    destruct (isGetOrHead (method req)); reflexivity.
  - rewrite delete_delete_eq. reflexivity.
Qed.

Lemma registration_round_trip_witness :
  let env := publishEnv (fun _ => published) in
  exists tempServer w1 filename h,
    startTempVideoServer env ["001"%byte] (js "https://n8n.example//") hostWorld
    = (Returned tempServer, w1)
    /\ server_url tempServer
       = stripTrailingSlashes (js "https://n8n.example//")
           ++ TMP_VIDEO_PREFIX ++ filename
    /\ (forall req,
          url req = TMP_VIDEO_PREFIX ++ filename ->
          isGetOrHead (method req) = true ->
          emitRequest (activeVideos w1) (serverListeners w1) req
          = [Served (serveBuffer req ["001"%byte])])
    /\ (forall req,
          url req = TMP_VIDEO_PREFIX ++ filename ->
          emitRequest (activeVideos (close tempServer w1).2)
            (serverListeners (close tempServer w1).2) req
          = [PassedTo h req])
    /\ activeVideos (close tempServer (close tempServer w1).2).2
       = activeVideos (close tempServer w1).2.
Proof.
  intros env.
  assert (Hs : exists tempServer w1,
            startTempVideoServer env ["001"%byte] (js "https://n8n.example//")
              hostWorld = (Returned tempServer, w1)).
  { eexists _, _. lazy -[insert delete]. reflexivity. }
  destruct Hs as (tempServer & w1 & Hs).
  destruct (registration_round_trip env ["001"%byte]
              (js "https://n8n.example//") hostWorld w1 tempServer
              (processStart_invariant (Some [0%nat])) Hs) as (filename & h & H).
  exists tempServer, w1, filename, h. split; [exact Hs | exact H].
Defined.

(** X6.  [startTempVideoServer] fails in two cases only: no listening
    server is found, or the interceptor is not installed yet and the server
    has no request listener.  It then throws the message of that case and
    leaves the world as it was: nothing is registered and no interceptor is
    installed.  In every other case it returns. *)
Theorem startTempVideoServer_failure (env : Env) (buffer : list byte)
    (baseUrl : list ascii) (w : World) :
  match startTempVideoServer env buffer baseUrl w with
  | (Thrown e, w') =>
      w' = w
      /\ (n8nServer w = None
          /\ e = js "Could not find n8n's HTTP server. Ensure the node is running inside n8n."
          \/ n8nServer w = Some [] /\ interceptorInstalled w = false
             /\ e = js "No request handlers found on n8n HTTP server")
  | (Returned _, w') =>
      interceptorInstalled w' = true
      /\ exists listeners,
           n8nServer w = Some listeners
           /\ (interceptorInstalled w = true \/ listeners <> [])
  | (OutOfFuel, _) => False
  end.
Proof.
  unfold startTempVideoServer.
  destruct (n8nServer w) as [listeners|] eqn:Hs.
  - unfold mbind, M_bind, installInterceptor.
    destruct (interceptorInstalled w) eqn:Hf.
    + cbn. rewrite Hf. split; [reflexivity|]. exists listeners.
      split; [reflexivity | left; reflexivity].
    + destruct listeners as [|originalHandler rest]; cbn.
      * split; [reflexivity|]. right. repeat split.
      * split; [reflexivity|]. exists (originalHandler :: rest).
        split; [reflexivity | right; discriminate].
  - split; [reflexivity|]. left. split; reflexivity.
Qed.

(** X7.  Two registrations, one after the other, under file names that
    differ: both files are served while both are registered, and after the
    [close] of the first the second is still served with its own buffer
    while a request for the first goes to the host. *)
Theorem registrations_do_not_interfere (env : Env) (b1 b2 : list byte)
    (base1 base2 : list ascii) (w w1 w2 : World) (t1 t2 : TempVideoServer) :
  interceptorInvariant w ->
  startTempVideoServer env b1 base1 w = (Returned t1, w1) ->
  startTempVideoServer env b2 base2 w1 = (Returned t2, w2) ->
  randomUUID env (uuidCalls w) <> randomUUID env (S (uuidCalls w)) ->
  exists f1 f2 h,
    server_url t1 = stripTrailingSlashes base1 ++ TMP_VIDEO_PREFIX ++ f1
    /\ server_url t2 = stripTrailingSlashes base2 ++ TMP_VIDEO_PREFIX ++ f2
    /\ (forall req, isGetOrHead (method req) = true ->
          (url req = TMP_VIDEO_PREFIX ++ f1 ->
           emitRequest (activeVideos w2) (serverListeners w2) req
           = [Served (serveBuffer req b1)])
          /\ (url req = TMP_VIDEO_PREFIX ++ f2 ->
              emitRequest (activeVideos w2) (serverListeners w2) req
              = [Served (serveBuffer req b2)]))
    /\ (forall req, isGetOrHead (method req) = true ->
          let w3 := (close t1 w2).2 in
          (url req = TMP_VIDEO_PREFIX ++ f1 ->
           emitRequest (activeVideos w3) (serverListeners w3) req
           = [PassedTo h req])
          /\ (url req = TMP_VIDEO_PREFIX ++ f2 ->
              emitRequest (activeVideos w3) (serverListeners w3) req
              = [Served (serveBuffer req b2)])).
Proof.
  intros Hinv H1 H2 Hne.
  destruct (startTempVideoServer_returns env b1 base1 w w1 t1 H1)
    as (Hu1 & Hc1 & Hav1 & Hn1 & _).
  destruct (startTempVideoServer_returns env b2 base2 w1 w2 t2 H2)
    as (Hu2 & Hc2 & Hav2 & _).
  destruct (startTempVideoServer_keeps_invariant env b1 base1 w w1 t1 Hinv H1)
    as [Hinv1 _].
  destruct (startTempVideoServer_keeps_invariant env b2 base2 w1 w2 t2 Hinv1 H2)
    as [_ [h Hsrv]].
  rewrite Hn1 in Hu2, Hc2, Hav2.
  set (f1 := randomUUID env (uuidCalls w) ++ js ".mp4") in *.
  set (f2 := randomUUID env (S (uuidCalls w)) ++ js ".mp4") in *.
  assert (Hf : f1 <> f2).
  { unfold f1, f2. intros H. apply Hne. exact (app_inv_tail _ _ _ H). }
  exists f1, f2, h. split; [exact Hu1|]. split; [exact Hu2|].
  rewrite Hc1. unfold serverListeners, emitRequest, closeVideo. cbn [snd].
  unfold addEvent, setActiveVideos. cbn [activeVideos n8nServer].
  rewrite Hsrv, Hav2, Hav1.
  change (default [] (Some [Interceptor (HostHandler h)]))
    with [Interceptor (HostHandler h)].
  cbn [map]. split.
  - intros req Hm. split; intros Hu; f_equal.
    + apply (interceptor_serves _ _ f1); [exact Hu | exact Hm |].
      rewrite lookup_insert_ne by congruence. apply lookup_insert_eq.
    + apply (interceptor_serves _ _ f2); [exact Hu | exact Hm |].
      apply lookup_insert_eq.
  - intros req Hm. split; intros Hu; f_equal.
    + cbn [callListener].
      rewrite Hu, startsWith_app, Hm, drop_app_length, lookup_delete_eq.
      reflexivity.
    + apply (interceptor_serves _ _ f2); [exact Hu | exact Hm |].
      rewrite lookup_delete_ne by congruence. apply lookup_insert_eq.
Qed.

Lemma registrations_do_not_interfere_witness :
  let env := publishEnv (fun _ => published) in
  exists t1 w1 t2 w2,
    startTempVideoServer env ["001"%byte] (js "https://n8n.example") hostWorld
    = (Returned t1, w1)
    /\ startTempVideoServer env ["002"%byte] (js "https://n8n.example") w1
       = (Returned t2, w2)
    /\ server_url t1 = js "https://n8n.example/tmp-video/uuid0.mp4"
    /\ server_url t2 = js "https://n8n.example/tmp-video/uuid1.mp4"
    /\ exists f2,
         forall req, isGetOrHead (method req) = true ->
           url req = TMP_VIDEO_PREFIX ++ f2 ->
           emitRequest (activeVideos (close t1 w2).2)
             (serverListeners (close t1 w2).2) req
           = [Served (serveBuffer req ["002"%byte])].
Proof.
  intros env.
  assert (Hs1 : exists t1 w1,
            startTempVideoServer env ["001"%byte] (js "https://n8n.example")
              hostWorld = (Returned t1, w1)
            /\ server_url t1 = js "https://n8n.example/tmp-video/uuid0.mp4").
  { eexists _, _. split; [lazy -[insert delete]; reflexivity | reflexivity]. }
  destruct Hs1 as (t1 & w1 & Hs1 & Hu1).
  assert (Hs2 : exists t2 w2,
            startTempVideoServer env ["002"%byte] (js "https://n8n.example") w1
            = (Returned t2, w2)
            /\ server_url t2 = js "https://n8n.example/tmp-video/uuid1.mp4").
  { destruct (startTempVideoServer_returns _ _ _ _ _ _ Hs1)
      as (_ & _ & _ & Hn & Hf & (ls & o & Hl & _)).
    destruct (startTempVideoServer_keeps_invariant _ _ _ _ _ _
                (processStart_invariant (Some [0%nat])) Hs1) as [_ [h Hsrv]].
    unfold startTempVideoServer, mbind, M_bind, installInterceptor.
    rewrite Hsrv, Hf. cbn. rewrite Hn. eexists _, _. split; reflexivity. }
  destruct Hs2 as (t2 & w2 & Hs2 & Hu2).
  destruct (registrations_do_not_interfere env ["001"%byte] ["002"%byte]
              (js "https://n8n.example") (js "https://n8n.example")
              hostWorld w1 w2 t1 t2 (processStart_invariant (Some [0%nat]))
              Hs1 Hs2) as (f1 & f2 & h & _ & _ & _ & H).
  - discriminate.
  - exists t1, w1, t2, w2. repeat (split; [assumption|]).
    exists f2. intros req Hm Hu. apply (H req Hm). exact Hu.
Defined.

(** ** The loops, whatever the collaborators do *)

Lemma sleptMs_app (a b : list Event) : sleptMs (a ++ b) = sleptMs a + sleptMs b.
Proof.
  induction a as [|e a IH]; [reflexivity|].
  destruct e; cbn [app sleptMs]; rewrite IH; lia.
Qed.

(** From any attempt on, the calls of the loop are attempts separated by the
    delays that follow, as many as it went through. *)
Lemma publishAttempts_trace (env : Env) (cid : list ascii) (fuel : nat) :
  forall (attempt : nat) (w : World),
  (length delays - attempt < fuel)%nat ->
  exists k,
    (k <= length delays - attempt)%nat
    /\ (publishAttempts env cid fuel attempt w).2
       = advance (retryTrace cid (take k (drop attempt delays))) 0 (S k) w.
Proof.
  induction fuel as [|fuel IH]; intros attempt w Hf; [lia|].
  cbn [publishAttempts]. unfold mbind at 1, M_bind at 1.
  rewrite publishIgContainerCall_run.
  assert (Hstop : exists k,
            (k <= length delays - attempt)%nat
            /\ advance [EvPublishIgContainer cid] 0 1 w
               = advance (retryTrace cid (take k (drop attempt delays))) 0
                   (S k) w).
  { exists 0%nat. split; [lia | reflexivity]. }
  destruct (publishIgContainer env (publishCalls w) cid) as [r|e];
    [|exact Hstop].
  destruct (isSuccess r); [exact Hstop|].
  destruct (isClientError r); [exact Hstop|].
  destruct (length delays <=? attempt)%nat eqn:E.
  - exact Hstop.
  - apply Nat.leb_gt in E.
    erewrite bind_returned by apply sleep_run.
    rewrite advance_advance.
    match goal with
    | |- context [publishAttempts env cid fuel (S attempt) ?w1] =>
        destruct (IH (S attempt) w1 ltac:(lia)) as (k & Hk & Hw)
    end.
    exists (S k). split; [lia|]. rewrite Hw, advance_advance.
    destruct (lookup_lt_is_Some_2 delays attempt E) as [d Hd].
    rewrite (drop_S _ _ _ Hd), (nth_lookup_Some _ _ 0 _ Hd).
    cbn [take]. unfold retryTrace. cbn [flat_map].
    rewrite <- !app_assoc. f_equal. lia.
Qed.

Lemma sleptMs_retryTrace (cid : list ascii) (waited : list Z) :
  sleptMs (retryTrace cid waited) = foldr Z.add 0 waited.
Proof.
  unfold retryTrace. induction waited as [|d waited IH]; [reflexivity|].
  cbn [flat_map app sleptMs foldr]. rewrite IH. reflexivity.
Qed.

Lemma countPublish_retryTrace (cid : list ascii) (waited : list Z) :
  countEvents isPublishCall (retryTrace cid waited) = S (length waited).
Proof.
  unfold retryTrace, countEvents.
  induction waited as [|d waited IH]; [reflexivity|].
  cbn [flat_map app List.filter isPublishCall length]. rewrite IH. reflexivity.
Qed.

(** X8.  Whatever the publish call does, answer or throw, the operation
    ends, and its calls are attempts separated by the first delays in
    order: at most six attempts, and at most 15000 ms slept in all. *)
Theorem publish_always_bounded (env : Env) (cid : list ascii) (w : World) :
  exists k,
    (k <= 5)%nat
    /\ (publishIgContainerWithRetry env cid w).2
       = advance (retryTrace cid (take k delays)) 0 (S k) w
    /\ (publishIgContainerWithRetry env cid w).1 <> OutOfFuel
    /\ countEvents isPublishCall (retryTrace cid (take k delays)) = S k
    /\ sleptMs (retryTrace cid (take k delays)) <= 15000.
Proof.
  destruct (publishAttempts_trace env cid (S (length delays)) 0 w) as (k & Hk & Hw);
    [cbn; lia|].
  cbn in Hk. exists k. split; [lia|]. split; [exact Hw|].
  split; [apply publishIgContainerWithRetry_terminates|].
  rewrite countPublish_retryTrace, sleptMs_retryTrace. split.
  - rewrite length_take. change (length delays) with 5%nat.
    rewrite Nat.min_l by exact Hk. reflexivity.
  - assert (Hcases : (k = 0 \/ k = 1 \/ k = 2 \/ k = 3 \/ k = 4 \/ k = 5)%nat)
      by lia.
    destruct Hcases as [-> | [-> | [-> | [-> | [-> | ->]]]]]; cbn; lia.
Qed.

(** X9.  An exception of the publish call is not retried: after [n]
    responses of the retried kind, a call that throws makes the operation
    throw that error at once; nothing is slept or called after it. *)
Theorem publish_exception_not_retried (env : Env) (cid : list ascii)
    (w : World) (rs : nat -> FullResponse) (n : nat) (e : list ascii) :
  (forall i, (i < n)%nat ->
     publishIgContainer env (publishCalls w + i) cid = Resolved (rs i)
     /\ isTransient (rs i) = true) ->
  (n <= 5)%nat ->
  publishIgContainer env (publishCalls w + n) cid = Rejected e ->
  publishIgContainerWithRetry env cid w
  = (Thrown e, advance (retryTrace cid (take n delays)) 0 (S n) w).
Proof.
  intros Hrs Hn He. unfold publishIgContainerWithRetry.
  replace (S (length delays)) with (n + S (length delays - n))%nat
    by (cbn; lia).
  rewrite (publishAttempts_transients env cid rs n _ 0%nat w Hrs)
    by (cbn; lia).
  cbn [publishAttempts Nat.add].
  erewrite bind_thrown; cycle 1.
  - rewrite publishIgContainerCall_run. cbn [advance publishCalls].
    rewrite (Nat.add_comm n), He. reflexivity.
  - rewrite advance_advance. reflexivity.
Qed.

Lemma publish_exception_not_retried_witness :
  let env :=
    scenario (Resolved published) (Resolved (js "container-2"))
      (Resolved (js "reel-1")) (fun _ => Resolved (statusOf (js "FINISHED")))
      (fun i => if (i <? 2)%nat then Resolved unavailable
                else Rejected (js "socket hang up"))
      (Resolved (js "video-1")) (Resolved tt) in
  publishIgContainerWithRetry env (js "c1") hostWorld
  = (Thrown (js "socket hang up"),
     advance [EvPublishIgContainer (js "c1"); EvSleep 1000;
              EvPublishIgContainer (js "c1"); EvSleep 2000;
              EvPublishIgContainer (js "c1")] 0 3 hostWorld).
Proof.
  intros env.
  apply (publish_exception_not_retried env (js "c1") hostWorld
           (fun _ => unavailable) 2).
  - intros i Hi. destruct i as [|[|i]]; [split; reflexivity.. | lia].
  - lia.
  - reflexivity.
Defined.

(** X10.  An exception of the status call ends the polling: after [n]
    statuses that are not terminal, a status call that throws makes
    [pollIgContainer] throw that error at that poll. *)
Theorem poll_exception_propagates (env : Env) (cid : list ascii) (w : World)
    (sts : nat -> IgStatusResponse) (n : nat) (e : list ascii) :
  (forall i, (i < n)%nat ->
     getIgContainerStatus env (statusCalls w + i) cid = Resolved (sts i)
     /\ isTerminal (sts i) = false) ->
  (n < 30)%nat ->
  getIgContainerStatus env (statusCalls w + n) cid = Rejected e ->
  pollIgContainer env cid w
  = (Thrown e, advance (pollTrace cid (S n)) (S n) 0 w).
Proof.
  intros Hs Hn He. unfold pollIgContainer.
  replace maxPolls with (n + S (29 - n))%nat by (unfold maxPolls; lia).
  rewrite (pollPasses_waiting env cid sts n _ w Hs).
  cbn [pollPasses].
  erewrite bind_returned by apply sleep_run.
  erewrite bind_thrown; cycle 1.
  - rewrite getIgContainerStatusCall_run. cbn [advance statusCalls Nat.add].
    rewrite (Nat.add_comm n), He. reflexivity.
  - rewrite !advance_advance.
    change ([EvSleep pollInterval] ++ [EvGetIgContainerStatus cid])
      with [EvSleep pollInterval; EvGetIgContainerStatus cid].
    rewrite pollTrace_end. reflexivity.
Qed.

Lemma poll_exception_propagates_witness :
  let env :=
    scenario (Resolved published) (Resolved (js "container-2"))
      (Resolved (js "reel-1"))
      (fun i => if (i <? 1)%nat then Resolved (statusOf (js "IN_PROGRESS"))
                else Rejected (js "Request failed with status code 500"))
      (fun _ => Resolved published) (Resolved (js "video-1")) (Resolved tt) in
  pollIgContainer env (js "c1") hostWorld
  = (Thrown (js "Request failed with status code 500"),
     advance (pollTrace (js "c1") 2) 2 0 hostWorld).
Proof.
  intros env.
  apply (poll_exception_propagates env (js "c1") hostWorld
           (fun _ => statusOf (js "IN_PROGRESS")) 1).
  - intros i Hi. destruct i; [split; reflexivity | lia].
  - lia.
  - reflexivity.
Defined.


(** ** The video flow after its first-destination leg *)

(** The video flow once its first-destination leg has returned: the close,
    then the await of the upload and the permalink. *)
Lemma handleVideo_leg_returned (env : Env) (params : MetaPostParams)
    (caption : list ascii) (w w1 w2 : World)
    (videoBuffer convertedBuffer : list byte) (tempServer : TempVideoServer)
    (filename igPost : list ascii) :
  downloadMedia env (mediaUrl params) = Resolved videoBuffer ->
  convertVideo env videoBuffer (videoOptions params) = Resolved convertedBuffer ->
  startTempVideoServer env convertedBuffer (getInstanceBaseUrl env)
    (advance [EvDownloadMedia (mediaUrl params);
              EvConvertVideo (videoOptions params)] 0 0 w)
  = (Returned tempServer, w1) ->
  close tempServer = closeVideo filename ->
  igReelLeg env (server_url tempServer) caption
    (advance [EvUploadFbVideoFromBuffer convertedBuffer (js "video.mp4")
                caption true] 0 0 w1)
  = (Returned igPost, w2) ->
  handleVideo env params caption w
  = (fbVideo ← await (uploadFbVideoFromBuffer env convertedBuffer
                        (js "video.mp4") caption true);
     igPermalink ← (log (EvGetIgPermalink igPost);;
                    await (getIgPermalink env igPost));
     mret {| instagram_post_id := igPost;
             instagram_permalink := igPermalink;
             facebook_post_id := facebookPageId params ++ js "_" ++ fbVideo;
             facebook_photo_id := None;
             facebook_video_id := Some fbVideo |}) (released filename w2).
Proof.
  intros Hd Hc Hserve Hclose Hleg. unfold handleVideo.
  call_returns Hd.
  call_returns Hc.
  rewrite advance_advance.
  erewrite bind_returned by exact Hserve.
  erewrite bind_returned by apply startUpload_run.
  erewrite bind_returned; cycle 1.
  { eapply tryFinally_run.
    - eapply tryCatch_returned. exact Hleg.
    - rewrite Hclose. apply closeVideo_run. }
  reflexivity.
Qed.

(** The video flow ends. *)
Lemma handleVideo_terminates (env : Env) (params : MetaPostParams)
    (caption : list ascii) (w : World) :
  (handleVideo env params caption w).1 <> OutOfFuel.
Proof.
  destruct (downloadMedia env (mediaUrl params)) as [videoBuffer|e] eqn:Hd;
    [|rewrite (handleVideo_before_upload env params caption w e Hd);
      discriminate].
  destruct (convertVideo env videoBuffer (videoOptions params))
    as [convertedBuffer|e] eqn:Hc;
    [|rewrite (handleVideo_transcoding_failed env params caption w videoBuffer
                 e Hd Hc); discriminate].
  destruct (startTempVideoServer_shape env convertedBuffer
              (getInstanceBaseUrl env)
              (advance [EvDownloadMedia (mediaUrl params);
                        EvConvertVideo (videoOptions params)] 0 0 w))
    as [[e He] | (filename & pre & tempServer & w1 & Hs & Hclose & _)].
  - rewrite (handleVideo_registration_failed env params caption w _ videoBuffer
               convertedBuffer e Hd Hc He). discriminate.
  - destruct (igReelLeg env (server_url tempServer) caption
                (advance [EvUploadFbVideoFromBuffer convertedBuffer
                            (js "video.mp4") caption true] 0 0 w1))
      as [r w2] eqn:Hleg.
    destruct (igReelLeg_shape _ _ _ _ _ _ Hleg) as (_ & _ & _ & _ & _ & Hr).
    destruct r as [igPost|error|]; [| |contradiction].
    + rewrite (handleVideo_leg_returned env params caption w w1 w2 videoBuffer
                 convertedBuffer tempServer filename igPost Hd Hc Hs Hclose
                 Hleg).
      unfold mbind, M_bind, await, log.
      destruct (uploadFbVideoFromBuffer env convertedBuffer (js "video.mp4")
                  caption true); [|discriminate].
      cbn. destruct (getIgPermalink env igPost); discriminate.
    + rewrite (handleVideo_leg_thrown env params caption w w1 w2 videoBuffer
                 convertedBuffer tempServer filename error Hd Hc Hs Hclose
                 Hleg). discriminate.
Qed.

(** X11.  Once the container is created, processed and published, the video
    flow closes the served file and only then looks at the upload: a
    rejected upload, or a rejected permalink call, is thrown as it is; else
    the result carries the post, its permalink, the video id, and
    [<page id>_<video id>] as the post of the second destination.  In none
    of the three cases is a delete call made: the post that is published
    stays. *)
Theorem handleVideo_after_leg (env : Env) (params : MetaPostParams)
    (caption : list ascii) (w w1 w2 : World)
    (videoBuffer convertedBuffer : list byte) (tempServer : TempVideoServer)
    (igPost : list ascii) :
  downloadMedia env (mediaUrl params) = Resolved videoBuffer ->
  convertVideo env videoBuffer (videoOptions params) = Resolved convertedBuffer ->
  startTempVideoServer env convertedBuffer (getInstanceBaseUrl env)
    (advance [EvDownloadMedia (mediaUrl params);
              EvConvertVideo (videoOptions params)] 0 0 w)
  = (Returned tempServer, w1) ->
  igReelLeg env (server_url tempServer) caption
    (advance [EvUploadFbVideoFromBuffer convertedBuffer (js "video.mp4")
                caption true] 0 0 w1)
  = (Returned igPost, w2) ->
  let w3 := (close tempServer w2).2 in
  handleVideo env params caption w
  = match uploadFbVideoFromBuffer env convertedBuffer (js "video.mp4") caption
            true with
    | Rejected e => (Thrown e, w3)
    | Resolved fbVideo =>
        (match getIgPermalink env igPost with
         | Rejected e => Thrown e
         | Resolved permalink =>
             Returned
               {| instagram_post_id := igPost;
                  instagram_permalink := permalink;
                  facebook_post_id := facebookPageId params ++ js "_" ++ fbVideo;
                  facebook_photo_id := None;
                  facebook_video_id := Some fbVideo |}
         end, advance [EvGetIgPermalink igPost] 0 0 w3)
    end
  /\ List.filter isDelete (trace (handleVideo env params caption w).2)
     = List.filter isDelete (trace w).
Proof.
  intros Hd Hc Hserve Hleg w3.
  destruct (startTempVideoServer_shape env convertedBuffer
              (getInstanceBaseUrl env)
              (advance [EvDownloadMedia (mediaUrl params);
                        EvConvertVideo (videoOptions params)] 0 0 w))
    as [[e He] | (filename & pre & ts & w1' & Hs & Hclose & Hpre & Htr & _)];
    [congruence|].
  rewrite Hserve in Hs. injection Hs as <- <-.
  pose proof (handleVideo_leg_returned env params caption w w1 w2 videoBuffer
                convertedBuffer tempServer filename igPost Hd Hc Hserve Hclose
                Hleg) as Hrun.
  assert (Hw3 : released filename w2 = w3)
    by (unfold w3; rewrite Hclose; reflexivity).
  rewrite Hw3 in Hrun.
  assert (Hdel : List.filter isDelete (trace w3)
                 = List.filter isDelete (trace w)).
  { destruct (igReelLeg_shape _ _ _ _ _ _ Hleg)
      as (evs & st & pb & Hw2 & Hevs & _).
    unfold w3. rewrite Hclose, Hw2. cbn [closeVideo snd addEvent
      setActiveVideos advance trace]. rewrite Htr. cbn [advance trace].
    rewrite !List.filter_app.
    rewrite (filter_leg_events isDelete evs legEvent_not_delete Hevs).
    destruct Hpre as [-> | ->]; cbn; rewrite ?app_nil_r; reflexivity. }
  rewrite Hrun.
  destruct (uploadFbVideoFromBuffer env convertedBuffer (js "video.mp4")
              caption true) as [fbVideo|e].
  - erewrite bind_returned by reflexivity.
    destruct (getIgPermalink env igPost) as [permalink|e] eqn:Hp.
    + erewrite bind_returned by (rewrite call_run; reflexivity).
      split; [reflexivity|].
      cbn [snd mret M_ret advance trace]. rewrite List.filter_app, Hdel.
      cbn. apply app_nil_r.
    + erewrite bind_thrown by (rewrite call_run; reflexivity).
      split; [reflexivity|].
      cbn [snd advance trace]. rewrite List.filter_app, Hdel.
      cbn. apply app_nil_r.
  - erewrite bind_thrown by reflexivity.
    split; [reflexivity | exact Hdel].
Qed.

Lemma handleVideo_after_leg_witness :
  let env := videoEnv (Resolved (js "reel-1"))
               (fun _ => statusOf (js "FINISHED")) (fun _ => published)
               (Rejected (js "upload failed")) (Resolved tt) in
  (handleVideo env someParams (js "hi") hostWorld).1
  = Thrown (js "upload failed")
  /\ List.filter isDelete
       (trace (handleVideo env someParams (js "hi") hostWorld).2) = [].
Proof.
  intros env.
  edestruct (handleVideo_after_leg env someParams (js "hi") hostWorld)
    as [H1 H2].
  - reflexivity.
  - reflexivity.
  - lazy -[insert delete]. reflexivity.
  - lazy -[insert delete]. reflexivity.
  - split; [rewrite H1; reflexivity | exact H2].
Defined.

Lemma sleptMs_pollTrace (cid : list ascii) (n : nat) :
  sleptMs (pollTrace cid n) = Z.of_nat n * pollInterval.
Proof.
  induction n as [|n IH]; [reflexivity|].
  rewrite pollTrace_S, sleptMs_app, IH. cbn [sleptMs]. lia.
Qed.

Lemma countPublish_pollTrace (cid : list ascii) (n : nat) :
  countEvents isPublishCall (pollTrace cid n) = 0%nat.
Proof.
  unfold countEvents. induction n as [|n IH]; [reflexivity|].
  rewrite pollTrace_S, List.filter_app, length_app, IH. reflexivity.
Qed.

(** X12.  A video whose container is created but whose status stays
    non-terminal through thirty reads: the flow throws the time-out error
    unchanged after 300000 ms of waiting, has made no publish call, has
    deleted the upload if it gave an id, and has closed the served file. *)
Theorem handleVideo_times_out (env : Env) (params : MetaPostParams)
    (caption : list ascii) (w w1 : World)
    (videoBuffer convertedBuffer : list byte) (tempServer : TempVideoServer)
    (cid : list ascii) (sts : nat -> IgStatusResponse) :
  downloadMedia env (mediaUrl params) = Resolved videoBuffer ->
  convertVideo env videoBuffer (videoOptions params) = Resolved convertedBuffer ->
  startTempVideoServer env convertedBuffer (getInstanceBaseUrl env)
    (advance [EvDownloadMedia (mediaUrl params);
              EvConvertVideo (videoOptions params)] 0 0 w)
  = (Returned tempServer, w1) ->
  createIgReelContainer env (server_url tempServer) caption = Resolved cid ->
  (forall i, (i < 30)%nat ->
     getIgContainerStatus env (statusCalls w1 + i) cid = Resolved (sts i)
     /\ isTerminal (sts i) = false) ->
  let upload :=
    uploadFbVideoFromBuffer env convertedBuffer (js "video.mp4") caption true in
  let w' := (handleVideo env params caption w).2 in
  (handleVideo env params caption w).1 = Thrown pollingTimedOut
  /\ w' = (close tempServer
             (advance
                ([EvUploadFbVideoFromBuffer convertedBuffer (js "video.mp4")
                    caption true;
                  EvCreateIgReelContainer (server_url tempServer) caption]
                 ++ pollTrace cid 30 ++ deletionsFor upload) 30 0 w1)).2
  /\ countEvents isPublishCall (trace w') = countEvents isPublishCall (trace w)
  /\ sleptMs (trace w') = sleptMs (trace w) + 300000
  /\ List.filter isDelete (trace w')
     = List.filter isDelete (trace w) ++ deletionsFor upload.
Proof.
  intros Hd Hc Hserve Hcreate Hsts upload w'.
  destruct (startTempVideoServer_shape env convertedBuffer
              (getInstanceBaseUrl env)
              (advance [EvDownloadMedia (mediaUrl params);
                        EvConvertVideo (videoOptions params)] 0 0 w))
    as [[e He] | (filename & pre & ts & w1' & Hs & Hclose & Hpre & Htr & _)];
    [congruence|].
  rewrite Hserve in Hs. injection Hs as <- <-.
  set (wu := advance [EvUploadFbVideoFromBuffer convertedBuffer
                        (js "video.mp4") caption true] 0 0 w1).
  assert (Hleg : igReelLeg env (server_url tempServer) caption wu
                 = (Thrown pollingTimedOut,
                    advance
                      ([EvCreateIgReelContainer (server_url tempServer) caption]
                       ++ pollTrace cid 30) 30 0 wu)).
  { unfold igReelLeg.
    call_returns Hcreate.
    erewrite bind_thrown; [reflexivity|].
    unfold pollIgContainer.
    change maxPolls with (30 + 0)%nat.
    rewrite (pollPasses_waiting env cid sts 30 0
               (advance
                  [EvCreateIgReelContainer (server_url tempServer) caption]
                  0 0 wu) Hsts).
    cbn [pollPasses throw]. rewrite advance_advance. reflexivity. }
  pose proof (handleVideo_leg_thrown env params caption w w1 _ videoBuffer
                convertedBuffer tempServer filename _ Hd Hc Hserve Hclose Hleg)
    as Hrun.
  change (rethrown pollingTimedOut) with pollingTimedOut in Hrun.
  fold upload in Hrun. unfold wu in Hrun. rewrite !advance_advance in Hrun.
  unfold w'. rewrite Hrun. cbn [fst snd]. rewrite Hclose.
  cbn [closeVideo snd]. fold (released filename).
  split; [reflexivity|]. split.
  { cbn [app]. rewrite <- ?app_assoc. reflexivity. }
  unfold released, setActiveVideos. cbn [advance trace]. rewrite Htr.
  cbn [advance trace].
  split; [|split].
  - unfold countEvents. rewrite !List.filter_app, !length_app.
    fold (countEvents isPublishCall (pollTrace cid 30)).
    rewrite countPublish_pollTrace.
    destruct Hpre as [-> | ->]; destruct upload; cbn; lia.
  - rewrite !sleptMs_app, sleptMs_pollTrace.
    change (Z.of_nat 30 * pollInterval) with 300000.
    destruct Hpre as [-> | ->]; destruct upload; cbn; lia.
  - rewrite !List.filter_app.
    rewrite (filter_leg_events isDelete (pollTrace cid 30) legEvent_not_delete).
    + rewrite deletionsFor_filter.
      destruct Hpre as [-> | ->]; cbn; rewrite ?app_nil_r; reflexivity.
    + unfold pollTrace. apply Forall_concat, Forall_replicate.
      repeat constructor.
Qed.

Lemma handleVideo_times_out_witness :
  let env := videoEnv (Resolved (js "reel-1"))
               (fun _ => statusOf (js "IN_PROGRESS")) (fun _ => published)
               (Resolved (js "video-1")) (Resolved tt) in
  let w' := (handleVideo env someParams (js "hi") hostWorld).2 in
  (handleVideo env someParams (js "hi") hostWorld).1 = Thrown pollingTimedOut
  /\ countEvents isPublishCall (trace w') = 0%nat
  /\ sleptMs (trace w') = 300000
  /\ List.filter isDelete (trace w') = [EvDeleteFbVideo (js "video-1")].
Proof.
  intros env w'.
  edestruct (handleVideo_times_out env someParams (js "hi") hostWorld)
    as (H1 & _ & H2 & H3 & H4).
  - reflexivity.
  - reflexivity.
  - lazy -[insert delete]. reflexivity.
  - reflexivity.
  - intros i _. split; reflexivity.
  - split; [exact H1|]. split; [exact H2|]. split; [exact H3 | exact H4].
Defined.

(** ** The image flow, whatever the collaborators do *)

Lemma filter_none (kind inside : Event -> bool) (evs : list Event) :
  (forall e, inside e = true -> kind e = false) ->
  Forall (fun e => inside e = true) evs ->
  List.filter kind evs = [].
Proof.
  intros Hk H. induction H as [|e evs He _ IH]; [reflexivity|].
  cbn. rewrite (Hk e He). exact IH.
Qed.

Lemma retryTrace_events (cid : list ascii) (waited : list Z) :
  Forall (fun e => isPublishImageEvent e = true) (retryTrace cid waited).
Proof.
  unfold retryTrace. apply Forall_app. split; [|repeat constructor].
  induction waited as [|d waited IH]; [constructor|].
  cbn [flat_map app]. repeat constructor. exact IH.
Qed.

Ltac ends_with_calls :=
  cbn [mret M_ret throw]; rewrite ?advance_advance;
  (let H := fresh in intros H; injection H as <- <-); eexists;
  (split; [reflexivity|]);
  (split; [repeat constructor|]);
  (split; [cbn; lia | discriminate]).

(** Steps 1 and 2 end, with calls of their own only, one transcoding at
    most among them. *)
Lemma imageContainer_shape (env : Env) (params : MetaPostParams)
    (caption : list ascii) (w w' : World)
    (r : Result (list ascii * list ascii)) :
  imageContainer env params caption w = (r, w') ->
  exists evs,
    w' = advance evs 0 0 w
    /\ Forall (fun e => isFallbackEvent e = true) evs
    /\ (countEvents isTranscode evs <= 1)%nat
    /\ r <> OutOfFuel.
Proof.
  unfold imageContainer.
  unfold mbind at 1, M_bind at 1. rewrite call_run.
  destruct (tryCreateIgImageContainer env (mediaUrl params) caption)
    as [resp|e]; [|ends_with_calls].
  destruct (isSuccess resp); [ends_with_calls|].
  destruct (negb (isFormatError resp)); [ends_with_calls|].
  unfold mbind at 1, M_bind at 1. rewrite call_run.
  destruct (downloadMedia env (mediaUrl params)) as [imageBuffer|e];
    [|ends_with_calls].
  cbv zeta. unfold mbind at 1, M_bind at 1. rewrite call_run.
  destruct (convertImage env imageBuffer (imageOptions params))
    as [convertedBuffer|e]; [|ends_with_calls].
  unfold mbind at 1, M_bind at 1. rewrite call_run.
  destruct (uploadFbPhotoFromBuffer env convertedBuffer _ _ false)
    as [fbPhoto|e]; [|ends_with_calls].
  unfold mbind at 1, M_bind at 1. rewrite call_run.
  destruct (getFbPhotoImages env fbPhoto) as [photoImages|e];
    [|ends_with_calls].
  destruct (negb (truthy (default [] (head (images photoImages)))));
    [ends_with_calls|].
  unfold mbind at 1, M_bind at 1. rewrite call_run.
  destruct (createIgImageContainer env _ caption); ends_with_calls.
Qed.

Ltac ends_with_publish Hevs :=
  cbn [mret M_ret throw]; rewrite ?advance_advance;
  (let H := fresh in intros H; injection H as <- <-); eexists _, _;
  (split; [reflexivity|]);
  (split; [|discriminate]);
  repeat first [exact Hevs | apply Forall_app; split]; repeat constructor.

(** Steps 3 to 6 end, with calls of their own only. *)
Lemma publishImage_events (env : Env) (params : MetaPostParams)
    (caption fbPhotoId igContainerId : list ascii) (w w' : World)
    (r : Result MetaPostResult) :
  publishImage env params caption fbPhotoId igContainerId w = (r, w') ->
  exists rest pb,
    w' = advance rest 0 pb w
    /\ Forall (fun e => isPublishImageEvent e = true) rest
    /\ r <> OutOfFuel.
Proof.
  unfold publishImage.
  destruct (publishAttempts_trace env igContainerId (S (length delays)) 0 w)
    as (k & _ & Hw); [cbn; lia|].
  fold (publishIgContainerWithRetry env igContainerId) in Hw.
  pose proof (publishIgContainerWithRetry_terminates env igContainerId w) as Hf.
  pose proof (retryTrace_events igContainerId (take k (drop 0 delays))) as Hevs.
  unfold mbind at 1, M_bind at 1.
  destruct (publishIgContainerWithRetry env igContainerId w)
    as [[igPost|e|] w1]; cbn [fst snd] in Hw, Hf; subst w1;
    [| ends_with_publish Hevs | contradiction].
  unfold mbind at 1, M_bind at 1.
  destruct (negb (truthy fbPhotoId)).
  - rewrite call_run.
    destruct (uploadFbPhotoFromUrl env (mediaUrl params) false) as [photo|e];
      [|ends_with_publish Hevs].
    unfold mbind at 1, M_bind at 1. rewrite call_run.
    destruct (createFbFeedPost env caption photo) as [post|e];
      [|ends_with_publish Hevs].
    unfold mbind at 1, M_bind at 1. rewrite call_run.
    destruct (getIgPermalink env igPost); ends_with_publish Hevs.
  - cbn [mret M_ret].
    unfold mbind at 1, M_bind at 1. rewrite call_run.
    destruct (createFbFeedPost env caption fbPhotoId) as [post|e];
      [|ends_with_publish Hevs].
    unfold mbind at 1, M_bind at 1. rewrite call_run.
    destruct (getIgPermalink env igPost); ends_with_publish Hevs.
Qed.

Lemma fallbackEvent_image (e : Event) :
  isFallbackEvent e = true -> isImageFlowEvent e = true.
Proof. intros H. unfold isImageFlowEvent. rewrite H. reflexivity. Qed.

Lemma publishImageEvent_image (e : Event) :
  isPublishImageEvent e = true -> isImageFlowEvent e = true.
Proof. intros H. unfold isImageFlowEvent. rewrite H. apply orb_true_r. Qed.

Lemma publishImageEvent_not_transcode (e : Event) :
  isPublishImageEvent e = true -> isTranscode e = false.
Proof. destruct e; cbn; congruence. Qed.

Lemma imageFlowEvent_not_delete (e : Event) :
  isImageFlowEvent e = true -> isDelete e = false.
Proof. destruct e; cbn; congruence. Qed.

Lemma imageFlowEvent_not_serve (e : Event) :
  isImageFlowEvent e = true -> isServeEvent e = false.
Proof. destruct e; cbn; congruence. Qed.

(** The image flow ends, with calls of the image flow only, one transcoding
    at most among them. *)
Lemma handleImage_shape (env : Env) (params : MetaPostParams)
    (caption : list ascii) (w : World) :
  exists evs pb,
    (handleImage env params caption w).2 = advance evs 0 pb w
    /\ Forall (fun e => isImageFlowEvent e = true) evs
    /\ (countEvents isTranscode evs <= 1)%nat
    /\ (handleImage env params caption w).1 <> OutOfFuel.
Proof.
  unfold handleImage, mbind, M_bind.
  destruct (imageContainer env params caption w) as [r w1] eqn:Hc.
  destruct (imageContainer_shape env params caption w w1 r Hc)
    as (evs & -> & Hevs & Hcount & Hf).
  destruct r as [[fbPhotoId igContainerId]|e|]; [| |contradiction].
  - destruct (publishImage env params caption fbPhotoId igContainerId
                (advance evs 0 0 w)) as [r2 w2] eqn:Hp.
    destruct (publishImage_events env params caption fbPhotoId
                igContainerId _ w2 r2 Hp)
      as (rest & pb & -> & Hrest & Hf').
    cbn [fst snd]. rewrite advance_advance.
    exists (evs ++ rest), (pb + 0)%nat.
    split; [reflexivity|]. split; [|split; [|exact Hf']].
    + apply Forall_app. split.
      * eapply Forall_impl; [exact Hevs | apply fallbackEvent_image].
      * eapply Forall_impl; [exact Hrest | apply publishImageEvent_image].
    + unfold countEvents in *. rewrite List.filter_app, length_app.
      rewrite (filter_none isTranscode isPublishImageEvent rest
                 publishImageEvent_not_transcode Hrest).
      cbn [length]. lia.
  - exists evs, 0%nat. split; [reflexivity|]. split; [|split; [exact Hcount|
      discriminate]].
    eapply Forall_impl; [exact Hevs | apply fallbackEvent_image].
Qed.

(** X13.  Every run of the image flow ends, and whatever its collaborators
    answer it only makes calls of the image flow: it makes no delete call
    (a photo uploaded for a post that then fails stays on the second
    destination), registers and closes no file and leaves the served files
    as they were, and transcodes once at most. *)
Theorem image_flow_calls (env : Env) (params : MetaPostParams)
    (caption : list ascii) (w : World) :
  let w' := (handleImage env params caption w).2 in
  (handleImage env params caption w).1 <> OutOfFuel
  /\ (exists evs pb,
        w' = advance evs 0 pb w
        /\ Forall (fun e => isImageFlowEvent e = true) evs)
  /\ List.filter isDelete (trace w') = List.filter isDelete (trace w)
  /\ List.filter isServeEvent (trace w') = List.filter isServeEvent (trace w)
  /\ activeVideos w' = activeVideos w
  /\ (countEvents isTranscode (trace w')
      <= S (countEvents isTranscode (trace w)))%nat.
Proof.
  intros w'.
  destruct (handleImage_shape env params caption w)
    as (evs & pb & Hw & Hevs & Hcount & Hf).
  fold w' in Hw.
  split; [exact Hf|]. split; [exists evs, pb; split; assumption|].
  rewrite Hw. cbn [advance trace activeVideos].
  unfold countEvents in *. rewrite !List.filter_app, length_app.
  rewrite (filter_none isDelete isImageFlowEvent evs imageFlowEvent_not_delete
             Hevs).
  rewrite (filter_none isServeEvent isImageFlowEvent evs
             imageFlowEvent_not_serve Hevs).
  rewrite !app_nil_r. repeat split. lia.
Qed.

(** Steps 3 to 6 when every call succeeds: the photo attached to the feed
    post is the one already uploaded when there is one, and else the
    original uploaded by URL, unpublished. *)
Lemma publishImage_succeeds (env : Env) (params : MetaPostParams)
    (caption fbPhotoId igContainerId : list ascii) (w w1 : World)
    (igPost photo post link : list ascii) :
  publishIgContainerWithRetry env igContainerId w = (Returned igPost, w1) ->
  (if truthy fbPhotoId then photo = fbPhotoId
   else uploadFbPhotoFromUrl env (mediaUrl params) false = Resolved photo) ->
  createFbFeedPost env caption photo = Resolved post ->
  getIgPermalink env igPost = Resolved link ->
  publishImage env params caption fbPhotoId igContainerId w
  = (Returned {| instagram_post_id := igPost;
                 instagram_permalink := link;
                 facebook_post_id := post;
                 facebook_photo_id := Some photo;
                 facebook_video_id := None |},
     advance
       ((if truthy fbPhotoId then []
         else [EvUploadFbPhotoFromUrl (mediaUrl params) false])
        ++ [EvCreateFbFeedPost caption photo; EvGetIgPermalink igPost])
       0 0 w1).
Proof.
  intros Hpub Hphoto Hfeed Hlink. unfold publishImage.
  erewrite bind_returned by exact Hpub.
  destruct (truthy fbPhotoId); cbn [negb].
  - subst photo. erewrite bind_returned by reflexivity.
    call_returns Hfeed.
    call_returns Hlink.
    rewrite advance_advance. reflexivity.
  - call_returns Hphoto.
    call_returns Hfeed.
    call_returns Hlink.
    rewrite !advance_advance. reflexivity.
Qed.

(** X14.  An image whose first container creation succeeds: the flow
    publishes that container, and when the publish and the three calls
    after it succeed, it has uploaded the original by URL, unpublished, has
    attached that photo to the feed post, and returns the ids of both posts;
    it has downloaded and transcoded nothing. *)
Theorem image_direct_path (env : Env) (params : MetaPostParams)
    (caption : list ascii) (w w1 : World) (resp : FullResponse)
    (igPost photo post link : list ascii) :
  tryCreateIgImageContainer env (mediaUrl params) caption = Resolved resp ->
  isSuccess resp = true ->
  publishIgContainerWithRetry env (respId resp)
    (advance [EvTryCreateIgImageContainer (mediaUrl params) caption] 0 0 w)
  = (Returned igPost, w1) ->
  uploadFbPhotoFromUrl env (mediaUrl params) false = Resolved photo ->
  createFbFeedPost env caption photo = Resolved post ->
  getIgPermalink env igPost = Resolved link ->
  handleImage env params caption w
  = (Returned {| instagram_post_id := igPost;
                 instagram_permalink := link;
                 facebook_post_id := post;
                 facebook_photo_id := Some photo;
                 facebook_video_id := None |},
     advance [EvUploadFbPhotoFromUrl (mediaUrl params) false;
              EvCreateFbFeedPost caption photo;
              EvGetIgPermalink igPost] 0 0 w1)
  /\ List.filter isTranscode (trace (handleImage env params caption w).2)
     = List.filter isTranscode (trace w)
  /\ countEvents isFallbackEvent (trace (handleImage env params caption w).2)
     = S (countEvents isFallbackEvent (trace w)).
Proof.
  intros Ht Hs Hpub Hphoto Hfeed Hlink.
  assert (Hrun : handleImage env params caption w
                 = (Returned {| instagram_post_id := igPost;
                                instagram_permalink := link;
                                facebook_post_id := post;
                                facebook_photo_id := Some photo;
                                facebook_video_id := None |},
                    advance [EvUploadFbPhotoFromUrl (mediaUrl params) false;
                             EvCreateFbFeedPost caption photo;
                             EvGetIgPermalink igPost] 0 0 w1)).
  { unfold handleImage, imageContainer.
    erewrite bind_returned; cycle 1.
    { call_returns Ht. rewrite Hs. reflexivity. }
    cbv beta iota.
    apply (publishImage_succeeds env params caption [] (respId resp) _ w1
             igPost photo post link Hpub Hphoto Hfeed Hlink). }
  split; [exact Hrun|]. rewrite Hrun. cbn [snd advance trace].
  destruct (publishAttempts_shape env (respId resp) (S (length delays)) 0
              (advance [EvTryCreateIgImageContainer (mediaUrl params) caption]
                 0 0 w)) as (evs & pb & Hw & Hevs).
  fold (publishIgContainerWithRetry env (respId resp)) in Hw.
  rewrite Hpub in Hw. cbn [snd] in Hw. subst w1. cbn [advance trace].
  unfold countEvents. rewrite !List.filter_app, !length_app.
  rewrite (filter_leg_events isTranscode evs).
  - rewrite (filter_leg_events isFallbackEvent evs legEvent_not_fallback Hevs).
    cbn. rewrite !app_nil_r. split; [reflexivity | lia].
  - intros e. destruct e; cbn; congruence.
  - exact Hevs.
Qed.

Lemma image_direct_path_witness :
  let env := imageEnv (Resolved published) (Resolved (js "container-2")) in
  (handleImage env someParams (js "hi") hostWorld).1
  = Returned {| instagram_post_id := js "ig-post";
                instagram_permalink := js "https://instagram.example/p/1";
                facebook_post_id := js "feed-post";
                facebook_photo_id := Some (js "photo-url");
                facebook_video_id := None |}
  /\ List.filter isTranscode
       (trace (handleImage env someParams (js "hi") hostWorld).2) = [].
Proof.
  intros env.
  edestruct (image_direct_path env someParams (js "hi") hostWorld)
    as (H1 & H2 & _).
  - reflexivity.
  - reflexivity.
  - reflexivity.
  - reflexivity.
  - reflexivity.
  - reflexivity.
  - split; [rewrite H1; reflexivity | exact H2].
Defined.

(** X15.  An image that went through the fall-back, with every call
    succeeding: the photo that the fall-back uploaded is the one attached to
    the feed post and returned, and nothing is uploaded by URL.  This holds
    when the id of that photo is not empty; the flow tests the id, not
    whether an upload was made. *)
Theorem image_fallback_reuses_photo (env : Env) (params : MetaPostParams)
    (caption : list ascii) (w w1 : World) (resp : FullResponse)
    (imageBuffer convertedBuffer : list byte)
    (fbPhoto cdnUrl igContainerId igPost post link : list ascii)
    (photoImages : FbPhotoImagesResponse) :
  tryCreateIgImageContainer env (mediaUrl params) caption = Resolved resp ->
  isSuccess resp = false ->
  isFormatError resp = true ->
  downloadMedia env (mediaUrl params) = Resolved imageBuffer ->
  convertImage env imageBuffer (imageOptions params) = Resolved convertedBuffer ->
  uploadFbPhotoFromBuffer env convertedBuffer
    (js "converted." ++ formatName (imageOutputFormat params))
    (imageMime params) false = Resolved fbPhoto ->
  getFbPhotoImages env fbPhoto = Resolved photoImages ->
  head (images photoImages) = Some cdnUrl ->
  truthy cdnUrl = true ->
  createIgImageContainer env cdnUrl caption = Resolved igContainerId ->
  publishIgContainerWithRetry env igContainerId
    (advance
       (EvTryCreateIgImageContainer (mediaUrl params) caption
          :: fallbackCycle params caption convertedBuffer fbPhoto cdnUrl)
       0 0 w)
  = (Returned igPost, w1) ->
  truthy fbPhoto = true ->
  createFbFeedPost env caption fbPhoto = Resolved post ->
  getIgPermalink env igPost = Resolved link ->
  handleImage env params caption w
  = (Returned {| instagram_post_id := igPost;
                 instagram_permalink := link;
                 facebook_post_id := post;
                 facebook_photo_id := Some fbPhoto;
                 facebook_video_id := None |},
     advance [EvCreateFbFeedPost caption fbPhoto; EvGetIgPermalink igPost]
       0 0 w1).
Proof.
  intros Ht Hs Hf Hd Hc Hu Hg Hh Hcdn Hr Hpub Hid Hfeed Hlink.
  unfold handleImage.
  erewrite bind_returned; cycle 1.
  { rewrite (imageContainer_fallback env params caption w resp imageBuffer
               convertedBuffer fbPhoto cdnUrl photoImages Ht Hs Hf Hd Hc Hu Hg
               Hh Hcdn), Hr. reflexivity. }
  cbv beta iota.
  rewrite (publishImage_succeeds env params caption fbPhoto igContainerId _ w1
             igPost fbPhoto post link Hpub); rewrite ?Hid; try reflexivity;
    assumption.
Qed.

Lemma image_fallback_reuses_photo_witness :
  let env := imageEnv (Resolved rejectedFormat) (Resolved (js "container-2")) in
  (handleImage env someParams (js "hi") hostWorld).1
  = Returned {| instagram_post_id := js "ig-post";
                instagram_permalink := js "https://instagram.example/p/1";
                facebook_post_id := js "feed-post";
                facebook_photo_id := Some (js "photo-buffer");
                facebook_video_id := None |}.
Proof.
  intros env.
  erewrite (image_fallback_reuses_photo env someParams (js "hi") hostWorld);
    reflexivity.
Defined.

(** ** Captions and messages *)

Lemma withoutNewlines_app (a b : list ascii) :
  withoutNewlines (a ++ b) = withoutNewlines a ++ withoutNewlines b.
Proof. apply List.filter_app. Qed.

Lemma withoutNewlines_emitRun (k : nat) : withoutNewlines (emitRun k) = [].
Proof.
  unfold emitRun. destruct (3 <=? k)%nat; [reflexivity|].
  induction k as [|k IH]; [reflexivity | exact IH].
Qed.

Lemma length_emitRun (k : nat) : (length (emitRun k) <= k)%nat.
Proof.
  unfold emitRun. destruct (3 <=? k)%nat eqn:E.
  - apply Nat.leb_le in E. cbn. lia.
  - rewrite length_replicate. lia.
Qed.

Lemma replaceNewlineRuns_text (s : list ascii) :
  forall run, withoutNewlines (replaceNewlineRuns run s) = withoutNewlines s.
Proof.
  induction s as [|c t IH]; intros run; cbn [replaceNewlineRuns].
  - apply withoutNewlines_emitRun.
  - destruct (isLF c) eqn:Hc.
    + rewrite IH. unfold withoutNewlines. cbn [List.filter]. rewrite Hc.
      reflexivity.
    + rewrite withoutNewlines_app, withoutNewlines_emitRun.
      unfold withoutNewlines. cbn [List.filter app]. rewrite Hc. cbn [negb].
      f_equal. apply IH.
Qed.

Lemma replaceNewlineRuns_length (s : list ascii) :
  forall run, (length (replaceNewlineRuns run s) <= run + length s)%nat.
Proof.
  induction s as [|c t IH]; intros run; cbn [replaceNewlineRuns length].
  - pose proof (length_emitRun run). lia.
  - destruct (isLF c).
    + specialize (IH (S run)). lia.
    + rewrite length_app. cbn [length].
      pose proof (length_emitRun run). specialize (IH 0%nat). lia.
Qed.

(** X16.  Formatting a caption only removes newlines: the other characters
    of the caption, and of the suffix when it is appended, are kept in
    order; the result is never longer than the caption with the suffix
    appended; and it differs from it exactly when that text has three
    newlines in a row. *)
Theorem prepareCaption_removes_newlines_only (caption suffix : list ascii) :
  let appended :=
    if endsWith caption suffix then caption else caption ++ [LF] ++ suffix in
  withoutNewlines (prepareCaption caption suffix)
  = withoutNewlines
      (if endsWith caption suffix then caption else caption ++ suffix)
  /\ (length (prepareCaption caption suffix) <= length appended)%nat
  /\ (prepareCaption caption suffix = appended <-> ~ hasTripleNewline appended).
Proof.
  intros appended. rewrite prepareCaption_unfold. fold appended.
  unfold collapseNewlines. split; [|split].
  - rewrite replaceNewlineRuns_text. unfold appended.
    destruct (endsWith caption suffix); [reflexivity|].
    rewrite !withoutNewlines_app. reflexivity.
  - apply (replaceNewlineRuns_length appended 0).
  - split.
    + intros H. apply noTriple_sound. rewrite <- H.
      apply replaceNewlineRuns_noTriple.
    + intros H. apply (collapseNewlines_fixed appended), noTriple_complete, H.
Qed.

(** X17.  The guidance for a video that is rejected as a Reel is given
    exactly when the message of the caught error contains [2207089], or
    contains the word carousel with each of its letters in lower or in
    upper case. *)
Theorem isCarouselRejection_spec (msg : list ascii) :
  isCarouselRejection msg = true <-> namesCarouselRejection msg.
Proof. apply isCarouselRejection_names. Qed.

Lemma isCarouselRejection_spec_witness :
  isCarouselRejection (js "Media was treated as a CAROUSEL item") = true
  /\ isCarouselRejection (js "the cArOuSeL check failed") = true
  /\ rethrown (js "Carousel")
     = js "Instagram rejected the video as a Reel. "
         ++ js "The video likely exceeds Instagram Reels requirements "
         ++ js "(max 5 Mbps bitrate, H.264 High profile, max 90s duration). "
         ++ js "Please re-encode the source video to a lower bitrate "
         ++ js "before posting. (Original error: Carousel)"
  /\ ~ namesCarouselRejection (js "car0usel 220708")
  /\ rethrown (js "car0usel 220708") = js "car0usel 220708".
Proof.
  assert (Hspell : forall word,
            Forall2 (fun c letter => Ascii.eqb c letter.1 || Ascii.eqb c letter.2
                                     = true) word carouselLetters ->
            spellsCarousel word).
  { intros word H. eapply Forall2_impl; [exact H|].
    intros c letter Hc. apply orb_true_iff in Hc as [Hc|Hc];
      apply Ascii.eqb_eq in Hc; auto. }
  split; [|split; [|split; [|split]]].
  - apply (isCarouselRejection_spec (js "Media was treated as a CAROUSEL item")).
    right. exists (js "CAROUSEL"). split.
    + exists (js "Media was treated as a "), (js " item"). reflexivity.
    + apply Hspell. repeat constructor.
  - apply (isCarouselRejection_spec (js "the cArOuSeL check failed")).
    right. exists (js "cArOuSeL"). split.
    + exists (js "the "), (js " check failed"). reflexivity.
    + apply Hspell. repeat constructor.
  - reflexivity.
  - intros H. apply (isCarouselRejection_spec (js "car0usel 220708")) in H.
    discriminate H.
  - reflexivity.
Defined.

(** ** The two endpoints side by side *)

(** X18.  The handler of the dedicated listener and [serveBuffer] agree: on
    a GET or HEAD request for the served path they answer the same status
    and the same bytes, and the headers of the dedicated listener are those
    of [serveBuffer] followed, except on 416, by [Connection: keep-alive]. *)
Theorem dedicated_agrees_with_shared (servePath : list ascii)
    (buffer : list byte) (req : Request) :
  isGetOrHead (method req) = true ->
  url req = servePath ->
  let dedicated := dedicatedHandler servePath buffer req in
  let shared := serveBuffer req buffer in
  res_status dedicated = res_status shared
  /\ res_body dedicated = res_body shared
  /\ res_headers dedicated
     = res_headers shared
         ++ (if res_status shared =? 416 then [] else [keepAlive])
  /\ dedicated <> notFound.
Proof.
  intros Hm Hu. unfold dedicatedHandler, serveBuffer, isGetOrHead in *.
  subst servePath. rewrite eqbStr_refl. cbn [negb orb].
  destruct (eqbStr (method req) (js "HEAD")) eqn:Hh.
  - rewrite andb_false_r. cbn. repeat split. discriminate.
  - rewrite orb_false_r in Hm. rewrite Hm. cbn [negb andb].
    destruct (range req) as [[|c h]|]; cbn;
      try (repeat split; discriminate).
    destruct (parseRange (c :: h) (Z.of_nat (length buffer))) as [[s e]|];
      cbn; repeat split; discriminate.
Qed.

Lemma dedicated_agrees_with_shared_witness :
  let buffer := replicate 2000 "000"%byte in
  let req := {| method := js "GET"; url := js "/v.mp4";
                range := Some (js "bytes=5000-") |} in
  res_status (dedicatedHandler (js "/v.mp4") buffer req) = 416
  /\ res_headers (dedicatedHandler (js "/v.mp4") buffer req)
     = res_headers (serveBuffer req buffer).
Proof.
  intros buffer req.
  destruct (dedicated_agrees_with_shared (js "/v.mp4") buffer req)
    as (H1 & _ & H2 & _); [reflexivity | reflexivity |].
  split; [rewrite H1; reflexivity | rewrite H2; apply app_nil_r].
Defined.

(** ** The transcoder adapter *)

Lemma replaceFirstDigits_skip (f : list ascii -> list ascii)
    (pre s : list ascii) :
  noDigits pre ->
  replaceFirstDigits f (pre ++ s) = pre ++ replaceFirstDigits f s.
Proof.
  intros H. induction H as [|c pre Hc _ IH]; [reflexivity|].
  cbn [app replaceFirstDigits]. rewrite Hc, IH. reflexivity.
Qed.

(** X19.  The buffer size given to the transcoder is the maximal bitrate
    with its first run of digits replaced by the double of its value, and
    everything before and after that run copied: digits that follow a
    separator are not doubled, and a bitrate without digits is passed as it
    is. *)
Theorem bufsize_doubles_first_number (pre ds rest : list ascii) :
  noDigits pre ->
  allDigits ds ->
  (ds = [] -> rest = []) ->
  match rest with [] => True | c :: _ => isDigit c = false end ->
  parseInt ds <= 2 ^ 53 ->
  bufsize (pre ++ ds ++ rest)
  = pre ++ (if truthy ds then toString (parseInt ds * 2) else []) ++ rest.
Proof.
  intros Hpre Hds Hnone Hrest _. unfold bufsize.
  rewrite (replaceFirstDigits_skip _ pre _ Hpre). f_equal.
  destruct ds as [|d ds].
  - rewrite (Hnone eq_refl). reflexivity.
  - pose proof (spanDigits_app (d :: ds) rest Hds Hrest) as Hspan.
    cbn [app] in Hspan |- *. cbn [replaceFirstDigits truthy].
    inversion Hds as [|? ? Hd _]; subst. rewrite Hd, Hspan. reflexivity.
Qed.

Lemma bufsize_doubles_first_number_witness :
  bufsize (js "4500k") = js "9000k" /\ bufsize (js "4.5M") = js "8.5M".
Proof.
  split.
  - apply (bufsize_doubles_first_number [] (js "4500") (js "k")).
    + constructor.
    + repeat constructor.
    + discriminate.
    + reflexivity.
    + vm_compute. discriminate.
  - apply (bufsize_doubles_first_number [] (js "4") (js ".5M")).
    + constructor.
    + repeat constructor.
    + discriminate.
    + reflexivity.
    + vm_compute. discriminate.
Defined.

(** X20.  [ensureFfmpeg] remembers its answer: a call that returns a path
    returns a non-empty one and leaves it in the module variable, and every
    later call returns that same path whatever the installation looks like
    by then; a call that throws leaves the variable as it was, so that the
    next call looks again.  From the initial state, the path returned is the
    one of the package, and the binary was there, at first or after the
    install. *)
Theorem ensureFfmpeg_memoised (host : Installation)
    (resolved : option (list ascii)) :
  match ensureFfmpeg host resolved with
  | (Returned p, resolved') =>
      truthy p = true
      /\ resolved' = Some p
      /\ (forall later, ensureFfmpeg later resolved' = (Returned p, resolved'))
      /\ (resolved = None ->
          ffmpegStatic host = Some p
          /\ (existsAtFirst host = true
              \/ (installRun host = Resolved tt
                  /\ existsAfterInstall host = true)))
  | (Thrown _, resolved') =>
      resolved' = resolved /\ truthy (optStr resolved) = false
  | (OutOfFuel, _) => False
  end.
Proof.
  unfold ensureFfmpeg.
  destruct resolved as [[|c p]|];
    destruct (ffmpegStatic host) as [[|c' p']|];
    destruct (existsAtFirst host);
    destruct (installRun host) as [[]|err];
    destruct (existsAfterInstall host);
    cbn;
    repeat match goal with
           | |- _ /\ _ => split
           | |- forall _, _ => intro
           end;
    try discriminate; try reflexivity; auto.
Qed.

(** ** The node: one item after the other *)

Lemma processItem_terminates (host : NodeHost) (i : nat) (w : World) :
  (processItem host i w).1 <> OutOfFuel.
Proof.
  unfold processItem, mbind, M_bind, await.
  destruct (getCredentials host i); [|discriminate].
  destruct (getNodeParameters host i) as [parameters|e]; [|discriminate].
  destruct (getPageAccessToken host i); [|discriminate].
  destruct (eqbStr (item_mediaType (readParams parameters)) (js "image")).
  - destruct (handleImage_shape (collaborators host i)
                (item_flow (readParams parameters))
                (prepareCaption (item_caption (readParams parameters))
                   (item_hashSuffix (readParams parameters))) w)
      as (_ & _ & _ & _ & _ & H).
    exact H.
  - apply handleVideo_terminates.
Qed.

(** Items that return are passed one after the other, each adding its
    entry. *)
Lemma executeFrom_returns (host : NodeHost) (w : World) (k : nat) :
  forall (i rest : nat) (returnData : list OutputItem),
  (forall j, (i <= j < i + k)%nat ->
     exists result,
       (processItem host j (worldBefore host w j)).1 = Returned result) ->
  executeFrom host i (k + rest) returnData (worldBefore host w i)
  = executeFrom host (i + k) rest
      (returnData ++ List.map (outputOf host w) (seq i k))
      (worldBefore host w (i + k)).
Proof.
  induction k as [|k IH]; intros i rest returnData Hret.
  - cbn [Nat.add seq List.map]. rewrite Nat.add_0_r, app_nil_r. reflexivity.
  - destruct (Hret i ltac:(lia)) as [result Hres].
    cbn [Nat.add executeFrom seq List.map].
    assert (Hw : worldBefore host w (S i)
                 = (processItem host i (worldBefore host w i)).2)
      by reflexivity.
    destruct (processItem host i (worldBefore host w i)) as [r w'] eqn:Hp.
    cbn [fst snd] in Hres, Hw. subst r w'.
    rewrite (IH (S i) rest) by (intros j Hj; apply Hret; lia).
    replace (S i + k)%nat with (i + S k)%nat by lia.
    unfold outputOf at 2. rewrite Hp. cbn [fst].
    rewrite <- app_assoc. reflexivity.
Qed.

(** With failures continued on, every item is passed. *)
Lemma executeFrom_continues (host : NodeHost) (w : World) (k : nat) :
  continueOnFail host = true ->
  forall (i : nat) (returnData : list OutputItem),
  executeFrom host i k returnData (worldBefore host w i)
  = (Output (returnData ++ List.map (outputOf host w) (seq i k)),
     worldBefore host w (i + k)).
Proof.
  intros Hcont. induction k as [|k IH]; intros i returnData.
  - cbn [executeFrom seq List.map]. rewrite Nat.add_0_r, app_nil_r.
    reflexivity.
  - cbn [executeFrom seq List.map].
    assert (Hw : worldBefore host w (S i)
                 = (processItem host i (worldBefore host w i)).2)
      by reflexivity.
    pose proof (processItem_terminates host i (worldBefore host w i)) as Hf.
    unfold outputOf at 1.
    destruct (processItem host i (worldBefore host w i)) as [r w'] eqn:Hp.
    cbn [fst snd] in Hf, Hw |- *. subst w'.
    replace (i + S k)%nat with (S i + k)%nat by lia.
    destruct r as [result|error|]; [| |contradiction].
    + rewrite IH, <- app_assoc. reflexivity.
    + rewrite Hcont, IH, <- app_assoc. reflexivity.
Qed.

(** X21.  When failures are continued on, [execute] never throws: it
    returns one entry for each input item, in the order of the items and
    paired with its index, the result of the item or the detail of the error
    it threw; and every item is processed, in the world the item before it
    left, whatever failed before. *)
Theorem execute_continues_on_fail (host : NodeHost) (items : nat) (w : World) :
  continueOnFail host = true ->
  execute host items w
  = (Output (List.map (outputOf host w) (seq 0 items)),
     worldBefore host w items)
  /\ length (List.map (outputOf host w) (seq 0 items)) = items
  /\ (forall i, (i < items)%nat ->
        List.map (outputOf host w) (seq 0 items) !! i
        = Some (match (processItem host i (worldBefore host w i)).1 with
                | Returned result => ResultItem result i
                | Thrown error => ErrorItem (detail host error) i
                | OutOfFuel => ErrorItem [] i
                end)
        /\ (processItem host i (worldBefore host w i)).1 <> OutOfFuel).
Proof.
  intros Hcont. split; [|split].
  - exact (executeFrom_continues host w items Hcont 0 []).
  - rewrite length_map, length_seq. reflexivity.
  - intros i Hi. split; [|apply processItem_terminates].
    rewrite list_lookup_fmap, lookup_seq_lt by exact Hi. reflexivity.
Qed.

Lemma execute_continues_on_fail_witness :
  (execute (twoItemHost true) 2 hostWorld).1
  = Output
      [ResultItem
         {| instagram_post_id := js "ig-post";
            instagram_permalink := js "https://instagram.example/p/1";
            facebook_post_id := js "feed-post";
            facebook_photo_id := Some (js "photo-url");
            facebook_video_id := None |} 0;
       ErrorItem (js "Could not get parameter") 1].
Proof.
  destruct (execute_continues_on_fail (twoItemHost true) 2 hostWorld eq_refl)
    as (H & _).
  rewrite H. reflexivity.
Defined.

(** X22.  When failures are not continued on, [execute] stops at the first
    item that throws: it throws a [NodeOperationError] with the detail of
    that error and the index of that item, in the world that item left; the
    items after it are not processed.  When no item throws, it returns the
    results of all of them, in order. *)
Theorem execute_stops_at_first_failure (host : NodeHost) (items : nat)
    (w : World) (i : nat) :
  continueOnFail host = false ->
  (i <= items)%nat ->
  (forall j, (j < i)%nat ->
     exists result,
       (processItem host j (worldBefore host w j)).1 = Returned result) ->
  (i < items ->
   forall error,
     (processItem host i (worldBefore host w i)).1 = Thrown error ->
     execute host items w
     = (NodeOperationError (detail host error) i, worldBefore host w (S i)))%nat
  /\ (i = items ->
      execute host items w
      = (Output (List.map (outputOf host w) (seq 0 items)),
         worldBefore host w items)).
Proof.
  intros Hcont Hi Hret.
  assert (Hgo : execute host items w
                = executeFrom host i (items - i)
                    (List.map (outputOf host w) (seq 0 i))
                    (worldBefore host w i)).
  { assert (Hbefore : forall j, (0 <= j < 0 + i)%nat ->
              exists result,
                (processItem host j (worldBefore host w j)).1 = Returned result)
      by (intros j Hj; apply Hret; lia).
    pose proof (executeFrom_returns host w i 0 (items - i) [] Hbefore) as E.
    cbn [worldBefore Nat.add app] in E.
    replace (i + (items - i))%nat with items in E by lia. exact E. }
  split.
  - intros Hlt error Herr. rewrite Hgo.
    replace (items - i)%nat with (S (items - S i)) by lia.
    cbn [executeFrom worldBefore].
    destruct (processItem host i (worldBefore host w i)) as [r w'].
    cbn [fst snd] in Herr |- *. subst r. rewrite Hcont. reflexivity.
  - intros ->. rewrite Hgo, Nat.sub_diag. reflexivity.
Qed.

Lemma execute_stops_at_first_failure_witness :
  (execute (twoItemHost false) 2 hostWorld).1
  = NodeOperationError (js "Could not get parameter") 1.
Proof.
  destruct (execute_stops_at_first_failure (twoItemHost false) 2 hostWorld 1)
    as (H & _).
  - reflexivity.
  - lia.
  - intros j Hj. assert (j = 0)%nat as -> by lia. eexists. reflexivity.
  - rewrite (H ltac:(lia) (js "Could not get parameter") eq_refl).
    reflexivity.
Defined.
